(** * Mistfall runtime: a shallow embedding of the schema model, the
    normalization pipeline, the query evaluator and the memory backend,
    with the properties of the transactional CRUD surface.

    Sources: [runtime.ts] (connect, MemoryAdapter, IDBAdapter,
    normalizeInsertRow, normalizeUpdateRow, ensureForeignKeys,
    applyQueryOptions, ...), [builders.ts] (ColumnBuilder, table) and
    [ast.ts] (ColumnDef, TableDef, SchemaDef). *)

From stdpp Require Import gmap strings list fin_maps.
From Stdlib Require Import ZArith Lia Permutation Sorted.

Open Scope string_scope.
Open Scope list_scope.
Open Scope Z_scope.

(* ===================================================================== *)
(** ** JavaScript values and rows *)
(* ===================================================================== *)

(** The scalar JavaScript values a row can hold.  Numbers are modelled as
    unbounded integers: identity counters and the keys of the scenarios are
    integers, and the double-precision limit of [2^53] is out of scope. *)
Inductive value : Type :=
| VUndefined
| VNull
| VBool (b : bool)
| VNum (n : Z)
| VStr (s : string).

#[global] Instance value_eq_dec : EqDecision value.
Proof. solve_decision. Defined.

(** [a === b] on scalars. *)
Definition strict_eq (a b : value) : bool := bool_decide (a = b).

(** [a > b]: numbers by magnitude, strings lexicographically by code unit;
    every other pairing used by the runtime compares [false]. *)
Fixpoint string_ltb (a b : string) : bool :=
  match a, b with
  | EmptyString, EmptyString => false
  | EmptyString, String _ _ => true
  | String _ _, EmptyString => false
  | String x a', String y b' =>
      let nx := Ascii.nat_of_ascii x in
      let ny := Ascii.nat_of_ascii y in
      if Nat.ltb nx ny then true
      else if Nat.ltb ny nx then false
      else string_ltb a' b'
  end.

Definition js_gt (a b : value) : bool :=
  match a, b with
  | VNum x, VNum y => Z.ltb y x
  | VStr x, VStr y => string_ltb y x
  | _, _ => false
  end.

Definition is_undefined (v : value) : bool :=
  match v with VUndefined => true | _ => false end.

Definition is_null (v : value) : bool :=
  match v with VNull => true | _ => false end.

(** A row is a JavaScript object used as a record: own properties by name.
    A property may be present and hold [undefined]. *)
Abbreviation Row := (gmap string value).

(** [row[c]]: an absent property reads as [undefined]. *)
Definition get (row : Row) (c : string) : value :=
  default VUndefined (row !! c).

(** [Object.prototype.hasOwnProperty.call(row, c)]. *)
Definition hasOwnProperty (row : Row) (c : string) : bool :=
  bool_decide (is_Some (row !! c)).

(** [{ ...a, ...b }]: the properties of [b] win. *)
Definition spread (a b : Row) : Row := b ∪ a.

(** [structuredClone]: rows here hold immutable scalars, so a deep copy is
    the same value; what matters is that the stored row is never aliased. *)
Definition cloneValue (v : value) : value := v.
Definition cloneRow (row : Row) : Row := row.

(* ===================================================================== *)
(** ** Schema model ([ast.ts]) *)
(* ===================================================================== *)

Inductive ColumnKind : Type :=
| KInt | KBigint | KFloat | KDecimal | KVarchar | KText
| KBoolean | KTimestamp | KJson | KEnum.

Inductive DeleteRule : Type := Restrict | Cascade.

Record ColumnConstraintRuntime : Type := {
  notNull : bool;
  primaryKey : bool;
  unique : bool;
  identity : bool;
  hasDefault : bool;
}.

Record ForeignKeyMeta : Type := {
  tableName : string;
  columnName : string;
  onDelete : DeleteRule;
}.

(** What [resolveForeignKeys] reads of the column a [references] thunk
    returns: its [tableName] (set by [table()], absent on a column that never
    went through it) and its [name]. *)
Record ResolvedColumn : Type := {
  target_tableName : option string;
  target_name : string;
}.

Record ReferenceConfig : Type := {
  resolver : unit -> option ResolvedColumn;
  ref_onDelete : DeleteRule;
}.

(** [defaultValue] is [VUndefined] when no literal default was declared (the
    runtime tests [column.defaultValue !== undefined]).  The [options] bag and
    the [table] back pointer of a column are not read by the runtime and are
    left out. *)
Record ColumnDef : Type := {
  kind : ColumnKind;
  col_name : string;
  constraints : ColumnConstraintRuntime;
  defaultValue : value;
  defaultFn : option (unit -> value);
  onUpdateFn : option (value -> value);
  reference : option ReferenceConfig;
  foreignKey : option ForeignKeyMeta;
}.

Record IndexComputedConfig : Type := {
  field : string;
  expression : Row -> value;
}.

Record IndexDef : Type := {
  idx_name : string;
  idx_unique : bool;
  sourceColumns : list string;
  computed : option IndexComputedConfig;
}.

(** [columns] is a JavaScript object keyed by column alias; [Object.values]
    walks it in declaration order, so it is kept as an association list. *)
Record TableDef : Type := {
  tbl_name : string;
  columns : list (string * ColumnDef);
  indexes : list IndexDef;
}.

(** The [signature] string is only written to the metadata store by the
    upgrader and is left out. *)
Record SchemaDef : Type := {
  schema_name : string;
  version : Z;
  namespace : string;
  tables : list (string * TableDef);
}.

(** A table as the runtime receives it: the descriptor together with the
    [schema] back pointer that [schema()] installs.  The cycle
    table -> schema -> tables is unrolled once, which is as deep as the
    runtime follows it. *)
Record AnyTable : Type := {
  def :> TableDef;
  tbl_schema : option SchemaDef;
}.

(** [obj[key]] on an object kept as an association list. *)
Fixpoint prop {A : Type} (key : string) (obj : list (string * A)) : option A :=
  match obj with
  | [] => None
  | (k, a) :: rest => if bool_decide (k = key) then Some a else prop key rest
  end.

Definition Object_values {A : Type} (obj : list (string * A)) : list A :=
  map snd obj.

(* ===================================================================== *)
(** ** Errors and the state-and-exception monad *)
(* ===================================================================== *)

(** One constructor per [throw new Error(...)] of the runtime and the
    builder, carrying what the message interpolates. *)
Inductive Error : Type :=
| PrimaryKeyViolation (table pk : string)
| NotNullable (table column : string)
| ForeignKeyViolation (sourceTable sourceColumn targetTable targetColumn : string)
| DeleteRestricted (table column : string)
| MissingPrimaryKey (table : string)
| MustDeclarePrimaryKey (table : string)
| UnableToResolveForeignKey (table column : string)
| EmptyTransaction
| UndeclaredTable (table : string)
| TypeError
| UserError (msg : string).

#[global] Instance Error_eq_dec : EqDecision Error.
Proof. solve_decision. Defined.

Inductive Result (A : Type) : Type :=
| Ok (a : A)
| Err (e : Error).
Arguments Ok {A} a.
Arguments Err {A} e.

(** An asynchronous method run to completion on a state [St]: it returns or
    throws, and in both cases leaves the state as mutated so far. *)
Definition M (St A : Type) : Type := St -> Result A * St.

Definition ret {St A : Type} (a : A) : M St A := fun s => (Ok a, s).
Definition throw {St A : Type} (e : Error) : M St A := fun s => (Err e, s).
Definition bind {St A B : Type} (m : M St A) (k : A -> M St B) : M St B :=
  fun s => match m s with
           | (Ok a, s') => k a s'
           | (Err e, s') => (Err e, s')
           end.

Notation "x <- m ;; k" := (bind m (fun x => k))
  (at level 100, m at next level, right associativity).
Notation "m ;;; k" := (bind m (fun _ => k))
  (at level 100, right associativity).

(** [for (const x of xs) { await body(x) }]. *)
Fixpoint forEach {St A : Type} (body : A -> M St unit) (xs : list A) : M St unit :=
  match xs with
  | [] => ret tt
  | x :: rest => body x ;;; forEach body rest
  end.

(** A loop that threads a local variable through its iterations. *)
Fixpoint foldM {St A B : Type} (body : B -> A -> M St B) (xs : list A) (acc : B)
  : M St B :=
  match xs with
  | [] => ret acc
  | x :: rest => acc' <- body acc x ;; foldM body rest acc'
  end.

(* ===================================================================== *)
(** ** Normalization pipeline ([runtime.ts]) *)
(* ===================================================================== *)

Record ForeignReference : Type := {
  ref_table : TableDef;
  ref_column : ColumnDef;
}.

(** The backend-supplied hooks of the pipeline. *)
Record NormalizationContext (St : Type) : Type := {
  allocateIdentity : AnyTable -> ColumnDef -> M St value;
  ensureForeignKey :
    AnyTable -> ColumnDef -> TableDef -> ColumnDef -> value -> M St unit;
}.
Arguments allocateIdentity {St} _ _ _.
Arguments ensureForeignKey {St} _ _ _ _ _ _.

Section Normalization.
Context {St : Type}.

(** One iteration of the column loop of [ensureForeignKeys]. *)
Definition ensureForeignKeyOf (schema : SchemaDef) (table : AnyTable) (row : Row)
    (ctx : NormalizationContext St) (column : ColumnDef) : M St unit :=
  match foreignKey column with
  | None => ret tt
  | Some fk =>
      let value := get row (col_name column) in
      if is_undefined value || is_null value then ret tt
      else
        match prop (tableName fk) (tables schema) with
        | Some targetTable =>
            match prop (columnName fk) (columns targetTable) with
            | Some targetColumn =>
                ensureForeignKey ctx table column targetTable targetColumn value
            | None => ret tt
            end
        | None => ret tt
        end
  end.

Definition ensureForeignKeys (table : AnyTable) (row : Row)
    (ctx : NormalizationContext St) : M St unit :=
  match tbl_schema table with
  | None => ret tt
  | Some schema =>
      forEach (ensureForeignKeyOf schema table row ctx) (Object_values (columns table))
  end.

(** One iteration of the column loop of [normalizeInsertRow]. *)
Definition normalizeInsertColumn (table : AnyTable)
    (ctx : NormalizationContext St) (row : Row) (column : ColumnDef) : M St Row :=
  let value := get row (col_name column) in
  value <-
    (if is_undefined value then
       if identity (constraints column) then allocateIdentity ctx table column
       else match defaultFn column with
            | Some f => ret (f tt)
            | None =>
                if negb (is_undefined (defaultValue column))
                then ret (cloneValue (defaultValue column))
                else ret value
            end
     else ret value) ;;
  if (is_undefined value || is_null value) && notNull (constraints column)
  then throw (NotNullable (tbl_name table) (col_name column))
  else ret (<[col_name column := value]> row).

Definition normalizeInsertRow (table : AnyTable) (input : Row)
    (ctx : NormalizationContext St) : M St Row :=
  row <- foldM (normalizeInsertColumn table ctx)
               (Object_values (columns table)) (spread ∅ input) ;;
  ensureForeignKeys table row ctx ;;;
  ret row.

(** The value [normalizeUpdateRow] resolves for a column: the hook applied
    to the stored value when the patch does not own the column's key, the
    merged row's value otherwise. *)
Definition updateValue (existing patch row : Row) (column : ColumnDef) : value :=
  let userProvided := hasOwnProperty patch (col_name column) in
  let value := get row (col_name column) in
  match onUpdateFn column with
  | Some f => if negb userProvided then f (get existing (col_name column)) else value
  | None => value
  end.

(** One iteration of the column loop of [normalizeUpdateRow]. *)
Definition normalizeUpdateColumn (table : AnyTable) (existing patch : Row)
    (row : Row) (column : ColumnDef) : M St Row :=
  let value := updateValue existing patch row column in
  if is_undefined value && notNull (constraints column)
  then throw (NotNullable (tbl_name table) (col_name column))
  else ret (<[col_name column := value]> row).

Definition normalizeUpdateRow (table : AnyTable) (existing patch : Row)
    (ctx : NormalizationContext St) : M St Row :=
  row <- foldM (normalizeUpdateColumn table existing patch)
               (Object_values (columns table)) (spread existing patch) ;;
  ensureForeignKeys table row ctx ;;;
  ret row.

End Normalization.

(** [applyComputedFields]: each computed index writes its key onto the row,
    in index order, each expression seeing the fields written before it. *)
Definition applyComputedFields (table : TableDef) (row : Row) : Row :=
  fold_left (fun row idx =>
               match computed idx with
               | Some c => <[field c := expression c row]> row
               | None => row
               end) (indexes table) row.

Definition primaryKeyColumn (table : TableDef) : Result ColumnDef :=
  match find (fun col => primaryKey (constraints col)) (Object_values (columns table)) with
  | Some pk => Ok pk
  | None => Err (MissingPrimaryKey (tbl_name table))
  end.

Definition storeName (schema : SchemaDef) (table : TableDef) : string :=
  (namespace schema ++ "__" ++ tbl_name table)%string.

(** [buildReferenceMap]: for each table name, the (table, column) pairs whose
    foreign key targets it, in schema order. *)
Definition buildReferenceMap (schema : SchemaDef)
  : gmap string (list ForeignReference) :=
  fold_left (fun map table =>
    fold_left (fun map column =>
      match foreignKey column with
      | None => map
      | Some fk =>
          let collection := default [] (map !! tableName fk) in
          <[tableName fk := collection ++ [{| ref_table := table; ref_column := column |}]]> map
      end) (Object_values (columns table)) map)
    (Object_values (tables schema)) ∅.

(* ===================================================================== *)
(** ** Query evaluator ([applyQueryOptions]) *)
(* ===================================================================== *)

Inductive OrderBy : Type :=
| ByColumn (c : string)
| BySelector (f : Row -> value).

Inductive Order : Type := Asc | Desc.

Record QueryOptions : Type := {
  where_ : option (Row -> bool);
  orderBy : option OrderBy;
  order : option Order;
  limit : option Z;
  offset : option Z;
}.

(** Truthiness of [options.orderBy]: a function is truthy, a column name is
    truthy unless it is the empty string. *)
Definition orderBy_selector (o : option OrderBy) : option (Row -> value) :=
  match o with
  | None => None
  | Some (BySelector f) => Some f
  | Some (ByColumn c) => if bool_decide (c = "") then None else Some (fun row => get row c)
  end.

(** The comparator handed to [Array.prototype.sort]. *)
Definition compare_keys (av bv : value) : Z :=
  if strict_eq av bv then 0 else if js_gt av bv then 1 else -1.

(** [Array.prototype.sort] is stable; it is modelled by the stable insertion
    sort, which is what every conforming engine computes for a comparator
    that is a consistent ordering. *)
Section Sort.
Context {A : Type} (cmp : A -> A -> Z).

Fixpoint sort_insert (x : A) (sorted : list A) : list A :=
  match sorted with
  | [] => [x]
  | y :: rest => if cmp x y <=? 0 then x :: y :: rest else y :: sort_insert x rest
  end.

Fixpoint Array_sort (xs : list A) : list A :=
  match xs with
  | [] => []
  | x :: rest => sort_insert x (Array_sort rest)
  end.
End Sort.

(** [Array.prototype.slice(start, end)] with its relative-index rules:
    a negative index counts from the end, and both are clamped to
    [0, length]. *)
Definition relative_index (len k : Z) : Z :=
  if k <? 0 then Z.max (len + k) 0 else Z.min k len.

Definition Array_slice {A : Type} (xs : list A) (start stop : Z) : list A :=
  let len := Z.of_nat (length xs) in
  let k := relative_index len start in
  let final := relative_index len stop in
  take (Z.to_nat (final - k)) (drop (Z.to_nat k) xs).

Definition applyQueryOptions (rows : list Row) (options : option QueryOptions)
  : list Row :=
  match options with
  | None => rows
  | Some options =>
      let result := rows in
      let result :=
        match where_ options with
        | Some p => filter (fun row => p row = true) result
        | None => result
        end in
      let result :=
        match orderBy_selector (orderBy options) with
        | Some selector =>
            let sorted :=
              Array_sort (fun a b => compare_keys (selector a) (selector b)) result in
            match order options with
            | Some Desc => reverse sorted
            | _ => sorted
            end
        | None => result
        end in
      let offset := default 0 (offset options) in
      let limit := default (Z.of_nat (length result)) (limit options) in
      Array_slice result offset (offset + limit)
  end.

(* ===================================================================== *)
(** ** The client contract shared by the two backends *)
(* ===================================================================== *)

(** [row | row[]], as [insert] accepts it. *)
Inductive InsertValues : Type :=
| One (row : Row)
| Many (rows : list Row).

Definition toList (values : InsertValues) : list Row :=
  match values with
  | One row => [row]
  | Many rows => rows
  end.

(** What a session function does with its session: it awaits one of the
    four verbs and goes on with the outcome (a rejected call can be caught),
    returns, or throws.  Each backend's [createTransactionSession] says what
    the verbs do. *)
Inductive SessionFn (T : Type) : Type :=
| Return (result : T)
| Throw (error : Error)
| TrxInsert (table : AnyTable) (values : InsertValues)
            (k : Result (list Row) -> SessionFn T)
| TrxSelect (table : AnyTable) (options : option QueryOptions)
            (k : Result (list Row) -> SessionFn T)
| TrxUpdate (table : AnyTable) (where_ : Row -> bool) (patch : Row)
            (k : Result Z -> SessionFn T)
| TrxDelete (table : AnyTable) (where_ : Row -> bool)
            (k : Result Z -> SessionFn T).
Arguments Return {T} result.
Arguments Throw {T} error.
Arguments TrxInsert {T} table values k.
Arguments TrxSelect {T} table options k.
Arguments TrxUpdate {T} table where_ patch k.
Arguments TrxDelete {T} table where_ k.

(* ===================================================================== *)
(** ** Memory backend ([MemoryAdapter]) *)
(* ===================================================================== *)

(** A [Map<IDBValidKey, any>]: entries in insertion order, one per key. *)
Abbreviation Store := (list (value * Row)).

Fixpoint Map_get (key : value) (store : Store) : option Row :=
  match store with
  | [] => None
  | (k, row) :: rest => if bool_decide (k = key) then Some row else Map_get key rest
  end.

Definition Map_has (key : value) (store : Store) : bool :=
  bool_decide (is_Some (Map_get key store)).

(** [set] keeps the position of a key already present and appends a new one. *)
Fixpoint Map_set (key : value) (row : Row) (store : Store) : Store :=
  match store with
  | [] => [(key, row)]
  | (k, r) :: rest =>
      if bool_decide (k = key) then (k, row) :: rest
      else (k, r) :: Map_set key row rest
  end.

Fixpoint Map_delete (key : value) (store : Store) : Store :=
  match store with
  | [] => []
  | (k, r) :: rest =>
      if bool_decide (k = key) then rest else (k, r) :: Map_delete key rest
  end.

Definition Map_values (store : Store) : list Row := map snd store.

Record MemoryAdapter : Type := {
  schema : SchemaDef;
  stores : gmap string Store;
  sequences : gmap string Z;
  referenceMap : gmap string (list ForeignReference);
}.

Definition with_stores (f : gmap string Store -> gmap string Store)
    (a : MemoryAdapter) : MemoryAdapter :=
  {| schema := schema a; stores := f (stores a);
     sequences := sequences a; referenceMap := referenceMap a |}.

Definition with_sequences (f : gmap string Z -> gmap string Z)
    (a : MemoryAdapter) : MemoryAdapter :=
  {| schema := schema a; stores := stores a;
     sequences := f (sequences a); referenceMap := referenceMap a |}.

(** The constructor: one empty store per table of the schema. *)
Definition new_MemoryAdapter (schema : SchemaDef) : MemoryAdapter :=
  {| schema := schema;
     stores := fold_left (fun stores table => <[storeName schema table := []]> stores)
                         (Object_values (tables schema)) ∅;
     sequences := ∅;
     referenceMap := buildReferenceMap schema |}.

Module Memory.

(** [this.stores.get(storeName(this.schema, table))!]: the store, or
    [undefined] for a table the adapter's schema does not hold. *)
Definition getStore (a : MemoryAdapter) (table : TableDef) : option Store :=
  stores a !! storeName (schema a) table.

(** Calling a method on the result of [getStore]: a [TypeError] when it is
    [undefined]. *)
Definition theStore (table : TableDef) : M MemoryAdapter Store :=
  fun a => match getStore a table with
           | Some store => (Ok store, a)
           | None => (Err TypeError, a)
           end.

(** A mutating [Map] method on the store object of [table].  All holders of
    the store see the change, since the adapter maps the name to that one
    object. *)
Definition mutateStore (table : TableDef) (f : Store -> Store)
  : M MemoryAdapter unit :=
  fun a => (Ok tt, with_stores (alter f (storeName (schema a) table)) a).

Definition liftResult {A : Type} (r : Result A) : M MemoryAdapter A :=
  fun a => (r, a).

Definition makeContext : NormalizationContext MemoryAdapter :=
  {| allocateIdentity := fun table _ => fun a =>
       let name := storeName (schema a) table in
       let current := default 0 (sequences a !! name) in
       let next := current + 1 in
       (Ok (VNum next), with_sequences (insert name next) a);
     ensureForeignKey := fun sourceTable sourceColumn targetTable targetColumn value =>
       if is_undefined value || is_null value then ret tt
       else
         store <- theStore targetTable ;;
         if negb (Map_has value store)
         then throw (ForeignKeyViolation (tbl_name sourceTable) (col_name sourceColumn)
                                         (tbl_name targetTable) (col_name targetColumn))
         else ret tt |}.

(** The body of the loop of [insertRows]. *)
Definition insertRow (table : AnyTable) (ctx : NormalizationContext MemoryAdapter)
    (results : list Row) (value : Row) : M MemoryAdapter (list Row) :=
  normalized <- normalizeInsertRow table value ctx ;;
  let normalized := applyComputedFields table normalized in
  pkc <- liftResult (primaryKeyColumn table) ;;
  let pk := col_name pkc in
  let key := get normalized pk in
  store <- theStore table ;;
  if Map_has key store
  then throw (PrimaryKeyViolation (tbl_name table) pk)
  else
    mutateStore table (Map_set key (cloneRow normalized)) ;;;
    ret (results ++ [cloneRow normalized]).

Definition insertRows (table : AnyTable) (values : InsertValues)
  : M MemoryAdapter (list Row) :=
  foldM (insertRow table makeContext) (toList values) [].

Definition selectRows (table : AnyTable) (options : option QueryOptions)
  : M MemoryAdapter (list Row) :=
  store <- theStore table ;;
  ret (applyQueryOptions (map cloneRow (Map_values store)) options).

(** The body of the loop of [updateRows].  The loop walks the entries the
    store has when it starts: an iteration only replaces the value of its own
    key, so the live iterator meets exactly those entries. *)
Definition updateRow (table : AnyTable) (where_ : Row -> bool) (patch : Row)
    (ctx : NormalizationContext MemoryAdapter)
    (updated : Z) (entry : value * Row) : M MemoryAdapter Z :=
  let '(key, row) := entry in
  if negb (where_ row) then ret updated
  else
    nextRow <- normalizeUpdateRow table row patch ctx ;;
    let nextRow := applyComputedFields table nextRow in
    mutateStore table (Map_set key (cloneRow nextRow)) ;;;
    ret (updated + 1).

Definition updateRows (table : AnyTable) (where_ : Row -> bool) (patch : Row)
  : M MemoryAdapter Z :=
  store <- theStore table ;;
  foldM (updateRow table where_ patch makeContext) store 0.

Definition assertRestrictDeleteMemory (dependents : list ForeignReference)
    (key : value) : M MemoryAdapter unit :=
  forEach (fun ref => fun a =>
    match stores a !! storeName (schema a) (ref_table ref) with
    | None => (Ok tt, a)
    | Some store =>
        forEach (fun row =>
                   if strict_eq (get row (col_name (ref_column ref))) key
                   then throw (DeleteRestricted (tbl_name (ref_table ref))
                                                (col_name (ref_column ref)))
                   else ret tt) (Map_values store) a
    end) dependents.

(** The body of the loop of [deleteRows]; an iteration only removes its own
    entry, so the live iterator meets the entries present at the start. *)
Definition deleteRow (table : AnyTable) (where_ : Row -> bool)
    (dependents : list ForeignReference)
    (deleted : Z) (entry : value * Row) : M MemoryAdapter Z :=
  let '(key, row) := entry in
  if negb (where_ row) then ret deleted
  else
    pkc <- liftResult (primaryKeyColumn table) ;;
    assertRestrictDeleteMemory dependents (get row (col_name pkc)) ;;;
    mutateStore table (Map_delete key) ;;;
    ret (deleted + 1).

Definition deleteRows (table : AnyTable) (where_ : Row -> bool)
  : M MemoryAdapter Z :=
  store <- theStore table ;;
  dependents <- (fun a => (Ok (default [] (referenceMap a !! tbl_name table)), a)) ;;
  foldM (deleteRow table where_ dependents) store 0.

(** The four public verbs delegate to the private ones. *)
Definition insert := insertRows.
Definition select := selectRows.
Definition update := updateRows.
Definition delete := deleteRows.

(** [await fn(session)]. *)
Fixpoint runSession {T : Type} (fn : SessionFn T) : M MemoryAdapter T :=
  match fn with
  | Return result => ret result
  | Throw error => throw error
  | TrxInsert table values k =>
      fun a => let '(r, a') := insertRows table values a in runSession (k r) a'
  | TrxSelect table options k =>
      fun a => let '(r, a') := selectRows table options a in runSession (k r) a'
  | TrxUpdate table where_ patch k =>
      fun a => let '(r, a') := updateRows table where_ patch a in runSession (k r) a'
  | TrxDelete table where_ k =>
      fun a => let '(r, a') := deleteRows table where_ a in runSession (k r) a'
  end.

(** [for (const [k, v] of source.entries()) target.set(k, v)].  With an
    empty target this is [new Map(source)]: a copy of the map that shares
    the row objects, which is a faithful snapshot because the adapter replaces
    stored rows and never mutates one in place. *)
Definition setAll {V : Type} (source target : gmap string V) : gmap string V :=
  map_fold (fun k v target => <[k := v]> target) target source.

Definition transaction {T : Type} (tables : list AnyTable) (fn : SessionFn T)
  : M MemoryAdapter T :=
  fun a =>
    let storeSnapshots := setAll (stores a) ∅ in
    let seqSnapshot := setAll (sequences a) ∅ in
    match runSession fn a with
    | (Ok result, a') => (Ok result, a')
    | (Err error, a') =>
        let a' := with_stores (setAll storeSnapshots) a' in
        let a' := with_sequences (fun _ => setAll seqSnapshot ∅) a' in
        (Err error, a')
    end.

End Memory.

(* ===================================================================== *)
(** ** Schema builder ([builders.ts]) *)
(* ===================================================================== *)

Module Builders.

Definition DEFAULT_CONSTRAINTS : ColumnConstraintRuntime :=
  {| notNull := false; primaryKey := false; unique := false;
     identity := false; hasDefault := false |}.

(** The [runtime] record a [ColumnBuilder] wraps; every fluent method
    forks it. *)
Record ColumnBuilder : Type := {
  b_kind : ColumnKind;
  b_constraints : ColumnConstraintRuntime;
  b_defaultValue : value;
  b_defaultFn : option (unit -> value);
  b_onUpdateFn : option (value -> value);
  b_reference : option ReferenceConfig;
}.

Definition scalar (kind : ColumnKind) : ColumnBuilder :=
  {| b_kind := kind; b_constraints := DEFAULT_CONSTRAINTS;
     b_defaultValue := VUndefined; b_defaultFn := None;
     b_onUpdateFn := None; b_reference := None |}.

Definition with_constraints (f : ColumnConstraintRuntime -> ColumnConstraintRuntime)
    (b : ColumnBuilder) : ColumnBuilder :=
  {| b_kind := b_kind b; b_constraints := f (b_constraints b);
     b_defaultValue := b_defaultValue b; b_defaultFn := b_defaultFn b;
     b_onUpdateFn := b_onUpdateFn b; b_reference := b_reference b |}.

Definition ColumnBuilder_notNull : ColumnBuilder -> ColumnBuilder :=
  with_constraints (fun c =>
    {| notNull := true; primaryKey := primaryKey c; unique := unique c;
       identity := identity c; hasDefault := hasDefault c |}).

Definition ColumnBuilder_primaryKey : ColumnBuilder -> ColumnBuilder :=
  with_constraints (fun c =>
    {| notNull := true; primaryKey := true; unique := unique c;
       identity := identity c; hasDefault := hasDefault c |}).

Definition ColumnBuilder_unique : ColumnBuilder -> ColumnBuilder :=
  with_constraints (fun c =>
    {| notNull := notNull c; primaryKey := primaryKey c; unique := true;
       identity := identity c; hasDefault := hasDefault c |}).

Definition ColumnBuilder_identity : ColumnBuilder -> ColumnBuilder :=
  with_constraints (fun c =>
    {| notNull := notNull c; primaryKey := primaryKey c; unique := unique c;
       identity := true; hasDefault := true |}).

Definition mark_hasDefault (c : ColumnConstraintRuntime) : ColumnConstraintRuntime :=
  {| notNull := notNull c; primaryKey := primaryKey c; unique := unique c;
     identity := identity c; hasDefault := true |}.

Definition ColumnBuilder_default (v : value) (b : ColumnBuilder) : ColumnBuilder :=
  {| b_kind := b_kind b; b_constraints := mark_hasDefault (b_constraints b);
     b_defaultValue := v; b_defaultFn := b_defaultFn b;
     b_onUpdateFn := b_onUpdateFn b; b_reference := b_reference b |}.

Definition ColumnBuilder_defaultFn (fn : unit -> value) (b : ColumnBuilder)
  : ColumnBuilder :=
  {| b_kind := b_kind b; b_constraints := mark_hasDefault (b_constraints b);
     b_defaultValue := b_defaultValue b; b_defaultFn := Some fn;
     b_onUpdateFn := b_onUpdateFn b; b_reference := b_reference b |}.

Definition ColumnBuilder_onUpdate (fn : value -> value) (b : ColumnBuilder)
  : ColumnBuilder :=
  {| b_kind := b_kind b; b_constraints := b_constraints b;
     b_defaultValue := b_defaultValue b; b_defaultFn := b_defaultFn b;
     b_onUpdateFn := Some fn; b_reference := b_reference b |}.

(** [references(resolver, opts)]: [onDelete] defaults to restrict. *)
Definition ColumnBuilder_references (resolver : unit -> option ResolvedColumn)
    (onDelete : option DeleteRule) (b : ColumnBuilder) : ColumnBuilder :=
  {| b_kind := b_kind b; b_constraints := b_constraints b;
     b_defaultValue := b_defaultValue b; b_defaultFn := b_defaultFn b;
     b_onUpdateFn := b_onUpdateFn b;
     b_reference := Some {| resolver := resolver;
                            ref_onDelete := default Restrict onDelete |} |}.

Definition build (b : ColumnBuilder) (columnName : string) : ColumnDef :=
  {| kind := b_kind b; col_name := columnName; constraints := b_constraints b;
     defaultValue := b_defaultValue b; defaultFn := b_defaultFn b;
     onUpdateFn := b_onUpdateFn b; reference := b_reference b;
     foreignKey := None |}.

(** [table(name, columns, indexesFactory)]. *)
Definition table (name : string) (columns : list (string * ColumnBuilder))
    (indexesFactory : option (list (string * ColumnDef) -> list IndexDef))
  : Result TableDef :=
  let builtColumns :=
    map (fun '(columnName, builder) => (columnName, build builder columnName)) columns in
  let tableDef :=
    {| tbl_name := name; columns := builtColumns;
       indexes := match indexesFactory with
                  | Some f => f builtColumns
                  | None => []
                  end |} in
  if negb (existsb (fun col => primaryKey (constraints col)) (Object_values builtColumns))
  then Err (MustDeclarePrimaryKey name)
  else Ok tableDef.

(** The column a thunk [() => tbl.col] resolves to, for a table built by
    [table()], which stamps [tableName] on each of its columns. *)
Definition columnOf (tbl : TableDef) (alias : string) : unit -> option ResolvedColumn :=
  fun _ => match prop alias (columns tbl) with
           | Some col => Some {| target_tableName := Some (tbl_name tbl);
                                 target_name := col_name col |}
           | None => None
           end.

Definition resolveColumn (table : TableDef) (column : ColumnDef) : Result ColumnDef :=
  match reference column, foreignKey column with
  | Some ref, None =>
      match resolver ref tt with
      | Some {| target_tableName := Some tn; target_name := cn |} =>
          if bool_decide (tn = "")
          then Err (UnableToResolveForeignKey (tbl_name table) (col_name column))
          else
          Ok {| kind := kind column; col_name := col_name column;
                constraints := constraints column;
                defaultValue := defaultValue column; defaultFn := defaultFn column;
                onUpdateFn := onUpdateFn column; reference := reference column;
                foreignKey := Some {| tableName := tn; columnName := cn;
                                      onDelete := ref_onDelete ref |} |}
      | _ => Err (UnableToResolveForeignKey (tbl_name table) (col_name column))
      end
  | _, _ => Ok column
  end.

Fixpoint mapResult {A B : Type} (f : A -> Result B) (xs : list A) : Result (list B) :=
  match xs with
  | [] => Ok []
  | x :: rest =>
      match f x with
      | Err e => Err e
      | Ok y => match mapResult f rest with
                | Err e => Err e
                | Ok ys => Ok (y :: ys)
                end
      end
  end.

(** [resolveForeignKeys]: fills in [foreignKey] on every column bearing an
    unresolved reference, table by table, column by column. *)
Definition resolveForeignKeys (tables : list (string * TableDef))
  : Result (list (string * TableDef)) :=
  mapResult (fun '(alias, table) =>
    match mapResult (fun '(key, column) =>
                       match resolveColumn table column with
                       | Ok column' => Ok (key, column')
                       | Err e => Err e
                       end) (columns table) with
    | Ok columns' =>
        Ok (alias, {| tbl_name := tbl_name table; columns := columns';
                      indexes := indexes table |})
    | Err e => Err e
    end) tables.

Record SchemaOptions : Type := {
  opt_name : string;
  opt_version : option Z;
  opt_namespace : option string;
}.

(** [schema(options, tables)]. *)
Definition schema (options : SchemaOptions) (tables : list (string * TableDef))
  : Result SchemaDef :=
  let namespace := default (opt_name options) (opt_namespace options) in
  let version := default 1 (opt_version options) in
  match resolveForeignKeys tables with
  | Err e => Err e
  | Ok tables =>
      Ok {| schema_name := opt_name options; version := version;
            namespace := namespace; tables := tables |}
  end.

(** The table object the caller holds under [alias] once [schema()] has
    returned: its foreign keys are resolved and its [schema] is set. *)
Definition tableOf (s : SchemaDef) (alias : string) : option AnyTable :=
  match prop alias (tables s) with
  | Some t => Some {| def := t; tbl_schema := Some s |}
  | None => None
  end.

End Builders.

(* ===================================================================== *)
(** ** Persistent backend ([IDBAdapter]): transaction entry *)
(* ===================================================================== *)

Definition SEQ_STORE : string := "__seq".

(** [Set.prototype.add] on an insertion-ordered set of names. *)
Definition Set_add (x : string) (s : list string) : list string :=
  if bool_decide (x ∈ s) then s else s ++ [x].

Definition referencedStoreNames (schema : SchemaDef) (table : TableDef) : list string :=
  fold_left (fun names column =>
               match foreignKey column with
               | None => names
               | Some fk =>
                   match prop (tableName fk) (tables schema) with
                   | Some target => Set_add (storeName schema target) names
                   | None => names
                   end
               end) (Object_values (columns table)) [].

Module IDB.
Section Engine.

(** The store engine is the browser's: its database state, its transaction
  handles, how a transaction runs a piece of work and what the four verbs
  do inside one are taken as given. *)
Context {Db Tx : Type}.

Inductive IDBTransactionMode : Type := readonly | readwrite.

Record IDBAdapter : Type := {
schema : SchemaDef;
referenceMap : gmap string (list ForeignReference);
}.

Context (runTransaction :
         forall T : Type, list string -> IDBTransactionMode -> (Tx -> M Db T) -> M Db T).
Context (insertWithinTransaction :
         Tx -> AnyTable -> InsertValues -> M Db (list Row)).
Context (selectWithinTransaction :
         Tx -> AnyTable -> option QueryOptions -> M Db (list Row)).
Context (updateWithinTransaction :
         Tx -> AnyTable -> (Row -> bool) -> Row -> M Db Z).
Context (deleteWithinTransaction :
         Tx -> AnyTable -> (Row -> bool) -> M Db Z).
(** [request(store.get(name))] and [request(store.put({table, value}))] on
  the sequence store of a transaction. *)
Context (seqGet : Tx -> string -> M Db (option Z)).
Context (seqPut : Tx -> string -> Z -> M Db unit).

(** [makeContext(tx).allocateIdentity]. *)
Definition allocateIdentity (this : IDBAdapter) (tx : Tx) (table : TableDef)
: M Db value :=
let name := storeName (schema this) table in
current <- seqGet tx name ;;
let next := default 0 current + 1 in
seqPut tx name next ;;;
ret (VNum next).

Definition collectTransactionStores (this : IDBAdapter) (tables : list AnyTable)
: list string :=
fold_left (fun stores (table : AnyTable) =>
  let stores := Set_add (storeName (schema this) table) stores in
  let stores := fold_left (fun stores ref => Set_add ref stores)
                          (referencedStoreNames (schema this) table) stores in
  let dependents := default [] (referenceMap this !! tbl_name table) in
  fold_left (fun stores dep => Set_add (storeName (schema this) (ref_table dep)) stores)
            dependents stores)
  tables [SEQ_STORE].

Definition assertAllowed (allowed : list string) (table : AnyTable) : M Db unit :=
if bool_decide (tbl_name table ∈ allowed) then ret tt
else throw (UndeclaredTable (tbl_name table)).

(** [fn(session)] for the session of [createTransactionSession(tx, allowed)]:
  each verb checks the table against the declared ones, then runs inside
  the engine transaction. *)
Fixpoint runSession {T : Type} (tx : Tx) (allowed : list string) (fn : SessionFn T)
: M Db T :=
match fn with
| Return result => ret result
| Throw error => throw error
| TrxInsert table values k =>
    fun s => let '(r, s') := (assertAllowed allowed table ;;;
                              insertWithinTransaction tx table values) s in
             runSession tx allowed (k r) s'
| TrxSelect table options k =>
    fun s => let '(r, s') := (assertAllowed allowed table ;;;
                              selectWithinTransaction tx table options) s in
             runSession tx allowed (k r) s'
| TrxUpdate table where_ patch k =>
    fun s => let '(r, s') := (assertAllowed allowed table ;;;
                              updateWithinTransaction tx table where_ patch) s in
             runSession tx allowed (k r) s'
| TrxDelete table where_ k =>
    fun s => let '(r, s') := (assertAllowed allowed table ;;;
                              deleteWithinTransaction tx table where_) s in
             runSession tx allowed (k r) s'
end.

Definition transaction {T : Type} (this : IDBAdapter) (tables : list AnyTable)
  (fn : SessionFn T) : M Db T :=
if bool_decide (length tables = 0%nat)
then throw EmptyTransaction
else
  let storeNames := collectTransactionStores this tables in
  let allowed := map (fun t : AnyTable => tbl_name t) tables in
  runTransaction T storeNames readwrite (fun tx => runSession tx allowed fn).

End Engine.
End IDB.

(* ===================================================================== *)
(** ** Relations between the states before and after a method *)
(* ===================================================================== *)

(** A method preserves a relation when every run, returning or throwing,
    takes a state to a related one. *)
Definition preserves {St A : Type} (R : relation St) (m : M St A) : Prop :=
  forall s r s', m s = (r, s') -> R s s'.

(** The adapter's read-only fields stay put and no store appears or
    disappears. *)
Definition same_shape (a a' : MemoryAdapter) : Prop :=
  schema a' = schema a /\ referenceMap a' = referenceMap a /\
  dom (stores a') = dom (stores a).

(** The value [this.sequences.get(name) ?? 0] of a counter. *)
Definition counter (a : MemoryAdapter) (name : string) : Z :=
  default 0 (sequences a !! name).

Definition counters_grow (a a' : MemoryAdapter) : Prop :=
  forall name, counter a name <= counter a' name.

Definition same_sequences (a a' : MemoryAdapter) : Prop :=
  sequences a' = sequences a.

Definition same_stores (a a' : MemoryAdapter) : Prop :=
  stores a' = stores a /\ schema a' = schema a /\ referenceMap a' = referenceMap a.

(** The relations every method of the adapter preserves: the ones that
    tolerate both a store mutation and a counter increment. *)
Class Tolerant (R : relation MemoryAdapter) : Prop := {
  tolerant_preorder :: PreOrder R;
  tolerant_allocate :
    forall t c, preserves R (allocateIdentity Memory.makeContext t c);
  tolerant_mutate : forall t f, preserves R (Memory.mutateStore t f);
}.

(* ===================================================================== *)
(** ** Schemas and rows of the end-to-end scenarios *)
(* ===================================================================== *)

Module Scenario.
Import Builders.

Definition row (fields : list (string * value)) : Row := list_to_map fields.

Definition orElse {A : Type} (r : Result A) (d : A) : A :=
  match r with Ok a => a | Err _ => d end.

Definition noTable : TableDef := {| tbl_name := ""; columns := []; indexes := [] |}.
Definition noSchema : SchemaDef :=
  {| schema_name := ""; version := 0; namespace := ""; tables := [] |}.

Definition id_column : ColumnBuilder :=
  ColumnBuilder_identity (ColumnBuilder_primaryKey (scalar KInt)).

(** [users(id int pk identity, name string not-null)]. *)
Definition users_table : TableDef :=
  orElse (table "users"
            [("id", id_column);
             ("name", ColumnBuilder_notNull (scalar KVarchar))] None) noTable.

(** [todos(id pk identity, title nn, ownerId ref(users.id) nn)]. *)
Definition todos_table : TableDef :=
  orElse (table "todos"
            [("id", id_column);
             ("title", ColumnBuilder_notNull (scalar KVarchar));
             ("ownerId", ColumnBuilder_notNull
                           (ColumnBuilder_references (columnOf users_table "id") None
                                                     (scalar KInt)))] None) noTable.

Definition appSchema : SchemaDef :=
  orElse (schema {| opt_name := "app"; opt_version := None; opt_namespace := None |}
                 [("users", users_table); ("todos", todos_table)]) noSchema.

Definition tableAt (s : SchemaDef) (alias : string) : AnyTable :=
  default {| def := noTable; tbl_schema := None |} (tableOf s alias).

Definition users : AnyTable := tableAt appSchema "users".
Definition todos : AnyTable := tableAt appSchema "todos".

(** The same two tables, registered under the aliases [people] and
    [tasks]: [schema({ name: 'app' }, { people: users, tasks: todos })]. *)
Definition aliasedSchema : SchemaDef :=
  orElse (schema {| opt_name := "app"; opt_version := None; opt_namespace := None |}
                 [("people", users_table); ("tasks", todos_table)]) noSchema.

Definition people : AnyTable := tableAt aliasedSchema "people".
Definition tasks : AnyTable := tableAt aliasedSchema "tasks".

(** A table with an [updatedAt] column carrying
    [$defaultFn(() => 100)] and [$onUpdate(prev => prev + 1)]. *)
Definition increment (prev : value) : value :=
  match prev with
  | VNum n => VNum (n + 1)
  | _ => VUndefined
  end.

Definition notes_table : TableDef :=
  orElse (table "notes"
            [("id", id_column);
             ("name", scalar KVarchar);
             ("updatedAt", ColumnBuilder_onUpdate increment
                             (ColumnBuilder_defaultFn (fun _ => VNum 100)
                                                      (scalar KTimestamp)))] None) noTable.

Definition notesSchema : SchemaDef :=
  orElse (schema {| opt_name := "notes"; opt_version := None; opt_namespace := None |}
                 [("notes", notes_table)]) noSchema.

Definition notes : AnyTable := tableAt notesSchema "notes".

(** A table declaring two primary-key columns. *)
Definition pair_columns : list (string * ColumnBuilder) :=
  [("a", ColumnBuilder_primaryKey (scalar KInt));
   ("b", ColumnBuilder_primaryKey (scalar KInt))].

(** The five rows [{id: 1..5, v: id % 3}] and the query of scenario 6. *)
Definition item (id : Z) : Row := row [("id", VNum id); ("v", VNum (id mod 3))].
Definition items : list Row := map item [1; 2; 3; 4; 5].

Definition pageQuery : QueryOptions :=
  {| where_ := Some (fun r => strict_eq (get r "v") (VNum 1));
     orderBy := Some (ByColumn "id");
     order := Some Desc;
     limit := Some 1;
     offset := Some 1 |}.

Definition pkEquals (c : string) (n : Z) : Row -> bool :=
  fun r => strict_eq (get r c) (VNum n).

End Scenario.

(** States the scenarios start from. *)
Module Fixture.
Import Scenario.

Definition afterM {A : Type} (m : M MemoryAdapter A) (a : MemoryAdapter) : MemoryAdapter :=
  snd (m a).

Definition fresh : MemoryAdapter := new_MemoryAdapter appSchema.

(** One user [{id: 1, name: 'x'}]. *)
Definition oneUser : MemoryAdapter :=
  afterM (Memory.insert users (One (row [("name", VStr "x")]))) fresh.

(** One user and one todo owned by that user. *)
Definition userWithTodo : MemoryAdapter :=
  afterM (Memory.insert todos (One (row [("title", VStr "t"); ("ownerId", VNum 1)])))
         oneUser.

Definition note : Row :=
  row [("id", VNum 1); ("name", VStr "n"); ("updatedAt", VNum 100)].

Definition updatedAt_column : ColumnDef :=
  default (Builders.build (Builders.scalar KTimestamp) "")
          (prop "updatedAt" (columns notes)).

Definition ownerId_column : ColumnDef :=
  default (Builders.build (Builders.scalar KInt) "")
          (prop "ownerId" (columns todos)).

Definition id_of (t : TableDef) : ColumnDef :=
  default (Builders.build (Builders.scalar KInt) "") (prop "id" (columns t)).
End Fixture.

(** The comparator of [applyQueryOptions] on rows whose keys are numbers. *)
Definition numeric_compare {A : Type} (key : A -> Z) (a b : A) : Z :=
  compare_keys (VNum (key a)) (VNum (key b)).

(** The number an order key stands for, when the selector yields numbers. *)
Definition numericKey (selector : Row -> value) (r : Row) : Z :=
  match selector r with
  | VNum n => n
  | _ => 0
  end.

(* ===================================================================== *)
(** ** Vocabulary of the statements about delete *)
(* ===================================================================== *)

(** Some row of the dependent store of [ref] holds [key] in the referencing
    column. *)
Definition blocked (a : MemoryAdapter) (key : value) (ref : ForeignReference) : Prop :=
  exists store row,
    stores a !! storeName (schema a) (ref_table ref) = Some store /\
    row ∈ Map_values store /\
    get row (col_name (ref_column ref)) = key.

(** The same as a test, and the first dependent reference that passes it. *)
Definition blocks (a : MemoryAdapter) (key : value) (ref : ForeignReference) : bool :=
  match stores a !! storeName (schema a) (ref_table ref) with
  | None => false
  | Some store =>
      existsb (fun row => strict_eq (get row (col_name (ref_column ref))) key)
              (Map_values store)
  end.

Definition blocker (a : MemoryAdapter) (dependents : list ForeignReference)
    (key : value) : option ForeignReference :=
  find (blocks a key) dependents.

(** The adapter with the [Map] of one store replaced. *)
Definition set_store (name : string) (store : Store) (a : MemoryAdapter) : MemoryAdapter :=
  with_stores (insert name store) a.

(* ===================================================================== *)
(** ** Sequences of client calls *)
(* ===================================================================== *)

(** A call of one of the four single-operation verbs of the client.  The
    caller may catch a rejection and go on, so a sequence of calls is run
    whatever each of them answers. *)
Inductive ClientCall : Type :=
| CallInsert (table : AnyTable) (values : InsertValues)
| CallSelect (table : AnyTable) (options : option QueryOptions)
| CallUpdate (table : AnyTable) (where_ : Row -> bool) (patch : Row)
| CallDelete (table : AnyTable) (where_ : Row -> bool).

Definition call (c : ClientCall) (a : MemoryAdapter) : MemoryAdapter :=
  match c with
  | CallInsert table values => snd (Memory.insert table values a)
  | CallSelect table options => snd (Memory.select table options a)
  | CallUpdate table where_ patch => snd (Memory.update table where_ patch a)
  | CallDelete table where_ => snd (Memory.delete table where_ a)
  end.

Definition calls (cs : list ClientCall) (a : MemoryAdapter) : MemoryAdapter :=
  fold_left (fun a c => call c a) cs a.

(** No computed index writes its key into the field [c]. *)
Definition not_computed (table : TableDef) (c : string) : Prop :=
  forall idx cfg, idx ∈ indexes table -> computed idx = Some cfg -> field cfg <> c.

Module Rollback.
Import Scenario.

(** A session function that inserts the user [{name: 'x'}] and throws,
    reporting in its error whether the row it got back has identity 1. *)
Definition insertThenThrow : SessionFn unit :=
  TrxInsert users (One (row [("name", VStr "x")]))
    (fun r =>
       match r with
       | Ok rows =>
           if bool_decide (rows = [row [("id", VNum 1); ("name", VStr "x")]])
           then Throw (UserError "inserted with id 1")
           else Throw (UserError "inserted with another id")
       | Err e => Throw e
       end).

End Rollback.

(* ===================================================================== *)
(** ** Vocabulary of the statements about insert and update *)
(* ===================================================================== *)

(** What an unset column without identity falls back to on insert: the
    default producer's value if there is one, else the literal default
    ([undefined] when none was declared). *)
Definition insertDefault (column : ColumnDef) : value :=
  match defaultFn column with
  | Some f => f tt
  | None => defaultValue column
  end.

(** Every entry of the store sits under the value its row holds in the
    column [pk]. *)
Definition keyed_by (pk : string) (store : Store) : Prop :=
  forall k row, (k, row) ∈ store -> get row pk = k.

(** Query options that only filter. *)
Definition whereOnly (p : Row -> bool) : QueryOptions :=
  {| where_ := Some p; orderBy := None; order := None; limit := None; offset := None |}.

(* ===================================================================== *)
(** ** Vocabulary of the statements about the schema and the query options *)
(* ===================================================================== *)

(** The columns of [table] whose foreign key targets the table named [name],
    as references, in declaration order. *)
Definition referencesFrom (table : TableDef) (name : string) : list ForeignReference :=
  flat_map (fun column =>
              match foreignKey column with
              | Some fk =>
                  if bool_decide (tableName fk = name)
                  then [{| ref_table := table; ref_column := column |}]
                  else []
              | None => []
              end) (Object_values (columns table)).

(** The same over all tables of a schema, in schema order. *)
Definition referencesTo (schema : SchemaDef) (name : string) : list ForeignReference :=
  flat_map (fun table => referencesFrom table name) (Object_values (tables schema)).

(** The rows [applyQueryOptions] pages through: filtered, then ordered. *)
Definition orderedRows (rows : list Row) (options : QueryOptions) : list Row :=
  let filtered :=
    match where_ options with
    | Some p => filter (fun row => p row = true) rows
    | None => rows
    end in
  match orderBy_selector (orderBy options) with
  | Some selector =>
      let sorted :=
        Array_sort (fun a b => compare_keys (selector a) (selector b)) filtered in
      match order options with
      | Some Desc => reverse sorted
      | _ => sorted
      end
  | None => filtered
  end.

(** The options of a query with its page replaced. *)
Definition page (options : QueryOptions) (off lim : Z) : QueryOptions :=
  {| where_ := where_ options; orderBy := orderBy options; order := order options;
     limit := Some lim; offset := Some off |}.

(* ===================================================================== *)
(** ** predicates.ts *)
(* ===================================================================== *)

(** [a < b], on the pairs [gt] and [lt] are typed for: two numbers by
    magnitude, two strings lexicographically by code unit. *)
Definition js_lt (a b : value) : bool :=
  match a, b with
  | VNum x, VNum y => Z.ltb x y
  | VStr x, VStr y => string_ltb x y
  | _, _ => false
  end.

(** [T extends number | string]: the two operands of [gt] and [lt] are of
    one of these kinds. *)
Definition ordered_pair (a b : value) : Prop :=
  match a, b with
  | VNum _, VNum _ => True
  | VStr _, VStr _ => True
  | _, _ => False
  end.

Module Predicates.

Definition eq (selector : Row -> value) (v : value) : Row -> bool :=
  fun row => strict_eq (selector row) v.

Definition neq (selector : Row -> value) (v : value) : Row -> bool :=
  fun row => negb (strict_eq (selector row) v).

Definition gt (selector : Row -> value) (v : value) : Row -> bool :=
  fun row => js_gt (selector row) v.

Definition lt (selector : Row -> value) (v : value) : Row -> bool :=
  fun row => js_lt (selector row) v.

(** [predicates.every((p) => p(row))] *)
Definition and (predicates : list (Row -> bool)) : Row -> bool :=
  fun row => forallb (fun p => p row) predicates.

(** [predicates.some((p) => p(row))] *)
Definition or (predicates : list (Row -> bool)) : Row -> bool :=
  fun row => existsb (fun p => p row) predicates.

End Predicates.

(* ===================================================================== *)
(** ** The object [table()] returns *)
(* ===================================================================== *)

(** [table()] returns the table definition object itself, after assigning
    every built column to it under the column's key.  The object is kept
    here as the map of its properties. *)
Inductive ShapeProperty : Type :=
| PKind
| PName (name : string)
| PColumns (columns : list (string * ColumnDef))
| PIndexes (indexes : list IndexDef)
| PColumn (column : ColumnDef).

Definition tableShape (name : string)
    (columns : list (string * Builders.ColumnBuilder))
    (indexesFactory : option (list (string * ColumnDef) -> list IndexDef))
  : Result (gmap string ShapeProperty) :=
  let builtColumns :=
    map (fun '(columnName, builder) =>
           (columnName, Builders.build builder columnName)) columns in
  let tableDef : gmap string ShapeProperty :=
    <["indexes" := PIndexes match indexesFactory with
                            | Some f => f builtColumns
                            | None => []
                            end]>
      (<["columns" := PColumns builtColumns]>
         (<["name" := PName name]> {["kind" := PKind]})) in
  if negb (existsb (fun col => primaryKey (constraints col)) (Object_values builtColumns))
  then Err (MustDeclarePrimaryKey name)
  else Ok (fold_left (fun shape '(key, column) => <[key := PColumn column]> shape)
                     builtColumns tableDef).

(** What the runtime reads off a table object: [table.name],
    [table.columns] and [table.indexes]. *)
Definition asTableDef (shape : gmap string ShapeProperty) : option TableDef :=
  match shape !! "name", shape !! "columns", shape !! "indexes" with
  | Some (PName name), Some (PColumns cols), Some (PIndexes idxs) =>
      Some {| tbl_name := name; columns := cols; indexes := idxs |}
  | _, _, _ => None
  end.

(** The property names of the table object that the runtime reads. *)
Definition tableProperties : list string := ["name"; "columns"; "indexes"].

(** A column with its foreign-key metadata replaced. *)
Definition with_foreignKey (fk : option ForeignKeyMeta) (column : ColumnDef) : ColumnDef :=
  {| kind := kind column; col_name := col_name column;
     constraints := constraints column;
     defaultValue := defaultValue column; defaultFn := defaultFn column;
     onUpdateFn := onUpdateFn column; reference := reference column;
     foreignKey := fk |}.

(** A column [resolveForeignKeys] throws on: it bears a reference, no
    foreign key yet, and its resolver yields no column or one without a
    table name. *)
Definition unresolvable (column : ColumnDef) : Prop :=
  foreignKey column = None /\
  exists ref, reference column = Some ref /\
    match resolver ref tt with
    | Some target =>
        target_tableName target = None \/ target_tableName target = Some ""
    | None => True
    end.

(** A table with its list of indexes replaced. *)
Definition with_indexes (idxs : list IndexDef) (table : TableDef) : TableDef :=
  {| tbl_name := tbl_name table; columns := columns table; indexes := idxs |}.

(* ===================================================================== *)
(** * Properties *)
(* ===================================================================== *)

(** ** The monad and its loops *)

Lemma foldM_cons {St A B : Type} (body : B -> A -> M St B) x xs acc (s : St) :
  foldM body (x :: xs) acc s =
    match body acc x s with
    | (Ok acc', s') => foldM body xs acc' s'
    | (Err e, s') => (Err e, s')
    end.
Proof. reflexivity. Qed.

Lemma foldM_app {St A B : Type} (body : B -> A -> M St B) xs ys acc (s : St) :
  foldM body (xs ++ ys) acc s =
    match foldM body xs acc s with
    | (Ok acc', s') => foldM body ys acc' s'
    | (Err e, s') => (Err e, s')
    end.
Proof.
  revert acc s. induction xs as [|x xs IH]; intros acc s; [done|].
  rewrite <- app_comm_cons, !foldM_cons.
  destruct (body acc x s) as [[acc'|e] s']; [apply IH|done].
Qed.

Section Preserves.
Context {St : Type} (R : relation St) `{!PreOrder R}.

Lemma preserves_ret {A : Type} (x : A) : preserves R (ret x).
Proof. intros s r s' [= _ <-]. reflexivity. Qed.

Lemma preserves_throw {A : Type} (e : Error) : preserves R (@throw St A e).
Proof. intros s r s' [= _ <-]. reflexivity. Qed.

Lemma preserves_bind {A B : Type} (m : M St A) (k : A -> M St B) :
  preserves R m -> (forall x, preserves R (k x)) -> preserves R (bind m k).
Proof.
  intros Hm Hk s r s'. unfold bind.
  destruct (m s) as [[x|e] s1] eqn:E; intros H.
  - transitivity s1; [eapply Hm | eapply Hk]; eauto.
  - injection H as _ <-. eapply Hm; eauto.
Qed.

Lemma preserves_foldM {A B : Type} (body : B -> A -> M St B) (xs : list A) :
  (forall acc x, preserves R (body acc x)) ->
  forall acc, preserves R (foldM body xs acc).
Proof.
  intros Hbody. induction xs as [|x xs IH]; intros acc; simpl.
  - apply preserves_ret.
  - apply preserves_bind; auto.
Qed.

Lemma preserves_forEach {A : Type} (body : A -> M St unit) (xs : list A) :
  (forall x, preserves R (body x)) -> preserves R (forEach body xs).
Proof.
  intros Hbody. induction xs as [|x xs IH]; simpl.
  - apply preserves_ret.
  - apply preserves_bind; auto.
Qed.

(** The pipeline preserves whatever the backend's two hooks preserve. *)
Lemma preserves_ensureForeignKeys (table : AnyTable) (row : Row)
    (ctx : NormalizationContext St) :
  (forall st sc tt tc v, preserves R (ensureForeignKey ctx st sc tt tc v)) ->
  preserves R (ensureForeignKeys table row ctx).
Proof.
  intros Hfk. unfold ensureForeignKeys.
  destruct (tbl_schema table); [|apply preserves_ret].
  apply preserves_forEach. intros column. unfold ensureForeignKeyOf.
  repeat case_match; auto using preserves_ret.
Qed.

Lemma preserves_normalizeInsertRow (table : AnyTable) (input : Row)
    (ctx : NormalizationContext St) :
  (forall t c, preserves R (allocateIdentity ctx t c)) ->
  (forall st sc tt tc v, preserves R (ensureForeignKey ctx st sc tt tc v)) ->
  preserves R (normalizeInsertRow table input ctx).
Proof.
  intros Hid Hfk. unfold normalizeInsertRow.
  apply preserves_bind.
  - apply preserves_foldM. intros acc column. unfold normalizeInsertColumn.
    apply preserves_bind.
    + repeat case_match; auto using preserves_ret.
    + intros v. case_match; auto using preserves_ret, preserves_throw.
  - intros row. apply preserves_bind; [|intros; apply preserves_ret].
    apply preserves_ensureForeignKeys; auto.
Qed.

(** An update never reaches [allocateIdentity]. *)
Lemma preserves_normalizeUpdateRow (table : AnyTable) (existing patch : Row)
    (ctx : NormalizationContext St) :
  (forall st sc tt tc v, preserves R (ensureForeignKey ctx st sc tt tc v)) ->
  preserves R (normalizeUpdateRow table existing patch ctx).
Proof.
  intros Hfk. unfold normalizeUpdateRow.
  apply preserves_bind.
  - apply preserves_foldM. intros acc column. unfold normalizeUpdateColumn.
    repeat case_match; auto using preserves_ret, preserves_throw.
  - intros row. apply preserves_bind; [|intros; apply preserves_ret].
    apply preserves_ensureForeignKeys; auto.
Qed.

End Preserves.

Lemma preserves_eq_any {St A : Type} (R : relation St) `{!Reflexive R} (m : M St A) :
  preserves eq m -> preserves R m.
Proof. intros H s r s' E. rewrite <- (H _ _ _ E). reflexivity. Qed.

(** ** The memory backend: what each method leaves alone *)

#[global] Instance same_shape_preorder : PreOrder same_shape.
Proof.
  split.
  - intros a. repeat split.
  - intros a b c (?&?&?) (?&?&?). repeat split; congruence.
Qed.

#[global] Instance counters_grow_preorder : PreOrder counters_grow.
Proof.
  split.
  - intros a name. lia.
  - intros a b c H1 H2 name. specialize (H1 name). specialize (H2 name). lia.
Qed.

#[global] Instance same_sequences_preorder : PreOrder same_sequences.
Proof.
  split.
  - intros a. reflexivity.
  - intros a b c H1 H2. unfold same_sequences in *. congruence.
Qed.

#[global] Instance same_stores_preorder : PreOrder same_stores.
Proof.
  split.
  - intros a. repeat split.
  - intros a b c (?&?&?) (?&?&?). repeat split; congruence.
Qed.

Section MemoryFrames.
Import Memory.

Lemma theStore_readonly (table : TableDef) : preserves eq (theStore table).
Proof.
  intros a r a'. unfold theStore. destruct (getStore a table); intros [= _ <-]; reflexivity.
Qed.

Lemma liftResult_readonly {A : Type} (r : Result A) : preserves eq (liftResult r).
Proof. intros a r' a' [= _ <-]. reflexivity. Qed.

Lemma ensureForeignKey_readonly st sc tt tc v :
  preserves eq (ensureForeignKey makeContext st sc tt tc v).
Proof.
  simpl. case_match; [apply preserves_ret; apply _|].
  apply preserves_bind; [apply _ | apply theStore_readonly |].
  intros store. case_match; [apply preserves_throw | apply preserves_ret]; apply _.
Qed.

Lemma assertRestrictDeleteMemory_readonly dependents key :
  preserves eq (assertRestrictDeleteMemory dependents key).
Proof.
  unfold assertRestrictDeleteMemory. apply preserves_forEach; [apply _|].
  intros ref a r a'.
  destruct (stores a !! _) as [store|]; [|intros [= _ <-]; reflexivity].
  apply preserves_forEach; [apply _|].
  intros row. case_match; [apply preserves_throw | apply preserves_ret]; apply _.
Qed.

Lemma allocateIdentity_shape t c : preserves same_shape (allocateIdentity makeContext t c).
Proof. intros a r a' [= _ <-]. repeat split. Qed.

Lemma allocateIdentity_stores t c : preserves same_stores (allocateIdentity makeContext t c).
Proof. intros a r a' [= _ <-]. repeat split. Qed.

Lemma allocateIdentity_grow t c : preserves counters_grow (allocateIdentity makeContext t c).
Proof.
  intros a r a' [= _ <-] name. unfold counter. simpl.
  destruct (decide (storeName (schema a) t = name)) as [->|Hne].
  - rewrite lookup_insert_eq. simpl. lia.
  - rewrite lookup_insert_ne by done. lia.
Qed.

Lemma mutateStore_shape t f : preserves same_shape (mutateStore t f).
Proof.
  intros a r a' [= _ <-]. repeat split. simpl.
  apply set_eq. intros name. rewrite !elem_of_dom, lookup_alter.
  case_decide; subst; [|done]. rewrite <- !not_eq_None_Some.
  destruct (stores a !! storeName (schema a) t); simpl; split; congruence.
Qed.

Lemma mutateStore_sequences t f : preserves same_sequences (mutateStore t f).
Proof. intros a r a' [= _ <-]. reflexivity. Qed.

Lemma mutateStore_grow t f : preserves counters_grow (mutateStore t f).
Proof. intros a r a' [= _ <-] name. unfold counter. simpl. lia. Qed.

Section AnyTolerant.
Context (R : relation MemoryAdapter) `{!Tolerant R}.

Lemma insertRow_preserves table results value :
  preserves R (insertRow table makeContext results value).
Proof.
  unfold insertRow. apply preserves_bind; [apply _| |].
  - apply preserves_normalizeInsertRow; [apply _ | apply tolerant_allocate |].
    intros. apply preserves_eq_any; [apply _ | apply ensureForeignKey_readonly].
  - intros normalized. apply preserves_bind; [apply _| |].
    { apply preserves_eq_any; [apply _ | apply liftResult_readonly]. }
    intros pkc. apply preserves_bind; [apply _| |].
    { apply preserves_eq_any; [apply _ | apply theStore_readonly]. }
    intros store. case_match; [apply preserves_throw; apply _|].
    apply preserves_bind; [apply _ | apply tolerant_mutate |].
    intros. apply preserves_ret; apply _.
Qed.

Lemma insertRows_preserves table values : preserves R (insertRows table values).
Proof. apply preserves_foldM; [apply _|]. intros. apply insertRow_preserves. Qed.

Lemma selectRows_readonly table options : preserves eq (selectRows table options).
Proof.
  unfold selectRows. apply preserves_bind; [apply _ | apply theStore_readonly |].
  intros. apply preserves_ret; apply _.
Qed.

Lemma selectRows_preserves table options : preserves R (selectRows table options).
Proof. apply preserves_eq_any; [apply _ | apply selectRows_readonly]. Qed.

End AnyTolerant.

(** Relations that tolerate a store mutation: enough for update and delete,
    which never allocate. *)
Section AnyMutable.
Context (R : relation MemoryAdapter) `{!PreOrder R}.
Context (Hmutate : forall t f, preserves R (mutateStore t f)).

Lemma updateRows_preserves table where_ patch :
  preserves R (updateRows table where_ patch).
Proof.
  unfold updateRows. apply preserves_bind; [apply _| |].
  { apply preserves_eq_any; [apply _ | apply theStore_readonly]. }
  intros store. apply preserves_foldM; [apply _|].
  intros updated [key row]. unfold updateRow.
  case_match; [apply preserves_ret; apply _|].
  apply preserves_bind; [apply _| |].
  - apply preserves_normalizeUpdateRow; [apply _|].
    intros. apply preserves_eq_any; [apply _ | apply ensureForeignKey_readonly].
  - intros nextRow. apply preserves_bind; [apply _ | apply Hmutate |].
    intros. apply preserves_ret; apply _.
Qed.

Lemma deleteRows_preserves table where_ :
  preserves R (deleteRows table where_).
Proof.
  unfold deleteRows. apply preserves_bind; [apply _| |].
  { apply preserves_eq_any; [apply _ | apply theStore_readonly]. }
  intros store. apply preserves_bind; [apply _| |].
  { intros a r a' [= _ <-]. reflexivity. }
  intros dependents. apply preserves_foldM; [apply _|].
  intros deleted [key row]. unfold deleteRow.
  case_match; [apply preserves_ret; apply _|].
  apply preserves_bind; [apply _| |].
  { apply preserves_eq_any; [apply _ | apply liftResult_readonly]. }
  intros pkc. apply preserves_bind; [apply _| |].
  { apply preserves_eq_any; [apply _ | apply assertRestrictDeleteMemory_readonly]. }
  intros _. apply preserves_bind; [apply _ | apply Hmutate |].
  intros. apply preserves_ret; apply _.
Qed.

End AnyMutable.

Lemma runSession_preserves (R : relation MemoryAdapter) `{!Tolerant R}
    {T : Type} (fn : SessionFn T) :
  preserves R (runSession fn).
Proof.
  induction fn as [result|error|table values k IH|table options k IH
                  |table where_ patch k IH|table where_ k IH]; simpl.
  - apply preserves_ret; apply _.
  - apply preserves_throw; apply _.
  - intros a r a'. destruct (insertRows table values a) as [x a1] eqn:E. intros H.
    transitivity a1; [eapply insertRows_preserves | eapply IH]; eauto.
  - intros a r a'. destruct (selectRows table options a) as [x a1] eqn:E. intros H.
    transitivity a1; [eapply selectRows_preserves | eapply IH]; eauto.
  - intros a r a'. destruct (updateRows table where_ patch a) as [x a1] eqn:E. intros H.
    transitivity a1; [|eapply IH; eauto].
    eapply (updateRows_preserves R tolerant_mutate); eauto.
  - intros a r a'. destruct (deleteRows table where_ a) as [x a1] eqn:E. intros H.
    transitivity a1; [|eapply IH; eauto].
    eapply (deleteRows_preserves R tolerant_mutate); eauto.
Qed.

End MemoryFrames.

#[global] Instance same_shape_tolerant : Tolerant same_shape.
Proof. split; [apply _ | apply allocateIdentity_shape | apply mutateStore_shape]. Qed.

#[global] Instance counters_grow_tolerant : Tolerant counters_grow.
Proof. split; [apply _ | apply allocateIdentity_grow | apply mutateStore_grow]. Qed.

(** ** Rollback of an explicit transaction *)

Lemma setAll_union {V : Type} (source target : gmap string V) :
  Memory.setAll source target = source ∪ target.
Proof.
  unfold Memory.setAll.
  apply (map_fold_weak_ind (fun r m => r = m ∪ target)).
  - by rewrite (left_id_L ∅ (∪)).
  - intros k v m r _ ->. by rewrite insert_union_l.
Qed.

Lemma setAll_empty {V : Type} (source : gmap string V) :
  Memory.setAll source ∅ = source.
Proof. rewrite setAll_union. apply (right_id_L ∅ (∪)). Qed.

(** Putting back every snapshot entry restores the map, as long as no key
    was added in between. *)
Lemma setAll_restore {V : Type} (snapshot current : gmap string V) :
  dom current = dom snapshot -> Memory.setAll snapshot current = snapshot.
Proof.
  intros Hdom. rewrite setAll_union. apply map_eq. intros k.
  rewrite lookup_union. destruct (snapshot !! k) as [v|] eqn:E.
  - by destruct (current !! k).
  - assert (current !! k = None) as ->; [|done].
    apply not_elem_of_dom. rewrite Hdom. by apply not_elem_of_dom.
Qed.

(** C1.  For every table list and every session function: when the session
    function resolves, [transaction] returns its result; when it throws or
    rejects, [transaction] rejects with that same error and the adapter is
    back in the state it had when [transaction] was called: every store holds
    the rows it held, in the same order, and every sequence counter has its
    old value. *)
Theorem transaction_rollback {T : Type} (this : MemoryAdapter)
    (tables : list AnyTable) (fn : SessionFn T) :
  match Memory.runSession fn this with
  | (Ok result, after) =>
      Memory.transaction tables fn this = (Ok result, after)
  | (Err error, _) =>
      exists after,
        Memory.transaction tables fn this = (Err error, after) /\
        stores after = stores this /\
        sequences after = sequences this /\
        after = this
  end.
Proof.
  unfold Memory.transaction.
  destruct (Memory.runSession fn this) as [[result|error] a1] eqn:Hrun; [done|].
  pose proof (runSession_preserves same_shape fn _ _ _ Hrun) as (Hs & Hr & Hdom).
  eexists. split; [reflexivity|].
  assert (Hstores : Memory.setAll (Memory.setAll (stores this) ∅) (stores a1) = stores this).
  { rewrite setAll_empty. by apply setAll_restore. }
  assert (Hseqs : Memory.setAll (Memory.setAll (sequences this) ∅) ∅ = sequences this).
  { by rewrite !setAll_empty. }
  unfold with_sequences, with_stores; simpl.
  rewrite Hstores, Hseqs. repeat split.
  destruct this; simpl in *. by rewrite Hs, Hr.
Qed.

(** ** The scenario schemas are the ones the builder produces *)

Example users_built :
  Builders.table "users"
    [("id", Scenario.id_column);
     ("name", Builders.ColumnBuilder_notNull (Builders.scalar KVarchar))] None
  = Ok Scenario.users_table.
Proof. reflexivity. Qed.

Example todos_built :
  Builders.table "todos"
    [("id", Scenario.id_column);
     ("title", Builders.ColumnBuilder_notNull (Builders.scalar KVarchar));
     ("ownerId", Builders.ColumnBuilder_notNull
                   (Builders.ColumnBuilder_references
                      (Builders.columnOf Scenario.users_table "id") None
                      (Builders.scalar KInt)))] None
  = Ok Scenario.todos_table.
Proof. reflexivity. Qed.

Example notes_built :
  Builders.table "notes"
    [("id", Scenario.id_column);
     ("name", Builders.scalar KVarchar);
     ("updatedAt", Builders.ColumnBuilder_onUpdate Scenario.increment
                     (Builders.ColumnBuilder_defaultFn (fun _ => VNum 100)
                                                       (Builders.scalar KTimestamp)))] None
  = Ok Scenario.notes_table
  /\ Builders.schema
       {| Builders.opt_name := "notes"; Builders.opt_version := None;
          Builders.opt_namespace := None |}
       [("notes", Scenario.notes_table)]
     = Ok Scenario.notesSchema
  /\ Builders.tableOf Scenario.notesSchema "notes" = Some Scenario.notes.
Proof. repeat split. Qed.

Example appSchema_built :
  Builders.schema
    {| Builders.opt_name := "app"; Builders.opt_version := None;
       Builders.opt_namespace := None |}
    [("users", Scenario.users_table); ("todos", Scenario.todos_table)]
  = Ok Scenario.appSchema
  /\ Builders.tableOf Scenario.appSchema "todos" = Some Scenario.todos
  /\ (foreignKey <$> prop "ownerId" (columns Scenario.todos))
     = Some (Some {| tableName := "users"; columnName := "id"; onDelete := Restrict |}).
Proof. repeat split. Qed.

Example aliasedSchema_built :
  Builders.schema
    {| Builders.opt_name := "app"; Builders.opt_version := None;
       Builders.opt_namespace := None |}
    [("people", Scenario.users_table); ("tasks", Scenario.todos_table)]
  = Ok Scenario.aliasedSchema
  /\ Builders.tableOf Scenario.aliasedSchema "tasks" = Some Scenario.tasks
  /\ (foreignKey <$> prop "ownerId" (columns Scenario.tasks))
     = Some (Some {| tableName := "users"; columnName := "id"; onDelete := Restrict |}).
Proof. repeat split. Qed.

(** Scenario 4: a user and a todo are inserted in a transaction that then
    throws; afterwards both tables are empty and the counters are gone. *)
Example transaction_rollback_scenario :
  exists after,
    Memory.transaction [Scenario.users; Scenario.todos]
      (TrxInsert Scenario.users (One (Scenario.row [("name", VStr "x")])) (fun _ =>
       TrxInsert Scenario.todos
         (One (Scenario.row [("title", VStr "t"); ("ownerId", VNum 1)])) (fun _ =>
       Throw (UserError "boom") : SessionFn unit)))
      Fixture.fresh
    = (Err (UserError "boom"), after)
    /\ fst (Memory.select Scenario.users None after) = Ok []
    /\ fst (Memory.select Scenario.todos None after) = Ok []
    /\ counter after "app__users" = 0.
Proof. eexists. split; [vm_compute; reflexivity|]. repeat split. Qed.

(** ** Empty table list *)

(** C9, as the code has it.  The persistent backend rejects an empty table
    list with the empty-transaction error whatever the engine and the session
    function are, leaving the database as it was: the session function is not
    run and no engine transaction is opened.  The memory backend never looks
    at the table list: it does with an empty list what it does with any
    other. *)
Theorem empty_transaction_persistent_only :
  (forall (Db Tx T : Type) runTransaction insertWithin selectWithin updateWithin
          deleteWithin (this : IDB.IDBAdapter) (fn : SessionFn T) (db : Db),
      @IDB.transaction Db Tx runTransaction insertWithin selectWithin updateWithin
                       deleteWithin T this [] fn db
      = (Err EmptyTransaction, db))
  /\
  (forall (T : Type) (this : MemoryAdapter) (tables : list AnyTable) (fn : SessionFn T),
      Memory.transaction [] fn this = Memory.transaction tables fn this).
Proof. split; reflexivity. Qed.

(** C9 fails on the memory backend: with an empty table list the session
    function runs, its insert is committed and the call resolves. *)
Lemma empty_transaction_memory_runs :
  exists rows after,
    Memory.transaction []
      (TrxInsert Scenario.users (One (Scenario.row [("name", VStr "x")]))
                 (fun r => match r with Ok rows => Return rows | Err e => Throw e end))
      (new_MemoryAdapter Scenario.appSchema)
    = (Ok rows, after)
    /\ rows = [Scenario.row [("id", VNum 1); ("name", VStr "x")]]
    /\ Memory.getStore after Scenario.users
       = Some [(VNum 1, Scenario.row [("id", VNum 1); ("name", VStr "x")])].
Proof. eexists _, _. split; [reflexivity|]. split; vm_compute; reflexivity. Qed.

(** ** Primary key of a constructed table *)

Lemma find_existsb_true {A : Type} (p : A -> bool) (xs : list A) :
  existsb p xs = true -> exists x, find p xs = Some x /\ p x = true /\ In x xs.
Proof.
  induction xs as [|y xs IH]; simpl; [discriminate|].
  destruct (p y) eqn:E; simpl.
  - intros _. exists y. auto.
  - intros H. destruct (IH H) as (x & ? & ? & ?). exists x. auto.
Qed.

Lemma built_primaryKey (columns : list (string * Builders.ColumnBuilder)) :
  existsb (fun col => primaryKey (constraints col))
          (Object_values (map (fun '(columnName, builder) =>
                                 (columnName, Builders.build builder columnName)) columns))
  = existsb (fun cb => primaryKey (Builders.b_constraints (snd cb))) columns.
Proof.
  unfold Object_values. induction columns as [|[c b] rest IH]; simpl; [done|].
  by rewrite IH.
Qed.



(** ** Update normalization *)

(** A step of the column loop either throws or writes the resolved value
    into the row; it never touches the backend. *)
Lemma normalizeUpdateColumn_ok {St : Type} (table : AnyTable) (existing patch : Row)
    (row0 row : Row) (column : ColumnDef) (s s' : St) :
  normalizeUpdateColumn table existing patch row0 column s = (Ok row, s') ->
  row = <[col_name column := updateValue existing patch row0 column]> row0 /\ s' = s.
Proof.
  unfold normalizeUpdateColumn.
  destruct (is_undefined _ && _); [discriminate|]. by intros [= <- <-].
Qed.

Lemma normalizeUpdateColumns_state {St : Type} (table : AnyTable) (existing patch : Row)
    (cols : list ColumnDef) :
  forall (row0 : Row) (r : Result Row) (s s' : St),
    foldM (normalizeUpdateColumn table existing patch) cols row0 s = (r, s') -> s' = s.
Proof.
  induction cols as [|col cols IH]; simpl; intros row0 r s s'.
  - by intros [= _ <-].
  - unfold bind.
    destruct (normalizeUpdateColumn _ _ _ _ _ s) as [[row1|e] s1] eqn:E.
    + apply normalizeUpdateColumn_ok in E as [_ ->]. apply IH.
    + unfold normalizeUpdateColumn in E.
      destruct (is_undefined _ && _); [|discriminate]. injection E as _ <-.
      by intros [= _ <-].
Qed.

(** The column loop of [normalizeUpdateRow] writes only the columns it
    walks. *)
Lemma normalizeUpdateColumns_other {St : Type} (table : AnyTable) (existing patch : Row)
    (cols : list ColumnDef) (c : string) :
  c ∉ map col_name cols ->
  forall (row0 row : Row) (s s' : St),
    foldM (normalizeUpdateColumn table existing patch) cols row0 s = (Ok row, s') ->
    row !! c = row0 !! c.
Proof.
  induction cols as [|col cols IH]; simpl; intros Hc row0 row s s'.
  - by intros [= <- _].
  - apply not_elem_of_cons in Hc as [Hne Hc]. unfold bind.
    destruct (normalizeUpdateColumn _ _ _ _ _ s) as [[row1|e] s1] eqn:E; [|discriminate].
    apply normalizeUpdateColumn_ok in E as [-> ->].
    intros H. rewrite (IH Hc _ _ _ _ H). by rewrite lookup_insert_ne.
Qed.

(** What the column loop leaves in a column it walks. *)
Lemma normalizeUpdateColumns_at {St : Type} (table : AnyTable) (existing patch : Row)
    (cols : list ColumnDef) (column : ColumnDef) :
  NoDup (map col_name cols) ->
  column ∈ cols ->
  forall (row0 row : Row) (s s' : St),
    foldM (normalizeUpdateColumn table existing patch) cols row0 s = (Ok row, s') ->
    row !! col_name column = Some (updateValue existing patch row0 column).
Proof.
  induction cols as [|col cols IH]; simpl; intros Hnd Hin row0 row s s'.
  - by apply elem_of_nil in Hin.
  - apply NoDup_cons in Hnd as [Hfresh Hnd]. unfold bind.
    destruct (normalizeUpdateColumn _ _ _ _ _ s) as [[row1|e] s1] eqn:E; [|discriminate].
    apply normalizeUpdateColumn_ok in E as [-> ->]. intros H.
    apply elem_of_cons in Hin as [->|Hin].
    + rewrite (normalizeUpdateColumns_other _ _ _ _ _ Hfresh _ _ _ _ H).
      by rewrite lookup_insert_eq.
    + assert (col_name col <> col_name column) as Hne.
      { intros Heq. apply Hfresh. rewrite Heq. by apply (list_elem_of_fmap_2 col_name). }
      rewrite (IH Hnd Hin _ _ _ _ H). f_equal.
      unfold updateValue, get. by rewrite lookup_insert_ne.
Qed.

Lemma spread_get_patch (existing patch : Row) (c : string) :
  get (spread existing patch) c =
    if hasOwnProperty patch c then get patch c else get existing c.
Proof.
  unfold get, spread, hasOwnProperty. rewrite lookup_union.
  destruct (patch !! c) as [v|] eqn:E.
  - rewrite bool_decide_eq_true_2 by eauto. by destruct (existing !! c).
  - rewrite bool_decide_eq_false_2 by (intros [? ?]; discriminate).
    by destruct (existing !! c).
Qed.

Lemma normalizeUpdateRow_ok {St : Type} (table : AnyTable) (existing patch row : Row)
    (ctx : NormalizationContext St) (s s' : St) :
  normalizeUpdateRow table existing patch ctx s = (Ok row, s') ->
  foldM (normalizeUpdateColumn table existing patch)
        (Object_values (columns table)) (spread existing patch) s = (Ok row, s)
  /\ ensureForeignKeys table row ctx s = (Ok tt, s').
Proof.
  unfold normalizeUpdateRow, bind.
  destruct (foldM _ _ _ s) as [[row1|e] s1] eqn:Hfold; [|discriminate].
  pose proof (normalizeUpdateColumns_state _ _ _ _ _ _ _ _ Hfold) as ->.
  destruct (ensureForeignKeys _ _ _ s) as [[[]|e] s2] eqn:Hfk; [|discriminate].
  simpl. intros [= <- <-]. by rewrite Hfk.
Qed.


(** Closed decidable side conditions, by evaluation. *)
Ltac by_decide := refine (bool_decide_unpack _ _); vm_compute; exact I.
Ltac by_membership :=
  vm_compute;
  repeat first [apply list_elem_of_here | apply list_elem_of_further].



(** Scenario 5, second half: the patch [{updatedAt: 555}] wins over the hook,
    and so does a patch that owns the key with [undefined]. *)
Example onUpdate_patch_wins :
  let run patch :=
    match fst (normalizeUpdateRow Scenario.notes Fixture.note patch Memory.makeContext
                 (new_MemoryAdapter Scenario.notesSchema)) with
    | Ok row => Some (get row "updatedAt")
    | Err _ => None
    end in
  run (Scenario.row [("updatedAt", VNum 555)]) = Some (VNum 555) /\
  run (Scenario.row [("updatedAt", VUndefined)]) = Some VUndefined /\
  run (Scenario.row [("name", VStr "q")]) = Some (VNum 101).
Proof. repeat split. Qed.

(** ** Not-null on update *)

(** C3 on the code.  The update loop rejects a not-null column resolved to
    [undefined], as the insert loop does; but a patch setting the not-null
    column [name] to [null] is accepted, and the stored row then holds [null]
    in it, whereas an insert of the same value is rejected. *)
Theorem update_stores_null_in_notNull_column :
  (notNull <$> (constraints <$> prop "name" (columns Scenario.users))) = Some true /\
  fst (Memory.insert Scenario.users (One (Scenario.row [("name", VNull)])) Fixture.fresh)
    = Err (NotNullable "users" "name") /\
  fst (Memory.update Scenario.users (Scenario.pkEquals "id" 1)
         (Scenario.row [("name", VUndefined)]) Fixture.oneUser)
    = Err (NotNullable "users" "name") /\
  exists after,
    Memory.update Scenario.users (Scenario.pkEquals "id" 1)
      (Scenario.row [("name", VNull)]) Fixture.oneUser = (Ok 1, after) /\
    Memory.getStore after Scenario.users
      = Some [(VNum 1, Scenario.row [("id", VNum 1); ("name", VNull)])].
Proof.
  split; [reflexivity|]. split; [vm_compute; reflexivity|].
  split; [vm_compute; reflexivity|].
  eexists. split; [reflexivity|]. vm_compute. reflexivity.
Qed.

(** ** Query evaluation *)

Lemma Array_slice_offset_limit {A : Type} (xs : list A) (off lim : Z) :
  0 <= off -> 0 <= lim ->
  Array_slice xs off (off + lim) = take (Z.to_nat lim) (drop (Z.to_nat off) xs).
Proof.
  intros Hoff Hlim. unfold Array_slice, relative_index.
  destruct (off <? 0) eqn:E1; [lia|]. destruct (off + lim <? 0) eqn:E2; [lia|].
  destruct (decide (Z.of_nat (length xs) <= off)) as [Hbig|Hsmall].
  - rewrite !drop_ge by lia. by rewrite !take_nil.
  - rewrite (Z.min_l off) by lia.
    destruct (decide (off + lim <= Z.of_nat (length xs))) as [Hfit|Hover].
    + rewrite Z.min_l by lia. f_equal. lia.
    + rewrite Z.min_r by lia.
      rewrite !take_ge; [done| |]; rewrite length_drop; lia.
Qed.

Section SortFacts.
Context {A : Type} (key : A -> Z).

#[local] Abbreviation cmp := (numeric_compare key).

Lemma cmp_le a b : (cmp a b <=? 0) = (key a <=? key b).
Proof.
  unfold numeric_compare, compare_keys, strict_eq, js_gt.
  case_bool_decide as Heq.
  - injection Heq as ->. simpl. symmetry. apply Z.leb_le. lia.
  - destruct (key b <? key a) eqn:E; simpl; symmetry.
    + apply Z.leb_gt. lia.
    + apply Z.leb_le. lia.
Qed.

Lemma sort_insert_perm x s : Permutation (sort_insert cmp x s) (x :: s).
Proof.
  induction s as [|y s IH]; simpl; [done|].
  destruct (cmp x y <=? 0); [done|].
  rewrite IH. apply perm_swap.
Qed.

Lemma Array_sort_perm l : Permutation (Array_sort cmp l) l.
Proof.
  induction l as [|x l IH]; simpl; [done|].
  rewrite sort_insert_perm. by constructor.
Qed.

Lemma sort_insert_sorted x s :
  StronglySorted (fun a b => key a <= key b) s ->
  StronglySorted (fun a b => key a <= key b) (sort_insert cmp x s).
Proof.
  induction 1 as [|y s Hs IH Hy]; simpl.
  - repeat constructor.
  - rewrite cmp_le. destruct (key x <=? key y) eqn:E.
    + apply Z.leb_le in E. constructor; [by constructor|].
      constructor; [done|]. eapply Forall_impl; [exact Hy|]. simpl. intros; lia.
    + apply Z.leb_gt in E. constructor; [done|].
      rewrite sort_insert_perm. constructor; [lia|done].
Qed.

Lemma Array_sort_sorted l :
  StronglySorted (fun a b => key a <= key b) (Array_sort cmp l).
Proof.
  induction l as [|x l IH]; simpl; [constructor|]. by apply sort_insert_sorted.
Qed.

(** Stability: the rows sharing a key come out in the order they went in. *)
Lemma sort_insert_stable x s k :
  filter (fun a => key a = k) (sort_insert cmp x s)
  = filter (fun a => key a = k) (x :: s).
Proof.
  induction s as [|y s IH]; simpl; [done|].
  rewrite cmp_le. destruct (key x <=? key y) eqn:E; [done|].
  apply Z.leb_gt in E.
  rewrite (filter_cons _ y), IH, !filter_cons.
  repeat case_decide; try done; lia.
Qed.

Lemma Array_sort_stable l k :
  filter (fun a => key a = k) (Array_sort cmp l) = filter (fun a => key a = k) l.
Proof.
  induction l as [|x l IH]; simpl; [done|].
  rewrite sort_insert_stable, !filter_cons, IH. done.
Qed.

End SortFacts.

(** On rows whose keys are numbers the comparator is the numeric one. *)
Lemma sort_insert_numeric (selector : Row -> value) (x : Row) (s : list Row) :
  (exists n, selector x = VNum n) ->
  Forall (fun r => exists n, selector r = VNum n) s ->
  sort_insert (fun a b => compare_keys (selector a) (selector b)) x s
  = sort_insert (numeric_compare (numericKey selector)) x s.
Proof.
  intros [n Hx]. induction 1 as [|y s [m Hy] Hs IH]; simpl; [done|].
  unfold numeric_compare at 1, numericKey at 1 2. rewrite Hx, Hy, IH. done.
Qed.

Lemma Array_sort_numeric (selector : Row -> value) (l : list Row) :
  Forall (fun r => exists n, selector r = VNum n) l ->
  Array_sort (fun a b => compare_keys (selector a) (selector b)) l
  = Array_sort (numeric_compare (numericKey selector)) l.
Proof.
  induction 1 as [|x l Hx Hl IH]; simpl; [done|].
  rewrite IH. apply sort_insert_numeric; [done|].
  rewrite <- IH.
  clear -Hl. induction l as [|y l IHl]; simpl; [constructor|].
  apply Forall_cons in Hl as [Hy Hl]. specialize (IHl Hl).
  revert IHl. generalize (Array_sort (fun a b => compare_keys (selector a) (selector b)) l).
  intros s Hs. induction Hs as [|z s Hz Hs IHs]; simpl.
  - by repeat constructor.
  - destruct (_ <=? 0); repeat constructor; done.
Qed.



(** The stages of scenario 6: filtered ids [1, 4], descending [4, 1]. *)
Example applyQueryOptions_stages :
  applyQueryOptions Scenario.items
    (Some {| where_ := where_ Scenario.pageQuery; orderBy := None; order := None;
             limit := None; offset := None |})
  = [Scenario.item 1; Scenario.item 4]
  /\ applyQueryOptions Scenario.items
       (Some {| where_ := where_ Scenario.pageQuery; orderBy := Some (ByColumn "id");
                order := Some Desc; limit := None; offset := None |})
     = [Scenario.item 4; Scenario.item 1].
Proof. split; vm_compute; reflexivity. Qed.

(** ** Delete and restrict *)

Lemma forEach_throw_if {St A : Type} (p : A -> bool) (e : Error) (xs : list A) (s : St) :
  forEach (fun x => if p x then throw e else ret tt) xs s
  = if existsb p xs then (Err e, s) else (Ok tt, s).
Proof.
  induction xs as [|x xs IH]; simpl; [done|].
  unfold bind. destruct (p x); simpl; [done|]. apply IH.
Qed.

Lemma blocks_blocked a key ref : blocks a key ref = true <-> blocked a key ref.
Proof.
  unfold blocks, blocked. destruct (stores a !! _) as [store|]; split.
  - intros (row & Hin & Heq)%existsb_exists.
    exists store, row. split; [done|]. split; [by apply list_elem_of_In|].
    unfold strict_eq in Heq. by apply bool_decide_eq_true in Heq.
  - intros (store' & row & [= <-] & Hin & Heq). apply existsb_exists.
    exists row. split; [by apply list_elem_of_In|].
    unfold strict_eq. by apply bool_decide_eq_true.
  - discriminate.
  - by intros (? & ? & ? & _).
Qed.

(** What the scan of the dependent stores answers. *)
Lemma assertRestrictDeleteMemory_blocker dependents key a :
  Memory.assertRestrictDeleteMemory dependents key a =
    match blocker a dependents key with
    | Some ref => (Err (DeleteRestricted (tbl_name (ref_table ref))
                                         (col_name (ref_column ref))), a)
    | None => (Ok tt, a)
    end.
Proof.
  unfold Memory.assertRestrictDeleteMemory, blocker.
  induction dependents as [|ref deps IH]; simpl; [done|].
  unfold bind, blocks.
  destruct (stores a !! _) as [store|]; [|apply IH].
  rewrite forEach_throw_if. destruct (existsb _ _); [done|apply IH].
Qed.

Lemma blocker_Some a dependents key ref :
  blocker a dependents key = Some ref -> ref ∈ dependents /\ blocked a key ref.
Proof.
  unfold blocker. intros H. apply find_some in H as [Hin Hb].
  split; [by apply list_elem_of_In|by apply blocks_blocked].
Qed.

Lemma blocker_None a dependents key :
  blocker a dependents key = None <->
  forall ref, ref ∈ dependents -> ~ blocked a key ref.
Proof.
  unfold blocker. split.
  - intros H ref Hin Hb. apply blocks_blocked in Hb.
    apply list_elem_of_In in Hin. pose proof (find_none _ _ H _ Hin). congruence.
  - intros H. destruct (find _ _) as [ref|] eqn:E; [|done].
    apply find_some in E as [Hin Hb]. exfalso.
    apply (H ref); [by apply list_elem_of_In|by apply blocks_blocked].
Qed.

(** Removing rows from a store cannot make a key blocked. *)
Lemma blocker_set_store a name store store' dependents key :
  stores a !! name = Some store ->
  (forall e, e ∈ store' -> e ∈ store) ->
  blocker a dependents key = None ->
  blocker (set_store name store' a) dependents key = None.
Proof.
  intros Hstore Hsub. rewrite !blocker_None. intros H ref Hin (st & row & Hst & Hrow & Hkey).
  apply (H ref Hin). simpl in Hst.
  destruct (decide (name = storeName (schema a) (ref_table ref))) as [->|Hne].
  - rewrite lookup_insert_eq in Hst. injection Hst as <-.
    exists store, row. split; [done|]. split; [|done].
    unfold Map_values in *. apply list_elem_of_fmap in Hrow as (e & -> & He).
    apply list_elem_of_fmap_2. auto.
  - rewrite lookup_insert_ne in Hst by done. by exists st, row.
Qed.

Lemma set_store_id name store a :
  stores a !! name = Some store -> set_store name store a = a.
Proof.
  intros H. unfold set_store, with_stores. rewrite insert_id by done. by destruct a.
Qed.

Lemma mutateStore_set_store table f store a :
  Memory.mutateStore table f (set_store (storeName (schema a) table) store a)
  = (Ok tt, set_store (storeName (schema a) table) (f store) a).
Proof.
  unfold Memory.mutateStore, set_store, with_stores. simpl. f_equal. f_equal.
  apply map_eq. intros k. rewrite lookup_alter. case_decide; subst.
  - by rewrite !lookup_insert_eq.
  - by rewrite !lookup_insert_ne.
Qed.

Lemma Map_delete_middle (kept rest : Store) key row :
  key ∉ map fst kept ->
  Map_delete key (kept ++ (key, row) :: rest) = kept ++ rest.
Proof.
  induction kept as [|[k r] kept IH]; simpl; intros Hk.
  - by rewrite bool_decide_eq_true_2.
  - apply not_elem_of_cons in Hk as [Hne Hk].
    rewrite bool_decide_eq_false_2 by done. by rewrite IH.
Qed.

Lemma alter_set_store (table : TableDef) f store a :
  with_stores (alter f (storeName (schema a) table))
              (set_store (storeName (schema a) table) store a)
  = set_store (storeName (schema a) table) (f store) a.
Proof.
  pose proof (mutateStore_set_store table f store a) as H.
  unfold Memory.mutateStore in H. injection H as H.
  unfold set_store, with_stores. simpl. by rewrite H.
Qed.

(** The two ways an iteration of the loop of [deleteRows] goes through. *)
Lemma deleteRow_skip (table : AnyTable) where_ dependents deleted k row b :
  where_ row = false ->
  Memory.deleteRow table where_ dependents deleted (k, row) b = (Ok deleted, b).
Proof. intros Hw. unfold Memory.deleteRow. by rewrite Hw. Qed.

Lemma deleteRow_remove (table : AnyTable) where_ dependents deleted k row b pkc :
  where_ row = true ->
  primaryKeyColumn table = Ok pkc ->
  blocker b dependents (get row (col_name pkc)) = None ->
  Memory.deleteRow table where_ dependents deleted (k, row) b
  = (Ok (deleted + 1), with_stores (alter (Map_delete k) (storeName (schema b) table)) b).
Proof.
  intros Hw Hpk Hfree. unfold Memory.deleteRow. rewrite Hw, Hpk.
  unfold bind, Memory.liftResult, negb. cbv beta iota.
  by rewrite assertRestrictDeleteMemory_blocker, Hfree.
Qed.

Lemma deleteRow_blocked (table : AnyTable) where_ dependents deleted k row b pkc ref :
  where_ row = true ->
  primaryKeyColumn table = Ok pkc ->
  blocker b dependents (get row (col_name pkc)) = Some ref ->
  Memory.deleteRow table where_ dependents deleted (k, row) b
  = (Err (DeleteRestricted (tbl_name (ref_table ref)) (col_name (ref_column ref))), b).
Proof.
  intros Hw Hpk Hb. unfold Memory.deleteRow. rewrite Hw, Hpk.
  unfold bind, Memory.liftResult, negb. cbv beta iota.
  by rewrite assertRestrictDeleteMemory_blocker, Hb.
Qed.

(** The loop of [deleteRows] when no candidate is blocked: it has kept
    [kept], still has [todo] to walk, and ends with the candidates of [todo]
    removed and counted. *)
Lemma deleteRows_loop a (table : AnyTable) where_ dependents pkc store :
  primaryKeyColumn table = Ok pkc ->
  stores a !! storeName (schema a) table = Some store ->
  forall todo kept deleted,
    NoDup (map fst (kept ++ todo)) ->
    (forall e, e ∈ kept ++ todo -> e ∈ store) ->
    (forall k row, (k, row) ∈ todo -> where_ row = true ->
                   blocker a dependents (get row (col_name pkc)) = None) ->
    foldM (Memory.deleteRow table where_ dependents) todo deleted
          (set_store (storeName (schema a) table) (kept ++ todo) a)
    = (Ok (deleted + Z.of_nat (length (filter (fun e => where_ (snd e) = true) todo))),
       set_store (storeName (schema a) table)
                 (kept ++ filter (fun e => where_ (snd e) = false) todo) a).
Proof.
  intros Hpk Hstore. induction todo as [|[k row] rest IH]; intros kept deleted Hnd Hsub Hfree.
  - simpl. unfold ret. do 2 f_equal. lia.
  - rewrite foldM_cons.
    destruct (where_ row) eqn:Hw.
    + rewrite (deleteRow_remove _ _ _ _ _ _ _ pkc Hw Hpk).
      2:{ apply (blocker_set_store _ _ store); [done|done|].
          eapply Hfree; [apply list_elem_of_here|done]. }
      change (schema (set_store _ _ a)) with (schema a).
      rewrite alter_set_store, Map_delete_middle.
      2:{ rewrite map_app in Hnd. apply NoDup_app in Hnd as (_ & Hdisj & _).
          intros Hin. apply (Hdisj _ Hin). simpl. apply list_elem_of_here. }
      rewrite filter_cons_True, filter_cons_False by (simpl; congruence).
      rewrite IH.
      * simpl length. do 2 f_equal. lia.
      * rewrite map_app in *. simpl in Hnd.
        apply NoDup_app in Hnd as (H1 & H2 & H3). apply NoDup_cons in H3 as [_ H3].
        apply NoDup_app. repeat split; [done| |done].
        intros x Hx Hx'. apply (H2 x Hx). by apply list_elem_of_further.
      * intros e He. apply Hsub. apply elem_of_app in He as [He|He];
          apply elem_of_app; [by left|right; by apply list_elem_of_further].
      * intros k' row' Hin. apply (Hfree k'). by apply list_elem_of_further.
    + rewrite (deleteRow_skip _ _ _ _ _ _ _ Hw).
      rewrite filter_cons_False, filter_cons_True by (simpl; congruence).
      replace (kept ++ (k, row) :: rest) with ((kept ++ [(k, row)]) ++ rest)
        by (by rewrite <- app_assoc).
      rewrite IH.
      * by rewrite <- app_assoc.
      * by rewrite <- app_assoc.
      * intros e He. apply Hsub. by rewrite <- app_assoc in He.
      * intros k' row' Hin. apply (Hfree k'). by apply list_elem_of_further.
Qed.

(** The loop of [deleteRows] up to its first candidate, when that one is
    blocked. *)
Lemma deleteRows_first_blocked a (table : AnyTable) where_ dependents pkc ref
    pre k row post deleted :
  primaryKeyColumn table = Ok pkc ->
  Forall (fun e => where_ (snd e) = false) pre ->
  where_ row = true ->
  blocker a dependents (get row (col_name pkc)) = Some ref ->
  foldM (Memory.deleteRow table where_ dependents) (pre ++ (k, row) :: post) deleted a
  = (Err (DeleteRestricted (tbl_name (ref_table ref)) (col_name (ref_column ref))), a).
Proof.
  intros Hpk Hpre Hw Hb.
  induction Hpre as [|[k' row'] pre Hw' Hpre IH]; cbn [app]; rewrite foldM_cons.
  - by rewrite (deleteRow_blocked _ _ _ _ _ _ _ pkc ref).
  - rewrite deleteRow_skip by done. apply IH.
Qed.



(** Scenario 3, evaluated: the error names [todos.ownerId], and both rows
    are still selected afterwards. *)
Example restrict_delete_scenario :
  exists after,
    Memory.delete Scenario.users (Scenario.pkEquals "id" 1) Fixture.userWithTodo
    = (Err (DeleteRestricted "todos" "ownerId"), after) /\
    fst (Memory.select Scenario.users None after)
    = Ok [Scenario.row [("id", VNum 1); ("name", VStr "x")]] /\
    fst (Memory.select Scenario.todos None after)
    = Ok [Scenario.row [("id", VNum 1); ("title", VStr "t"); ("ownerId", VNum 1)]].
Proof. eexists. split; [reflexivity|]. split; vm_compute; reflexivity. Qed.

(** ** Insert normalization and identity allocation *)

(** A step of the column loop of [normalizeInsertRow] that goes through
    writes a value into its column; the stores are left alone and counters
    only grow.  On an unset identity column the value is the successor of the
    table's counter, which becomes the new counter; any other step leaves the
    adapter as it is. *)
Lemma normalizeInsertColumn_ok (table : AnyTable) (row0 row : Row)
    (column : ColumnDef) (a a' : MemoryAdapter) :
  normalizeInsertColumn table Memory.makeContext row0 column a = (Ok row, a') ->
  exists v,
    row = <[col_name column := v]> row0 /\
    (if is_undefined (get row0 (col_name column)) && identity (constraints column)
     then v = VNum (counter a (storeName (schema a) table) + 1) /\
          a' = with_sequences (insert (storeName (schema a) table)
                                      (counter a (storeName (schema a) table) + 1)) a
     else a' = a).
Proof.
  unfold normalizeInsertColumn, bind, ret, throw. simpl allocateIdentity.
  destruct (is_undefined (get row0 (col_name column))) eqn:Hu; simpl andb;
    [destruct (identity (constraints column)) eqn:Hid|];
    intros H; repeat (case_match; simplify_eq); eauto.
  match goal with H : allocateIdentity _ _ _ _ = _ |- _ => injection H as <- <- end.
  eexists. split; [reflexivity|]. by split.
Qed.

Lemma counter_with_sequences_eq a name n :
  counter (with_sequences (insert name n) a) name = n.
Proof. unfold counter. simpl. by rewrite lookup_insert_eq. Qed.

Lemma normalizeInsertColumns_other (table : AnyTable) (cols : list ColumnDef) (c : string) :
  c ∉ map col_name cols ->
  forall (row0 row : Row) (a a' : MemoryAdapter),
    foldM (normalizeInsertColumn table Memory.makeContext) cols row0 a = (Ok row, a') ->
    row !! c = row0 !! c.
Proof.
  induction cols as [|col cols IH]; intros Hc row0 row a a'.
  - by intros [= <- _].
  - apply not_elem_of_cons in Hc as [Hne Hc]. rewrite foldM_cons.
    destruct (normalizeInsertColumn _ _ _ _ a) as [[row1|e] a1] eqn:E; [|discriminate].
    apply normalizeInsertColumn_ok in E as (v & -> & _).
    intros H. rewrite (IH Hc _ _ _ _ H). by rewrite lookup_insert_ne.
Qed.

Lemma normalizeInsertColumns_grow (table : AnyTable) (cols : list ColumnDef)
    (row0 : Row) :
  preserves counters_grow (foldM (normalizeInsertColumn table Memory.makeContext) cols row0).
Proof.
  apply preserves_foldM; [apply _|]. intros acc column a r a'.
  unfold normalizeInsertColumn. revert a r a'.
  apply preserves_bind; [apply _| |].
  - repeat case_match; try (apply preserves_ret; apply _).
    apply allocateIdentity_grow.
  - intros v. case_match; [apply preserves_throw|apply preserves_ret]; apply _.
Qed.

(** The identity a completed column loop leaves in an unset identity column
    lies above the counter it started from and not above the one it ends
    with; it is the successor of the former when no other identity column is
    declared. *)
Lemma normalizeInsertColumns_identity (table : AnyTable) (cols : list ColumnDef)
    (column : ColumnDef) :
  NoDup (map col_name cols) ->
  column ∈ cols ->
  identity (constraints column) = true ->
  forall (row0 row : Row) (a a' : MemoryAdapter),
    get row0 (col_name column) = VUndefined ->
    foldM (normalizeInsertColumn table Memory.makeContext) cols row0 a = (Ok row, a') ->
    exists n,
      row !! col_name column = Some (VNum n) /\
      counter a (storeName (schema a) table) < n /\
      n <= counter a' (storeName (schema a) table) /\
      ((forall c, c ∈ cols -> identity (constraints c) = true -> c = column) ->
       n = counter a (storeName (schema a) table) + 1).
Proof.
  intros Hnd Hin Hid.
  induction cols as [|col cols IH]; intros row0 row a a' Hunset.
  - by apply elem_of_nil in Hin.
  - apply NoDup_cons in Hnd as [Hfresh Hnd]. rewrite foldM_cons.
    destruct (normalizeInsertColumn _ _ _ _ a) as [[row1|e] a1] eqn:E; [|discriminate].
    apply normalizeInsertColumn_ok in E as (v & -> & Hstep). intros Hrest.
    apply elem_of_cons in Hin as [<-|Hin].
    + rewrite Hunset, Hid in Hstep. simpl in Hstep. destruct Hstep as [-> ->].
      exists (counter a (storeName (schema a) table) + 1).
      rewrite (normalizeInsertColumns_other _ _ _ Hfresh _ _ _ _ Hrest).
      rewrite lookup_insert_eq. split; [done|]. split; [lia|]. split; [|done].
      pose proof (normalizeInsertColumns_grow _ _ _ _ _ _ Hrest
                    (storeName (schema a) table)) as Hg.
      by rewrite counter_with_sequences_eq in Hg.
    + assert (col_name col <> col_name column) as Hne.
      { intros Heq. apply Hfresh. rewrite Heq. by apply (list_elem_of_fmap_2 col_name). }
      assert (counter a (storeName (schema a) table)
              <= counter a1 (storeName (schema a) table)
              /\ schema a1 = schema a
              /\ (identity (constraints col) = false -> a1 = a)) as (Hle & Hsch & Hsame).
      { destruct (is_undefined (get row0 (col_name col)) && identity (constraints col)) eqn:Hc.
        - destruct Hstep as [_ ->]. rewrite counter_with_sequences_eq.
          split; [lia|]. split; [done|]. apply andb_true_iff in Hc as [_ ->]. discriminate.
        - subst a1. split; [lia|]. done. }
      destruct (IH Hnd Hin (<[col_name col:=v]> row0) row a1 a') as (n & Hn & Hlt & Hle' & Hexact).
      { unfold get. by rewrite lookup_insert_ne. }
      { done. }
      rewrite Hsch in *. exists n. split; [done|]. split; [lia|]. split; [done|].
      intros Honly. rewrite Hexact.
      * rewrite Hsame; [done|]. destruct (identity (constraints col)) eqn:Hcid; [|done].
        exfalso. apply Hne. f_equal. apply Honly; [apply list_elem_of_here|done].
      * intros c Hc. apply Honly. by apply list_elem_of_further.
Qed.

Lemma applyComputedFields_other (table : TableDef) (row : Row) (c : string) :
  not_computed table c -> applyComputedFields table row !! c = row !! c.
Proof.
  unfold not_computed, applyComputedFields.
  generalize (indexes table). intros idxs. revert row.
  induction idxs as [|idx idxs IH]; intros row Hnc; simpl; [done|].
  rewrite IH.
  - destruct (computed idx) as [cfg|] eqn:E; [|done].
    rewrite lookup_insert_ne; [done|]. eapply Hnc; [apply list_elem_of_here|done].
  - intros idx' cfg Hin. apply Hnc. by apply list_elem_of_further.
Qed.

Lemma normalizeInsertRow_ok (table : AnyTable) (input row : Row) (a a' : MemoryAdapter) :
  normalizeInsertRow table input Memory.makeContext a = (Ok row, a') ->
  foldM (normalizeInsertColumn table Memory.makeContext)
        (Object_values (columns table)) input a = (Ok row, a')
  /\ ensureForeignKeys table row Memory.makeContext a' = (Ok tt, a').
Proof.
  unfold normalizeInsertRow, bind, spread. rewrite (right_id_L ∅ (∪)).
  destruct (foldM _ _ _ a) as [[row1|e] a1] eqn:Hfold; [|discriminate].
  destruct (ensureForeignKeys _ _ _ a1) as [[[]|e] a2] eqn:Hfk; [|discriminate].
  assert (a1 = a2) as <-.
  { eapply (preserves_ensureForeignKeys eq); [|exact Hfk].
    intros. apply ensureForeignKey_readonly. }
  simpl. by intros [= <- <-].
Qed.

(** A committed iteration of the loop of [insertRows]: the row went through
    the pipeline, its key was free, and the store got it as its last entry. *)
Lemma insertRow_ok (table : AnyTable) (results rs : list Row) (value : Row)
    (a a' : MemoryAdapter) :
  Memory.insertRow table Memory.makeContext results value a = (Ok rs, a') ->
  exists normalized a1 pkc store,
    normalizeInsertRow table value Memory.makeContext a = (Ok normalized, a1) /\
    primaryKeyColumn table = Ok pkc /\
    Memory.getStore a1 table = Some store /\
    Map_has (get (applyComputedFields table normalized) (col_name pkc)) store = false /\
    rs = results ++ [applyComputedFields table normalized] /\
    a' = with_stores
           (alter (Map_set (get (applyComputedFields table normalized) (col_name pkc))
                           (applyComputedFields table normalized))
                  (storeName (schema a1) table)) a1.
Proof.
  unfold Memory.insertRow, bind, Memory.liftResult, Memory.theStore, Memory.mutateStore,
    cloneRow, ret, throw.
  destruct (normalizeInsertRow _ _ _ a) as [[normalized|e] a1]; [|discriminate].
  destruct (primaryKeyColumn table) as [pkc|e]; [|discriminate].
  destruct (Memory.getStore a1 table) as [store|] eqn:Hstore; [|discriminate].
  destruct (Map_has _ store) eqn:Hhas; [discriminate|].
  intros [= <- <-]. by exists normalized, a1, pkc, store.
Qed.

(** The column loop of [normalizeInsertRow] only ever throws the not-null
    error. *)
Lemma normalizeInsertColumns_err (table : AnyTable) (cols : list ColumnDef) (e : Error) :
  forall (row0 : Row) (a a' : MemoryAdapter),
    foldM (normalizeInsertColumn table Memory.makeContext) cols row0 a = (Err e, a') ->
    exists c, e = NotNullable (tbl_name table) c.
Proof.
  induction cols as [|col cols IH]; intros row0 a a'; [discriminate|].
  rewrite foldM_cons.
  destruct (normalizeInsertColumn _ _ _ _ a) as [[row1|e1] a1] eqn:E; [apply IH|].
  intros [= -> ->]. revert E.
  unfold normalizeInsertColumn, bind, ret, throw. simpl allocateIdentity.
  intros H; repeat (case_match; simplify_eq); eauto.
Qed.

(** A rejected iteration leaves every store as it was; unless it was
    rejected for a null in a not-null column, the column loop had completed
    and the adapter is as that loop left it. *)
Lemma insertRow_err (table : AnyTable) (results : list Row) (value : Row)
    (e : Error) (a a' : MemoryAdapter) :
  Memory.insertRow table Memory.makeContext results value a = (Err e, a') ->
  same_stores a a' /\
  ((exists c, e = NotNullable (tbl_name table) c) \/
   exists row, foldM (normalizeInsertColumn table Memory.makeContext)
                     (Object_values (columns table)) value a = (Ok row, a')).
Proof.
  intros Hrow.
  assert (Hstores : forall r a1,
             normalizeInsertRow table value Memory.makeContext a = (r, a1) ->
             same_stores a a1).
  { intros r a1 Hn. eapply (preserves_normalizeInsertRow same_stores); [| |exact Hn].
    - apply allocateIdentity_stores.
    - intros. apply preserves_eq_any; [apply _|apply ensureForeignKey_readonly]. }
  revert Hrow.
  unfold Memory.insertRow, bind, Memory.liftResult, Memory.theStore, Memory.mutateStore,
    cloneRow, ret, throw.
  destruct (normalizeInsertRow _ _ _ a) as [[normalized|e'] a1] eqn:Hn.
  - pose proof (Hstores _ _ eq_refl) as Hs.
    apply normalizeInsertRow_ok in Hn as [Hfold _].
    destruct (primaryKeyColumn table) as [pkc|e']; [|intros [= _ <-]; eauto].
    destruct (Memory.getStore a1 table) as [store|]; [|intros [= _ <-]; eauto].
    destruct (Map_has _ store); [intros [= _ <-]; eauto|discriminate].
  - pose proof (Hstores _ _ eq_refl) as Hs. intros [= -> <-]. split; [done|].
    revert Hn. unfold normalizeInsertRow, bind, spread. rewrite (right_id_L ∅ (∪)).
    destruct (foldM _ _ _ a) as [[row1|e1] a2] eqn:Hfold.
    + destruct (ensureForeignKeys _ _ _ a2) as [[[]|e2] a3] eqn:Hfk; [discriminate|].
      intros [= _ <-]. right. exists row1.
      assert (a2 = a3) as <-; [|done].
      eapply (preserves_ensureForeignKeys eq); [|exact Hfk].
      intros. apply ensureForeignKey_readonly.
    + intros [= -> ->]. left. by eapply normalizeInsertColumns_err.
Qed.

(** The outcome of an iteration does not depend on the rows collected so
    far, which it only extends. *)
Lemma insertRow_results (table : AnyTable) (results : list Row) (value : Row)
    (a : MemoryAdapter) :
  Memory.insertRow table Memory.makeContext results value a =
    match Memory.insertRow table Memory.makeContext [] value a with
    | (Ok rs, a') => (Ok (results ++ rs), a')
    | (Err e, a') => (Err e, a')
    end.
Proof.
  unfold Memory.insertRow, bind, Memory.liftResult, Memory.theStore, Memory.mutateStore,
    cloneRow, ret, throw.
  destruct (normalizeInsertRow _ _ _ a) as [[normalized|e'] a1]; [|done].
  destruct (primaryKeyColumn table) as [pkc|e']; [|done].
  destruct (Memory.getStore a1 table) as [store|]; [|done].
  by destruct (Map_has _ store).
Qed.

(** The identity an insert of one row answers for an unset identity
    column. *)
Lemma insert_identity (table : AnyTable) (column : ColumnDef) (input : Row)
    (rs : list Row) (a a' : MemoryAdapter) :
  NoDup (map col_name (Object_values (columns table))) ->
  column ∈ Object_values (columns table) ->
  identity (constraints column) = true ->
  not_computed table (col_name column) ->
  get input (col_name column) = VUndefined ->
  Memory.insert table (One input) a = (Ok rs, a') ->
  exists r n,
    rs = [r] /\ get r (col_name column) = VNum n /\
    counter a (storeName (schema a) table) < n /\
    n <= counter a' (storeName (schema a) table) /\
    ((forall c, c ∈ Object_values (columns table) ->
                identity (constraints c) = true -> c = column) ->
     n = counter a (storeName (schema a) table) + 1).
Proof.
  intros Hnd Hin Hid Hnc Hunset.
  unfold Memory.insert, Memory.insertRows. simpl toList. rewrite foldM_cons.
  destruct (Memory.insertRow _ _ _ _ a) as [[rs1|e] a1] eqn:Hrow; [|discriminate].
  simpl. intros [= <- <-].
  apply insertRow_ok in Hrow as (normalized & a0 & pkc & store & Hn & _ & _ & _ & -> & ->).
  apply normalizeInsertRow_ok in Hn as [Hfold _].
  destruct (normalizeInsertColumns_identity _ _ _ Hnd Hin Hid _ _ _ _ Hunset Hfold)
    as (n & Hn & Hlt & Hle & Hexact).
  eexists _, n. split; [reflexivity|].
  split; [unfold get; by rewrite applyComputedFields_other, Hn|].
  split; [done|]. split; [|done]. unfold counter in *. simpl. done.
Qed.

(** ** Sequences of calls *)

Lemma call_preserves (R : relation MemoryAdapter) `{!Tolerant R} (c : ClientCall)
    (a : MemoryAdapter) :
  R a (call c a).
Proof.
  destruct c as [table values|table options|table where_ patch|table where_]; simpl.
  - destruct (Memory.insert table values a) as [r a'] eqn:E.
    exact (insertRows_preserves R _ _ _ _ _ E).
  - destruct (Memory.select table options a) as [r a'] eqn:E.
    exact (selectRows_preserves R _ _ _ _ _ E).
  - destruct (Memory.update table where_ patch a) as [r a'] eqn:E.
    exact (updateRows_preserves R tolerant_mutate _ _ _ _ _ _ E).
  - destruct (Memory.delete table where_ a) as [r a'] eqn:E.
    exact (deleteRows_preserves R tolerant_mutate _ _ _ _ _ E).
Qed.

Lemma calls_preserves (R : relation MemoryAdapter) `{!Tolerant R} (cs : list ClientCall)
    (a : MemoryAdapter) :
  R a (calls cs a).
Proof.
  revert a. induction cs as [|c cs IH]; intros a; simpl; [reflexivity|].
  transitivity (call c a); [by apply call_preserves|apply IH].
Qed.

Lemma counter_fresh (sch : SchemaDef) (name : string) :
  counter (new_MemoryAdapter sch) name = 0.
Proof. unfold counter. simpl. by rewrite lookup_empty. Qed.

(** The persistent backend allocates by the same rule, on the engine's
    sequence store: it answers the successor of the value it read (0 when
    there is none) and writes that back. *)
Lemma IDB_allocateIdentity_successor {Db Tx : Type}
    (seqGet : Tx -> string -> M Db (option Z)) (seqPut : Tx -> string -> Z -> M Db unit)
    (this : IDB.IDBAdapter) (tx : Tx) (table : TableDef) (db db1 db2 : Db)
    (current : option Z) :
  seqGet tx (storeName (IDB.schema this) table) db = (Ok current, db1) ->
  seqPut tx (storeName (IDB.schema this) table) (default 0 current + 1) db1 = (Ok tt, db2) ->
  IDB.allocateIdentity seqGet seqPut this tx table db
  = (Ok (VNum (default 0 current + 1)), db2).
Proof. intros Hget Hput. unfold IDB.allocateIdentity, bind. by rewrite Hget, Hput. Qed.




(** ** Inserting an array of rows *)

Lemma Map_set_fresh (key : value) (row : Row) (store : Store) :
  Map_has key store = false -> Map_set key row store = store ++ [(key, row)].
Proof.
  unfold Map_has. induction store as [|[k r] store IH]; simpl; [done|].
  destruct (decide (k = key)) as [Hk|Hk].
  - rewrite !(bool_decide_eq_true_2 (k = key)) by done.
    intros H. apply bool_decide_eq_false in H. destruct H. eauto.
  - rewrite !(bool_decide_eq_false_2 (k = key)) by done.
    intros H. by rewrite IH.
Qed.

Lemma normalizeInsertRow_stores (table : AnyTable) (input : Row) :
  preserves same_stores (normalizeInsertRow table input Memory.makeContext).
Proof.
  apply preserves_normalizeInsertRow; [apply _|apply allocateIdentity_stores|].
  intros. apply preserves_eq_any; [apply _|apply ensureForeignKey_readonly].
Qed.

(** The loop of [insertRows] commits row after row: when it completes, the
    store holds, after the entries it had, the rows answered, in order. *)
Lemma insertRows_appends (table : AnyTable) (values : list Row) :
  forall (results rs : list Row) (a a' : MemoryAdapter) (store0 : Store),
    Memory.getStore a table = Some store0 ->
    foldM (Memory.insertRow table Memory.makeContext) values results a = (Ok rs, a') ->
    exists new store',
      rs = results ++ new /\
      Memory.getStore a' table = Some store' /\
      Map_values store' = Map_values store0 ++ new.
Proof.
  induction values as [|value values IH]; intros results rs a a' store0 Hstore.
  - intros [= <- <-]. exists [], store0. by rewrite !app_nil_r.
  - rewrite foldM_cons.
    destruct (Memory.insertRow _ _ _ _ a) as [[rs1|e] a1] eqn:Hrow; [|discriminate].
    apply insertRow_ok in Hrow as (normalized & a0 & pkc & store & Hn & _ & Hst & Hfree & -> & ->).
    destruct (normalizeInsertRow_stores _ _ _ _ _ Hn) as (Hs & Hsch & _).
    assert (store = store0) as ->.
    { unfold Memory.getStore in *. rewrite Hs, Hsch in Hst. congruence. }
    intros Hrest.
    destruct (fun H => IH _ _ _ _
                (store0 ++ [(get (applyComputedFields table normalized) (col_name pkc),
                             applyComputedFields table normalized)]) H Hrest)
      as (new & store' & -> & Hst' & Hvals).
    { unfold Memory.getStore in *. simpl. rewrite lookup_alter, decide_True by done.
      rewrite Hst. simpl. by rewrite Map_set_fresh. }
    exists (applyComputedFields table normalized :: new), store'.
    split; [by rewrite <- app_assoc|]. split; [done|].
    rewrite Hvals. unfold Map_values. rewrite map_app. simpl. by rewrite <- app_assoc.
Qed.



(** ** Foreign keys *)

Lemma forEach_ok_all {St A : Type} (body : A -> M St unit) (xs : list A) (s s' : St) :
  (forall x, preserves eq (body x)) ->
  forEach body xs s = (Ok tt, s') ->
  forall x, x ∈ xs -> body x s = (Ok tt, s).
Proof.
  intros Hro. induction xs as [|y xs IH]; simpl; intros Hrun x Hin.
  - by apply elem_of_nil in Hin.
  - unfold bind in Hrun.
    destruct (body y s) as [[[]|e] s1] eqn:E; [|discriminate].
    pose proof (Hro _ _ _ _ E) as <-.
    apply elem_of_cons in Hin as [->|Hin]; [done|by apply IH].
Qed.

Lemma forEach_err_some {St A : Type} (body : A -> M St unit) (xs : list A) (s : St)
    (x : A) (e : Error) :
  (forall y, preserves eq (body y)) ->
  x ∈ xs ->
  body x s = (Err e, s) ->
  exists y e', y ∈ xs /\ body y s = (Err e', s) /\ forEach body xs s = (Err e', s).
Proof.
  intros Hro Hin Hx. induction xs as [|y xs IH]; [by apply elem_of_nil in Hin|].
  simpl. unfold bind.
  destruct (body y s) as [[[]|e1] s1] eqn:E; pose proof (Hro _ _ _ _ E) as <-.
  - apply elem_of_cons in Hin as [->|Hin]; [congruence|].
    destruct (IH Hin) as (z & e' & Hz & Hbody & Hrun).
    exists z, e'. split; [by apply list_elem_of_further|done].
  - exists y, e1. split; [apply list_elem_of_here|done].
Qed.

Lemma ensureForeignKeyOf_readonly sch (table : AnyTable) row column :
  preserves eq (ensureForeignKeyOf sch table row Memory.makeContext column).
Proof.
  unfold ensureForeignKeyOf.
  repeat case_match; try (apply preserves_ret; apply _).
  apply ensureForeignKey_readonly.
Qed.




(* ===================================================================== *)
(** * Further properties of the code *)
(* ===================================================================== *)

(** ** Insert normalization, for any backend *)

(** A step of the column loop that goes through wrote a value that passes
    the not-null test; unless it allocated an identity, the value is the
    row's own or the column's default and the backend was not touched. *)
Lemma normalizeInsertColumn_value {St : Type} (table : AnyTable)
    (ctx : NormalizationContext St) (row0 row : Row) (column : ColumnDef) (s s' : St) :
  normalizeInsertColumn table ctx row0 column s = (Ok row, s') ->
  exists v,
    row = <[col_name column := v]> row0 /\
    (is_undefined v || is_null v) && notNull (constraints column) = false /\
    (is_undefined (get row0 (col_name column)) && identity (constraints column) = false ->
     s' = s /\
     v = if is_undefined (get row0 (col_name column))
         then insertDefault column else get row0 (col_name column)).
Proof.
  unfold normalizeInsertColumn, bind, ret, throw, insertDefault, cloneValue.
  intros H.
  destruct (is_undefined (get row0 (col_name column))) eqn:Hu;
    destruct (identity (constraints column)) eqn:Hid; simpl andb in *;
    repeat (case_match; simplify_eq);
    eexists; (split; [reflexivity|]); (split; [eassumption|]);
    try discriminate; intros _; (split; [reflexivity|]); try reflexivity.
  apply negb_false_iff in H2.
  destruct (defaultValue column); try discriminate.
  by destruct (get row0 (col_name column)).
Qed.

Lemma normalizeInsertColumns_untouched {St : Type} (table : AnyTable)
    (ctx : NormalizationContext St) (cols : list ColumnDef) (c : string) :
  c ∉ map col_name cols ->
  forall (row0 row : Row) (s s' : St),
    foldM (normalizeInsertColumn table ctx) cols row0 s = (Ok row, s') ->
    row !! c = row0 !! c.
Proof.
  induction cols as [|col cols IH]; intros Hc row0 row s s'.
  - by intros [= <- _].
  - apply not_elem_of_cons in Hc as [Hne Hc]. rewrite foldM_cons.
    destruct (normalizeInsertColumn _ _ _ _ s) as [[row1|e] s1] eqn:E; [|discriminate].
    apply normalizeInsertColumn_value in E as (v & -> & _).
    intros H. rewrite (IH Hc _ _ _ _ H). by rewrite lookup_insert_ne.
Qed.

(** What a completed column loop leaves in a column it walks. *)
Lemma normalizeInsertColumns_value {St : Type} (table : AnyTable)
    (ctx : NormalizationContext St) (cols : list ColumnDef) (column : ColumnDef) :
  NoDup (map col_name cols) ->
  column ∈ cols ->
  forall (row0 row : Row) (s s' : St),
    foldM (normalizeInsertColumn table ctx) cols row0 s = (Ok row, s') ->
    exists v,
      row !! col_name column = Some v /\
      (is_undefined v || is_null v) && notNull (constraints column) = false /\
      (is_undefined (get row0 (col_name column)) && identity (constraints column) = false ->
       v = if is_undefined (get row0 (col_name column))
           then insertDefault column else get row0 (col_name column)).
Proof.
  intros Hnd Hin. induction cols as [|col cols IH]; intros row0 row s s'.
  - by apply elem_of_nil in Hin.
  - apply NoDup_cons in Hnd as [Hfresh Hnd]. rewrite foldM_cons.
    destruct (normalizeInsertColumn _ _ _ _ s) as [[row1|e] s1] eqn:E; [|discriminate].
    apply normalizeInsertColumn_value in E as (v & -> & Hnn & Hv). intros Hrest.
    apply elem_of_cons in Hin as [<-|Hin].
    + exists v. rewrite (normalizeInsertColumns_untouched _ _ _ _ Hfresh _ _ _ _ Hrest).
      rewrite lookup_insert_eq. split; [done|]. split; [done|].
      intros Hc. by destruct (Hv Hc).
    + assert (col_name col <> col_name column) as Hne.
      { intros Heq. apply Hfresh. rewrite Heq. by apply (list_elem_of_fmap_2 col_name). }
      destruct (IH Hnd Hin _ _ _ _ Hrest) as (w & Hw & Hwn & Hwv).
      exists w. split; [done|]. split; [done|].
      unfold get in *. by rewrite lookup_insert_ne in Hwv.
Qed.

Lemma normalizeInsertRow_columns {St : Type} (table : AnyTable) (input row : Row)
    (ctx : NormalizationContext St) (s s' : St) :
  normalizeInsertRow table input ctx s = (Ok row, s') ->
  exists s1, foldM (normalizeInsertColumn table ctx)
                   (Object_values (columns table)) input s = (Ok row, s1).
Proof.
  unfold normalizeInsertRow, bind, spread. rewrite (right_id_L ∅ (∪)).
  destruct (foldM _ _ _ s) as [[row1|e] s1] eqn:Hfold; [|discriminate].
  destruct (ensureForeignKeys _ _ _ s1) as [[[]|e] s2]; [|discriminate].
  simpl. intros [= <- <-]. eauto.
Qed.

(** X1.  Whatever the backend, a row that insert normalization lets through
    holds neither [undefined] nor [null] in any not-null column. *)
Theorem insert_never_null_in_notNull_column {St : Type} (table : AnyTable)
    (input row : Row) (ctx : NormalizationContext St) (s s' : St) (column : ColumnDef) :
  NoDup (map col_name (Object_values (columns table))) ->
  column ∈ Object_values (columns table) ->
  notNull (constraints column) = true ->
  normalizeInsertRow table input ctx s = (Ok row, s') ->
  get row (col_name column) <> VUndefined /\ get row (col_name column) <> VNull.
Proof.
  intros Hnd Hin Hnn Hrun.
  apply normalizeInsertRow_columns in Hrun as [s1 Hfold].
  destruct (normalizeInsertColumns_value _ _ _ _ Hnd Hin _ _ _ _ Hfold) as (v & Hv & Hok & _).
  unfold get. rewrite Hv. simpl. rewrite Hnn, andb_true_r in Hok.
  split; intros ->; discriminate.
Qed.

Lemma insert_never_null_witness :
  get (Scenario.row [("id", VNum 1); ("name", VStr "x")]) "name" <> VUndefined /\
  get (Scenario.row [("id", VNum 1); ("name", VStr "x")]) "name" <> VNull.
Proof.
  refine (insert_never_null_in_notNull_column Scenario.users
            (Scenario.row [("name", VStr "x")]) _ Memory.makeContext
            Fixture.fresh
            (snd (normalizeInsertRow Scenario.users (Scenario.row [("name", VStr "x")])
                    Memory.makeContext Fixture.fresh))
            (default (Fixture.id_of Scenario.users) (prop "name" (columns Scenario.users)))
            _ _ _ _).
  - by_decide.
  - by_membership.
  - reflexivity.
  - vm_compute. reflexivity.
Defined.

(** X2.  Whatever the backend, in a row that insert normalization lets
    through, a column without identity holds the value the caller gave, also
    when that value is [null]; only when the caller left it [undefined] does
    it hold the default producer's value, or else the literal default, or
    else [undefined]. *)
Theorem insert_applies_defaults {St : Type} (table : AnyTable)
    (input row : Row) (ctx : NormalizationContext St) (s s' : St) (column : ColumnDef) :
  NoDup (map col_name (Object_values (columns table))) ->
  column ∈ Object_values (columns table) ->
  identity (constraints column) = false ->
  normalizeInsertRow table input ctx s = (Ok row, s') ->
  get row (col_name column) =
    if is_undefined (get input (col_name column))
    then match defaultFn column with
         | Some producer => producer tt
         | None => defaultValue column
         end
    else get input (col_name column).
Proof.
  intros Hnd Hin Hid Hrun.
  apply normalizeInsertRow_columns in Hrun as [s1 Hfold].
  destruct (normalizeInsertColumns_value _ _ _ _ Hnd Hin _ _ _ _ Hfold) as (v & Hv & _ & Hres).
  unfold get at 1. rewrite Hv. simpl. apply Hres. by rewrite Hid, andb_false_r.
Qed.

(** Scenario 5, insert half: [updatedAt] left unset gets the producer's
    100. *)
Lemma insert_applies_defaults_witness :
  get (Scenario.row [("id", VNum 1); ("name", VStr "n"); ("updatedAt", VNum 100)])
      "updatedAt"
  = VNum 100.
Proof.
  refine (insert_applies_defaults Scenario.notes
            (Scenario.row [("name", VStr "n")]) _ Memory.makeContext
            (new_MemoryAdapter Scenario.notesSchema)
            (snd (normalizeInsertRow Scenario.notes (Scenario.row [("name", VStr "n")])
                    Memory.makeContext (new_MemoryAdapter Scenario.notesSchema)))
            Fixture.updatedAt_column _ _ _ _).
  - by_decide.
  - by_membership.
  - reflexivity.
  - vm_compute. reflexivity.
Defined.

(** ** The memory backend: single operations *)

(** A step of the column loop that does not allocate leaves the adapter as
    it is, whether it goes through or throws. *)
Lemma normalizeInsertColumn_no_allocation (table : AnyTable) (row0 : Row)
    (column : ColumnDef) (r : Result Row) (a a' : MemoryAdapter) :
  is_undefined (get row0 (col_name column)) && identity (constraints column) = false ->
  normalizeInsertColumn table Memory.makeContext row0 column a = (r, a') ->
  a' = a.
Proof.
  unfold normalizeInsertColumn, bind, ret, throw. simpl allocateIdentity.
  intros Hc H.
  destruct (is_undefined (get row0 (col_name column))) eqn:Hu;
    destruct (identity (constraints column)) eqn:Hid; simpl andb in *;
    try discriminate; repeat (case_match; simplify_eq); done.
Qed.

Lemma normalizeInsertColumns_no_allocation (table : AnyTable) (cols : list ColumnDef) :
  NoDup (map col_name cols) ->
  forall (row0 : Row) (r : Result Row) (a a' : MemoryAdapter),
    (forall c, c ∈ cols -> identity (constraints c) = true ->
               get row0 (col_name c) <> VUndefined) ->
    foldM (normalizeInsertColumn table Memory.makeContext) cols row0 a = (r, a') ->
    a' = a.
Proof.
  induction cols as [|col cols IH]; intros Hnd row0 r a a' Hset.
  - by intros [= _ <-].
  - apply NoDup_cons in Hnd as [Hfresh Hnd]. rewrite foldM_cons.
    assert (is_undefined (get row0 (col_name col)) && identity (constraints col) = false)
      as Hc.
    { destruct (identity (constraints col)) eqn:Hid; [|apply andb_false_r].
      rewrite andb_true_r.
      pose proof (Hset col (list_elem_of_here _ _) Hid) as Hne.
      by destruct (get row0 (col_name col)). }
    destruct (normalizeInsertColumn _ _ _ _ a) as [[row1|e] a1] eqn:E;
      pose proof (normalizeInsertColumn_no_allocation _ _ _ _ _ _ Hc E) as ->.
    + apply normalizeInsertColumn_value in E as (v & -> & _).
      apply IH; [done|]. intros c Hin Hid. unfold get.
      rewrite lookup_insert_ne; [by apply Hset; [apply list_elem_of_further|]|].
      intros Heq. apply Hfresh. rewrite Heq. by apply (list_elem_of_fmap_2 col_name).
    + by intros [= _ <-].
Qed.

(** X3.  On the memory backend, an insert of one row that supplies every
    identity column of the table leaves all sequence counters as they were,
    whether it commits or is rejected: the sequence is not moved past a
    caller-chosen identity. *)
Theorem insert_with_explicit_identity_keeps_counters (table : AnyTable) (input : Row)
    (r : Result (list Row)) (a a' : MemoryAdapter) :
  NoDup (map col_name (Object_values (columns table))) ->
  (forall c, c ∈ Object_values (columns table) -> identity (constraints c) = true ->
             get input (col_name c) <> VUndefined) ->
  Memory.insert table (One input) a = (r, a') ->
  sequences a' = sequences a.
Proof.
  intros Hnd Hset.
  assert (Hnorm : preserves same_sequences
                    (normalizeInsertRow table input Memory.makeContext)).
  { intros b rr b'. unfold normalizeInsertRow, bind, spread. rewrite (right_id_L ∅ (∪)).
    destruct (foldM _ _ _ b) as [[row1|e] b1] eqn:Hfold;
      pose proof (normalizeInsertColumns_no_allocation _ _ Hnd _ _ _ _ Hset Hfold) as ->.
    - destruct (ensureForeignKeys _ _ _ b) as [[[]|e] b2] eqn:Hfk;
        assert (b = b2) as <-
          by (eapply (preserves_ensureForeignKeys eq); [|exact Hfk];
              intros; apply ensureForeignKey_readonly);
        by intros [= _ <-].
    - by intros [= _ <-]. }
  assert (Hrow : preserves same_sequences
                   (Memory.insertRow table Memory.makeContext [] input)).
  { unfold Memory.insertRow. apply preserves_bind; [apply _|exact Hnorm|].
    intros normalized. apply preserves_bind; [apply _| |].
    { apply preserves_eq_any; [apply _|apply liftResult_readonly]. }
    intros pkc. apply preserves_bind; [apply _| |].
    { apply preserves_eq_any; [apply _|apply theStore_readonly]. }
    intros store. case_match; [apply preserves_throw; apply _|].
    apply preserves_bind; [apply _|apply mutateStore_sequences|].
    intros. apply preserves_ret; apply _. }
  unfold Memory.insert, Memory.insertRows. simpl toList. rewrite foldM_cons.
  destruct (Memory.insertRow _ _ _ _ a) as [[rs|e] a1] eqn:E;
    pose proof (Hrow _ _ _ E) as Hseq; simpl; by intros [= _ <-].
Qed.

(** An explicit identity 1 on a fresh adapter leaves the counter of [users]
    at 0, so the next automatic identity is 1 again and collides once. *)
Lemma insert_with_explicit_identity_witness :
  sequences (snd (Memory.insert Scenario.users
                    (One (Scenario.row [("id", VNum 1); ("name", VStr "x")]))
                    Fixture.fresh))
  = sequences Fixture.fresh.
Proof.
  refine (insert_with_explicit_identity_keeps_counters Scenario.users
            (Scenario.row [("id", VNum 1); ("name", VStr "x")])
            (fst (Memory.insert Scenario.users
                    (One (Scenario.row [("id", VNum 1); ("name", VStr "x")]))
                    Fixture.fresh))
            Fixture.fresh _ _ _ _).
  - by_decide.
  - intros c Hin Hid. vm_compute in Hin.
    repeat (apply elem_of_cons in Hin as [->|Hin]); try discriminate.
    by apply elem_of_nil in Hin.
  - by destruct (Memory.insert _ _ _).
Defined.

Example explicit_identity_then_collision :
  let explicit := snd (Memory.insert Scenario.users
                         (One (Scenario.row [("id", VNum 1); ("name", VStr "x")]))
                         Fixture.fresh) in
  let '(first, after) :=
    Memory.insert Scenario.users (One (Scenario.row [("name", VStr "y")])) explicit in
  first = Err (PrimaryKeyViolation "users" "id") /\
  fst (Memory.insert Scenario.users (One (Scenario.row [("name", VStr "y")])) after)
  = Ok [Scenario.row [("id", VNum 2); ("name", VStr "y")]].
Proof. vm_compute. split; reflexivity. Qed.

Lemma alter_present {V : Type} (f : V -> V) (k : string) (x : V) (m : gmap string V) :
  m !! k = Some x -> alter f k m = <[k := f x]> m.
Proof.
  intros Hk. apply map_eq. intros j. rewrite lookup_alter. case_decide; subst.
  - by rewrite Hk, lookup_insert_eq.
  - by rewrite lookup_insert_ne.
Qed.

Lemma Map_has_false (key : value) (store : Store) :
  Map_has key store = false <-> key ∉ map fst store.
Proof.
  unfold Map_has. induction store as [|[k r] store IH]; simpl.
  - split; [intros _; apply not_elem_of_nil|intros _; reflexivity].
  - destruct (decide (k = key)) as [->|Hk].
    + rewrite (bool_decide_eq_true_2 (key = key)) by done. split.
      * intros H. apply bool_decide_eq_false in H. destruct H. eauto.
      * intros H. destruct H. apply list_elem_of_here.
    + rewrite (bool_decide_eq_false_2 (k = key)) by done. rewrite IH.
      rewrite not_elem_of_cons. split; [intros H; split; [congruence|done]|by intros [_ H]].
Qed.

(** What a committed insert of one row did. *)
Lemma insert_one_ok (table : AnyTable) (input : Row) (rs : list Row)
    (a a' : MemoryAdapter) :
  Memory.insert table (One input) a = (Ok rs, a') ->
  exists r pkc store,
    rs = [r] /\
    primaryKeyColumn table = Ok pkc /\
    Memory.getStore a table = Some store /\
    Map_has (get r (col_name pkc)) store = false /\
    stores a' = <[storeName (schema a) table := store ++ [(get r (col_name pkc), r)]]>
                  (stores a) /\
    schema a' = schema a.
Proof.
  unfold Memory.insert, Memory.insertRows. simpl toList. rewrite foldM_cons.
  destruct (Memory.insertRow _ _ _ _ a) as [[rs1|e] a1] eqn:Hrow; [|discriminate].
  simpl. intros [= <- <-].
  apply insertRow_ok in Hrow as (normalized & a0 & pkc & store & Hn & Hpk & Hst & Hfree & -> & ->).
  destruct (normalizeInsertRow_stores _ _ _ _ _ Hn) as (Hs & Hsch & _).
  unfold Memory.getStore in *. rewrite Hs, Hsch in Hst.
  exists (applyComputedFields table normalized), pkc, store.
  repeat split; try done. simpl. rewrite Hs, Hsch.
  rewrite (alter_present _ _ _ _ Hst). by rewrite Map_set_fresh.
Qed.

(** X4.  On the memory backend, a committed insert of one row answers
    exactly one row; the table has a primary-key column, no entry of the store
    was under that row's primary-key value, and the store is the old one with
    the row appended last under that value.  No other store changes. *)
Theorem insert_appends_under_fresh_key (table : AnyTable) (input : Row) (rs : list Row)
    (a a' : MemoryAdapter) :
  Memory.insert table (One input) a = (Ok rs, a') ->
  exists r pkc store,
    rs = [r] /\
    primaryKeyColumn table = Ok pkc /\
    Memory.getStore a table = Some store /\
(get r (col_name pkc) ∉ map fst store) /\
    Memory.getStore a' table = Some (store ++ [(get r (col_name pkc), r)]) /\
    (forall name, name <> storeName (schema a) table -> stores a' !! name = stores a !! name).
Proof.
  intros Hrun.
  destruct (insert_one_ok _ _ _ _ _ Hrun) as (r & pkc & store & -> & Hpk & Hst & Hfree & Hs & Hsch).
  exists r, pkc, store. repeat split; try done.
  - by apply Map_has_false.
  - unfold Memory.getStore. by rewrite Hs, Hsch, lookup_insert_eq.
  - intros name Hne. by rewrite Hs, lookup_insert_ne.
Qed.

Lemma insert_appends_witness :
  exists r pkc store,
    [Scenario.row [("id", VNum 1); ("name", VStr "x")]] = [r] /\
    primaryKeyColumn Scenario.users = Ok pkc /\
    Memory.getStore Fixture.fresh Scenario.users = Some store /\
(get r (col_name pkc) ∉ map fst store) /\
    Memory.getStore Fixture.oneUser Scenario.users
    = Some (store ++ [(get r (col_name pkc), r)]) /\
    (forall name, name <> storeName (schema Fixture.fresh) Scenario.users ->
                  stores Fixture.oneUser !! name = stores Fixture.fresh !! name).
Proof.
  apply (insert_appends_under_fresh_key Scenario.users (Scenario.row [("name", VStr "x")])).
  vm_compute. reflexivity.
Defined.

Lemma applyQueryOptions_whereOnly (rows : list Row) (p : Row -> bool) :
  applyQueryOptions rows (Some (whereOnly p)) = filter (fun r => p r = true) rows.
Proof.
  unfold applyQueryOptions, whereOnly. simpl.
  rewrite (Array_slice_offset_limit _ 0) by lia.
  simpl. apply take_ge. lia.
Qed.

(** X5.  Insert, then look up: when every entry of a table's store sits
    under its row's primary-key value, a committed insert of one row followed
    by a select of the rows whose primary key equals the inserted row's
    answers exactly the inserted row. *)
Theorem insert_then_select_by_primary_key (table : AnyTable) (input r : Row)
    (a a' : MemoryAdapter) (pkc : ColumnDef) (store : Store) :
  primaryKeyColumn table = Ok pkc ->
  Memory.getStore a table = Some store ->
  keyed_by (col_name pkc) store ->
  Memory.insert table (One input) a = (Ok [r], a') ->
  Memory.select table
    (Some (whereOnly (fun row => strict_eq (get row (col_name pkc)) (get r (col_name pkc)))))
    a'
  = (Ok [r], a').
Proof.
  intros Hpk Hst Hkeyed Hrun.
  destruct (insert_one_ok _ _ _ _ _ Hrun)
    as (r' & pkc' & store' & [= <-] & Hpk' & Hst' & Hfree & Hs & Hsch).
  assert (pkc' = pkc) as -> by congruence. assert (store' = store) as -> by congruence.
  unfold Memory.select, Memory.selectRows, bind, Memory.theStore, Memory.getStore, ret.
  rewrite Hs, Hsch, lookup_insert_eq. do 2 f_equal.
  rewrite applyQueryOptions_whereOnly. unfold cloneRow, Map_values.
  rewrite map_id, map_app, filter_app. simpl.
  rewrite filter_cons_True by (unfold strict_eq; by apply bool_decide_eq_true).
  rewrite filter_nil.
  assert (filter (fun r0 : Row => strict_eq (get r0 (col_name pkc)) (get r (col_name pkc)) = true)
                 (map snd store) = []) as ->; [|done].
  apply Map_has_false in Hfree.
  clear -Hfree Hkeyed. induction store as [|[k row] store IH]; [done|]. simpl.
  simpl in Hfree. apply not_elem_of_cons in Hfree as [Hne Hfree].
  rewrite filter_cons_False.
  - apply IH;
      first [done|intros k' row' Hin; apply Hkeyed; by apply list_elem_of_further].
  - unfold strict_eq. rewrite bool_decide_eq_true.
    rewrite (Hkeyed k row (list_elem_of_here _ _)). congruence.
Qed.

(** With user 1 stored, inserting a second user and selecting by its key
    answers that user alone. *)
Lemma insert_then_select_witness :
  Memory.select Scenario.users
    (Some (whereOnly (fun row => strict_eq (get row "id") (VNum 2))))
    (snd (Memory.insert Scenario.users (One (Scenario.row [("name", VStr "y")]))
            Fixture.oneUser))
  = (Ok [Scenario.row [("id", VNum 2); ("name", VStr "y")]],
     snd (Memory.insert Scenario.users (One (Scenario.row [("name", VStr "y")]))
            Fixture.oneUser)).
Proof.
  refine (insert_then_select_by_primary_key Scenario.users
            (Scenario.row [("name", VStr "y")])
            (Scenario.row [("id", VNum 2); ("name", VStr "y")])
            Fixture.oneUser _ (Fixture.id_of Scenario.users)
            [(VNum 1, Scenario.row [("id", VNum 1); ("name", VStr "x")])] _ _ _ _).
  - reflexivity.
  - vm_compute. reflexivity.
  - intros k row Hin. apply elem_of_cons in Hin as [[= -> ->]|Hin]; [reflexivity|].
    by apply elem_of_nil in Hin.
  - vm_compute. reflexivity.
Defined.

(** An iteration of the loop of [deleteRows] that goes through either
    skipped its row or removed its entry. *)
Lemma deleteRow_ok (table : AnyTable) where_ dependents deleted k row b d b' :
  Memory.deleteRow table where_ dependents deleted (k, row) b = (Ok d, b') ->
  (where_ row = false /\ d = deleted /\ b' = b) \/
  (where_ row = true /\ d = deleted + 1 /\
   b' = with_stores (alter (Map_delete k) (storeName (schema b) table)) b).
Proof.
  unfold Memory.deleteRow. destruct (where_ row); [|intros [= <- <-]; by left].
  unfold negb, bind, Memory.liftResult.
  destruct (primaryKeyColumn table) as [pkc|e]; [|discriminate].
  destruct (Memory.assertRestrictDeleteMemory _ _ b) as [[[]|e] b1] eqn:E; [|discriminate].
  pose proof (assertRestrictDeleteMemory_readonly _ _ _ _ _ E) as <-.
  unfold Memory.mutateStore, ret. intros [= <- <-]. by right.
Qed.

Lemma deleteRows_ok_loop a (table : AnyTable) where_ dependents :
  forall todo kept deleted n a',
    NoDup (map fst (kept ++ todo)) ->
    foldM (Memory.deleteRow table where_ dependents) todo deleted
          (set_store (storeName (schema a) table) (kept ++ todo) a) = (Ok n, a') ->
    n = deleted + Z.of_nat (length (filter (fun e => where_ (snd e) = true) todo)) /\
    a' = set_store (storeName (schema a) table)
                   (kept ++ filter (fun e => where_ (snd e) = false) todo) a.
Proof.
  induction todo as [|[k row] rest IH]; intros kept deleted n a' Hnd.
  - intros [= <- <-]. split; [simpl; lia|done].
  - rewrite foldM_cons.
    destruct (Memory.deleteRow _ _ _ _ _ _) as [[d|e] b'] eqn:E; [|discriminate].
    apply deleteRow_ok in E as [(Hw & -> & ->)|(Hw & -> & ->)].
    + rewrite filter_cons_False, filter_cons_True by (simpl; congruence).
      replace (kept ++ (k, row) :: rest) with ((kept ++ [(k, row)]) ++ rest) in *
        by (by rewrite <- app_assoc).
      intros Hrest. destruct (IH _ _ _ _ Hnd Hrest) as [-> ->].
      by rewrite <- app_assoc.
    + change (schema (set_store _ _ a)) with (schema a).
      rewrite alter_set_store, Map_delete_middle.
      2:{ rewrite map_app in Hnd. apply NoDup_app in Hnd as (_ & Hdisj & _).
          intros Hin. apply (Hdisj _ Hin). simpl. apply list_elem_of_here. }
      rewrite filter_cons_True, filter_cons_False by (simpl; congruence).
      intros Hrest.
      assert (NoDup (map fst (kept ++ rest))) as Hnd'.
      { rewrite map_app in *. simpl in Hnd.
        apply NoDup_app in Hnd as (H1 & H2 & H3). apply NoDup_cons in H3 as [_ H3].
        apply NoDup_app. repeat split; [done| |done].
        intros x Hx Hx'. apply (H2 x Hx). by apply list_elem_of_further. }
      destruct (IH kept _ _ _ Hnd' Hrest) as [-> ->].
      simpl length. split; [lia|done].
Qed.

Lemma filter_out_then_in (p : Row -> bool) (store : Store) :
  filter (fun r => p r = true)
         (map snd (filter (fun e : value * Row => p (snd e) = false) store)) = [].
Proof.
  induction store as [|[k row] store IH]; [done|].
  destruct (p row) eqn:Hp.
  - by rewrite filter_cons_False by (simpl; congruence).
  - rewrite filter_cons_True by done. simpl.
    rewrite filter_cons_False by congruence. done.
Qed.

Lemma getStore_set_store (table : TableDef) (store : Store) (a : MemoryAdapter) :
  Memory.getStore (set_store (storeName (schema a) table) store a) table = Some store.
Proof. unfold Memory.getStore. simpl. apply lookup_insert_eq. Qed.

Lemma select_whereOnly (table : AnyTable) (p : Row -> bool) (store : Store)
    (a : MemoryAdapter) :
  Memory.getStore a table = Some store ->
  Memory.select table (Some (whereOnly p)) a
  = (Ok (filter (fun r => p r = true) (map snd store)), a).
Proof.
  intros Hst. unfold Memory.select, Memory.selectRows, bind, Memory.theStore, ret.
  rewrite Hst, applyQueryOptions_whereOnly. unfold cloneRow, Map_values.
  by rewrite map_id.
Qed.

(** X7.  On the memory backend (a store's keys being distinct), a delete
    that resolves has removed every row the predicate accepts and no other:
    it answers their number, the store keeps the refused rows in their order,
    the counters are untouched, and a select with the same predicate then
    answers no row. *)
Theorem delete_resolved_removes_every_match (table : AnyTable) (where_ : Row -> bool)
    (store : Store) (n : Z) (a a' : MemoryAdapter) :
  Memory.getStore a table = Some store ->
  NoDup (map fst store) ->
  Memory.delete table where_ a = (Ok n, a') ->
  n = Z.of_nat (length (filter (fun e => where_ (snd e) = true) store)) /\
  a' = set_store (storeName (schema a) table)
                 (filter (fun e => where_ (snd e) = false) store) a /\
  sequences a' = sequences a /\
  Memory.select table (Some (whereOnly where_)) a' = (Ok [], a').
Proof.
  intros Hstore Hnd Hrun.
  assert (Hloop : foldM (Memory.deleteRow table where_
                           (default [] (referenceMap a !! tbl_name table))) store 0
                        (set_store (storeName (schema a) table) ([] ++ store) a)
                  = (Ok n, a')).
  { simpl. rewrite (set_store_id _ _ _ Hstore). rewrite <- Hrun.
    unfold Memory.delete, Memory.deleteRows, bind, Memory.theStore. by rewrite Hstore. }
  destruct (deleteRows_ok_loop a table where_ _ store [] 0 n a' Hnd Hloop) as [-> ->].
  simpl app. split; [lia|]. split; [done|]. split; [done|].
  rewrite (select_whereOnly _ _ _ _ (getStore_set_store table _ a)).
  by rewrite filter_out_then_in.
Qed.

(** Deleting the todo of user 1 resolves with 1 and leaves no todo. *)
Lemma delete_resolved_witness :
  1 = Z.of_nat (length (filter (fun e : value * Row => Scenario.pkEquals "id" 1 (snd e) = true)
                               [(VNum 1, Scenario.row [("id", VNum 1); ("title", VStr "t");
                                                       ("ownerId", VNum 1)])])) /\
  snd (Memory.delete Scenario.todos (Scenario.pkEquals "id" 1) Fixture.userWithTodo)
  = set_store (storeName (schema Fixture.userWithTodo) Scenario.todos)
      (filter (fun e : value * Row => Scenario.pkEquals "id" 1 (snd e) = false)
              [(VNum 1, Scenario.row [("id", VNum 1); ("title", VStr "t");
                                      ("ownerId", VNum 1)])])
      Fixture.userWithTodo /\
  sequences (snd (Memory.delete Scenario.todos (Scenario.pkEquals "id" 1)
                    Fixture.userWithTodo))
  = sequences Fixture.userWithTodo /\
  Memory.select Scenario.todos (Some (whereOnly (Scenario.pkEquals "id" 1)))
    (snd (Memory.delete Scenario.todos (Scenario.pkEquals "id" 1) Fixture.userWithTodo))
  = (Ok [], snd (Memory.delete Scenario.todos (Scenario.pkEquals "id" 1)
                   Fixture.userWithTodo)).
Proof.
  apply (delete_resolved_removes_every_match Scenario.todos (Scenario.pkEquals "id" 1)).
  - vm_compute. reflexivity.
  - by_decide.
  - vm_compute. reflexivity.
Defined.

Lemma normalizeUpdateRow_readonly (table : AnyTable) (existing patch : Row) :
  preserves eq (normalizeUpdateRow table existing patch Memory.makeContext).
Proof.
  apply preserves_normalizeUpdateRow; [apply _|].
  intros. apply ensureForeignKey_readonly.
Qed.

(** An iteration of the loop of [updateRows] that goes through either
    skipped its row or replaced the value under its key. *)
Lemma updateRow_ok (table : AnyTable) where_ patch updated k row b u b' :
  Memory.updateRow table where_ patch Memory.makeContext updated (k, row) b = (Ok u, b') ->
  (where_ row = false /\ u = updated /\ b' = b) \/
  (where_ row = true /\ u = updated + 1 /\
   exists next,
     b' = with_stores (alter (Map_set k next) (storeName (schema b) table)) b).
Proof.
  unfold Memory.updateRow. destruct (where_ row); [|intros [= <- <-]; by left].
  unfold negb, bind.
  destruct (normalizeUpdateRow _ _ _ _ b) as [[next|e] b1] eqn:E; [|discriminate].
  pose proof (normalizeUpdateRow_readonly _ _ _ _ _ _ E) as <-.
  unfold Memory.mutateStore, ret, cloneRow. intros [= <- <-]. right. eauto.
Qed.

Lemma Map_set_middle (kept rest : Store) key row next :
  key ∉ map fst kept ->
  Map_set key next (kept ++ (key, row) :: rest) = kept ++ (key, next) :: rest.
Proof.
  induction kept as [|[k r] kept IH]; simpl; intros Hk.
  - by rewrite bool_decide_eq_true_2.
  - apply not_elem_of_cons in Hk as [Hne Hk].
    rewrite bool_decide_eq_false_2 by done. by rewrite IH.
Qed.

Lemma updateRows_ok_loop a (table : AnyTable) where_ patch :
  forall todo kept updated n a',
    NoDup (map fst (kept ++ todo)) ->
    foldM (Memory.updateRow table where_ patch Memory.makeContext) todo updated
          (set_store (storeName (schema a) table) (kept ++ todo) a) = (Ok n, a') ->
    exists todo',
      n = updated + Z.of_nat (length (filter (fun e => where_ (snd e) = true) todo)) /\
      a' = set_store (storeName (schema a) table) (kept ++ todo') a /\
      Forall2 (fun e e' => fst e' = fst e /\ (where_ (snd e) = false -> e' = e)) todo todo'.
Proof.
  induction todo as [|[k row] rest IH]; intros kept updated n a' Hnd.
  - intros [= <- <-]. exists []. split; [simpl; lia|]. split; [done|constructor].
  - rewrite foldM_cons.
    destruct (Memory.updateRow _ _ _ _ _ _ _) as [[u|e] b'] eqn:E; [|discriminate].
    apply updateRow_ok in E as [(Hw & -> & ->)|(Hw & -> & next & ->)].
    + rewrite filter_cons_False by (simpl; congruence).
      replace (kept ++ (k, row) :: rest) with ((kept ++ [(k, row)]) ++ rest) in *
        by (by rewrite <- app_assoc).
      intros Hrest. destruct (IH _ _ _ _ Hnd Hrest) as (todo' & -> & -> & Hall).
      exists ((k, row) :: todo'). split; [done|]. split; [by rewrite <- app_assoc|].
      by constructor.
    + change (schema (set_store _ _ a)) with (schema a).
      rewrite alter_set_store, Map_set_middle.
      2:{ rewrite map_app in Hnd. apply NoDup_app in Hnd as (_ & Hdisj & _).
          intros Hin. apply (Hdisj _ Hin). simpl. apply list_elem_of_here. }
      rewrite filter_cons_True by (simpl; congruence).
      replace (kept ++ (k, next) :: rest) with ((kept ++ [(k, next)]) ++ rest)
        by (by rewrite <- app_assoc).
      intros Hrest.
      assert (NoDup (map fst ((kept ++ [(k, next)]) ++ rest))) as Hnd'.
      { rewrite <- app_assoc. simpl. rewrite map_app in *. exact Hnd. }
      destruct (IH _ _ _ _ Hnd' Hrest) as (todo' & -> & -> & Hall).
      exists ((k, next) :: todo'). split; [simpl length; lia|].
      split; [by rewrite <- app_assoc|].
      constructor; [|done]. split; [done|]. simpl. congruence.
Qed.

(** X6.  On the memory backend (a store's keys being distinct), an update
    that resolves answers the number of rows the predicate accepts; the store
    keeps its keys in their order, also when the patch sets the primary-key
    column, and every row the predicate refuses is unchanged.  Other stores
    and the counters are untouched. *)
Theorem update_resolved_keeps_keys (table : AnyTable) (where_ : Row -> bool)
    (patch : Row) (store : Store) (n : Z) (a a' : MemoryAdapter) :
  Memory.getStore a table = Some store ->
  NoDup (map fst store) ->
  Memory.update table where_ patch a = (Ok n, a') ->
  exists store',
    a' = set_store (storeName (schema a) table) store' a /\
    n = Z.of_nat (length (filter (fun e => where_ (snd e) = true) store)) /\
    map fst store' = map fst store /\
    Forall2 (fun e e' => where_ (snd e) = false -> e' = e) store store'.
Proof.
  intros Hstore Hnd Hrun.
  assert (Hloop : foldM (Memory.updateRow table where_ patch Memory.makeContext) store 0
                        (set_store (storeName (schema a) table) ([] ++ store) a)
                  = (Ok n, a')).
  { simpl. rewrite (set_store_id _ _ _ Hstore). rewrite <- Hrun.
    unfold Memory.update, Memory.updateRows, bind, Memory.theStore. by rewrite Hstore. }
  destruct (updateRows_ok_loop a table where_ patch store [] 0 n a' Hnd Hloop)
    as (store' & -> & -> & Hall).
  exists store'. split; [done|]. split; [lia|]. split.
  - clear -Hall. induction Hall as [|e e' l l' [He _] _ IH]; simpl; [done|].
    by rewrite He, IH.
  - eapply Forall2_impl; [exact Hall|]. by intros e e' [_ H].
Qed.

(** Renaming user 1 and setting its [id] to 7 leaves the entry under key 1. *)
Lemma update_resolved_witness :
  exists store',
    snd (Memory.update Scenario.users (Scenario.pkEquals "id" 1)
           (Scenario.row [("id", VNum 7)]) Fixture.oneUser)
    = set_store (storeName (schema Fixture.oneUser) Scenario.users) store' Fixture.oneUser /\
    1 = Z.of_nat (length (filter (fun e : value * Row => Scenario.pkEquals "id" 1 (snd e) = true)
                                 [(VNum 1, Scenario.row [("id", VNum 1); ("name", VStr "x")])])) /\
    map fst store' = map fst [(VNum 1, Scenario.row [("id", VNum 1); ("name", VStr "x")])] /\
    Forall2 (fun e e' : value * Row => Scenario.pkEquals "id" 1 (snd e) = false -> e' = e)
            [(VNum 1, Scenario.row [("id", VNum 1); ("name", VStr "x")])] store'.
Proof.
  apply (update_resolved_keeps_keys Scenario.users (Scenario.pkEquals "id" 1)
           (Scenario.row [("id", VNum 7)])).
  - vm_compute. reflexivity.
  - by_decide.
  - vm_compute. reflexivity.
Defined.

Example update_of_primary_key_keeps_old_key :
  Memory.getStore
    (snd (Memory.update Scenario.users (Scenario.pkEquals "id" 1)
            (Scenario.row [("id", VNum 7)]) Fixture.oneUser))
    Scenario.users
  = Some [(VNum 1, Scenario.row [("id", VNum 7); ("name", VStr "x")])].
Proof. vm_compute. reflexivity. Qed.



(** An insert into a table without a store still consumes an identity. *)
Example unknown_table_insert_moves_counter :
  let '(r, after) := Memory.insert Scenario.notes (One (Scenario.row [])) Fixture.fresh in
  r = Err TypeError /\ counter after "app__notes" = 1.
Proof. vm_compute. split; reflexivity. Qed.

(** ** The constructor of the memory backend *)

Lemma fresh_stores_lookup (sch : SchemaDef) (ts : list TableDef) (m : gmap string Store)
    (name : string) :
  fold_left (fun stores table => <[storeName sch table := []]> stores) ts m !! name
  = if bool_decide (name ∈ map (storeName sch) ts) then Some [] else m !! name.
Proof.
  revert m. induction ts as [|t ts IH]; intros m; simpl; [done|].
  rewrite IH. destruct (decide (storeName sch t = name)) as [<-|Hne].
  - rewrite lookup_insert_eq.
    rewrite (bool_decide_eq_true_2 (storeName sch t ∈ storeName sch t :: _))
      by apply list_elem_of_here.
    by case_bool_decide.
  - rewrite lookup_insert_ne by done.
    case_bool_decide as H1; case_bool_decide as H2; try done.
    + destruct H2. by apply list_elem_of_further.
    + apply elem_of_cons in H2 as [?|?]; [congruence|done].
Qed.

(** X9.  A new memory adapter holds one empty store for every table of its
    schema and no other store, and no sequence counter; so a select on any
    table of the schema answers no row. *)
Theorem new_MemoryAdapter_is_empty (sch : SchemaDef) :
  (forall table, table ∈ Object_values (tables sch) ->
                 Memory.getStore (new_MemoryAdapter sch) table = Some []) /\
  (forall name store,
      stores (new_MemoryAdapter sch) !! name = Some store ->
      store = [] /\ exists table, table ∈ Object_values (tables sch) /\
                                  name = storeName sch table) /\
  sequences (new_MemoryAdapter sch) = ∅ /\
  (forall (table : AnyTable), def table ∈ Object_values (tables sch) ->
      Memory.select table None (new_MemoryAdapter sch) = (Ok [], new_MemoryAdapter sch)).
Proof.
  assert (Hget : forall table, table ∈ Object_values (tables sch) ->
                   Memory.getStore (new_MemoryAdapter sch) table = Some []).
  { intros table Hin. unfold Memory.getStore. simpl. rewrite fresh_stores_lookup.
    rewrite bool_decide_eq_true_2; [done|]. by apply (list_elem_of_fmap_2 (storeName sch)). }
  split; [done|]. split; [|split; [done|]].
  - intros name store. simpl. rewrite fresh_stores_lookup.
    case_bool_decide as Hin; [|by rewrite lookup_empty].
    intros [= <-]. split; [done|].
    apply (list_elem_of_fmap_1 (storeName sch)) in Hin as (t & -> & Ht). eauto.
  - intros table Hin.
    unfold Memory.select, Memory.selectRows, bind, Memory.theStore. by rewrite (Hget _ Hin).
Qed.

(** ** The reverse dependency map and store names *)

Lemma buildReferenceMap_columns (table : TableDef) (name : string)
    (cols : list ColumnDef) (m : gmap string (list ForeignReference)) :
  default [] (fold_left (fun map column =>
                match foreignKey column with
                | None => map
                | Some fk =>
                    let collection := default [] (map !! tableName fk) in
                    <[tableName fk := collection ++ [{| ref_table := table;
                                                        ref_column := column |}]]> map
                end) cols m !! name)
  = default [] (m !! name) ++
    flat_map (fun column =>
                match foreignKey column with
                | Some fk =>
                    if bool_decide (tableName fk = name)
                    then [{| ref_table := table; ref_column := column |}]
                    else []
                | None => []
                end) cols.
Proof.
  revert m. induction cols as [|col cols IH]; intros m; simpl.
  - by rewrite app_nil_r.
  - rewrite IH. destruct (foreignKey col) as [fk|]; [|done].
    case_bool_decide as Hfk.
    + subst name. rewrite lookup_insert_eq. simpl. by rewrite <- app_assoc.
    + by rewrite lookup_insert_ne.
Qed.

(** X10.  The reverse dependency map built for an adapter lists, under a
    table name, exactly the foreign-key columns of the schema that target
    that name: table by table in schema order, column by column in
    declaration order; a name no column targets has no entry. *)
Theorem buildReferenceMap_lists_referencing_columns (sch : SchemaDef) (name : string) :
  default [] (buildReferenceMap sch !! name) = referencesTo sch name /\
  (buildReferenceMap sch !! name = None <-> referencesTo sch name = []).
Proof.
  unfold buildReferenceMap, referencesTo.
  assert (Hgen : forall ts (m : gmap string (list ForeignReference)),
    (forall k l, m !! k = Some l -> l <> []) ->
    let m' := fold_left (fun map table =>
                fold_left (fun map column =>
                  match foreignKey column with
                  | None => map
                  | Some fk =>
                      let collection := default [] (map !! tableName fk) in
                      <[tableName fk := collection ++ [{| ref_table := table;
                                                          ref_column := column |}]]> map
                  end) (Object_values (columns table)) map) ts m in
    default [] (m' !! name)
    = default [] (m !! name) ++ flat_map (fun table => referencesFrom table name) ts
    /\ (forall k l, m' !! k = Some l -> l <> [])).
  { induction ts as [|t ts IH]; intros m Hm; simpl.
    - by rewrite app_nil_r.
    - match goal with |- context [fold_left _ ts ?m1] => specialize (IH m1) end.
      assert (Hinner : forall cols (m0 : gmap string (list ForeignReference)),
        (forall k l, m0 !! k = Some l -> l <> []) ->
        forall k l,
          fold_left (fun map column =>
            match foreignKey column with
            | None => map
            | Some fk =>
                let collection := default [] (map !! tableName fk) in
                <[tableName fk := collection ++ [{| ref_table := t;
                                                    ref_column := column |}]]> map
            end) cols m0 !! k = Some l -> l <> []).
      { clear. induction cols as [|col cols IHc]; intros m Hm; simpl; [done|].
        apply IHc. destruct (foreignKey col) as [fk|]; [|done].
        intros k l. destruct (decide (tableName fk = k)) as [<-|Hne].
        * rewrite lookup_insert_eq. intros [= <-]. by destruct (default [] _).
        * rewrite lookup_insert_ne by done. apply Hm. }
      destruct (IH (Hinner _ _ Hm)) as [IH1 IH2].
      split; [|exact IH2]. etrans; [exact IH1|].
      rewrite buildReferenceMap_columns. by rewrite <- app_assoc. }
  destruct (Hgen (Object_values (tables sch)) ∅) as [H1 H2].
  { intros k l. by rewrite lookup_empty. }
  rewrite lookup_empty in H1. simpl in H1. split; [done|].
  split.
  - intros Hnone. rewrite <- H1, Hnone. done.
  - intros Hnil. destruct (_ !! name) as [l|] eqn:E; [|done].
    exfalso. apply (H2 _ _ E). rewrite <- H1 in Hnil. done.
Qed.

Lemma string_app_inv_head (p a b : string) : (p ++ a)%string = (p ++ b)%string -> a = b.
Proof. induction p as [|c p IH]; simpl; [done|]. intros [= H]. by apply IH. Qed.


(** ** The query evaluator *)

Lemma applyQueryOptions_orderedRows (rows : list Row) (options : QueryOptions) :
  applyQueryOptions rows (Some options)
  = Array_slice (orderedRows rows options)
      (default 0 (offset options))
      (default 0 (offset options)
       + default (Z.of_nat (length (orderedRows rows options))) (limit options)).
Proof. reflexivity. Qed.

Lemma sort_insert_Permutation {A : Type} (cmp : A -> A -> Z) (x : A) (l : list A) :
  sort_insert cmp x l ≡ₚ x :: l.
Proof.
  induction l as [|y l IH]; simpl; [done|].
  destruct (cmp x y <=? 0); [done|]. rewrite IH. apply Permutation_swap.
Qed.

Lemma Array_sort_Permutation {A : Type} (cmp : A -> A -> Z) (l : list A) :
  Array_sort cmp l ≡ₚ l.
Proof.
  induction l as [|x l IH]; simpl; [done|].
  by rewrite sort_insert_Permutation, IH.
Qed.

Lemma Array_slice_sublist {A : Type} (xs : list A) (start stop : Z) :
  Array_slice xs start stop `sublist_of` xs.
Proof.
  unfold Array_slice. etrans; [apply sublist_take|apply sublist_drop].
Qed.

Lemma orderedRows_Permutation (rows : list Row) (options : QueryOptions) :
  orderedRows rows options ≡ₚ
  match where_ options with
  | Some p => filter (fun row => p row = true) rows
  | None => rows
  end.
Proof.
  unfold orderedRows. destruct (orderBy_selector _) as [selector|]; [|done].
  destruct (order options) as [[]|]; rewrite ?reverse_Permutation;
    apply Array_sort_Permutation.
Qed.

(** X12.  Whatever the options, a query answers a sub-multiset of the rows
    it was given: it never invents a row and never answers one row more
    often than it occurs; and with a [where] predicate every answered row
    satisfies it. *)
Theorem applyQueryOptions_selects_from_rows (rows : list Row)
    (options : option QueryOptions) :
  applyQueryOptions rows options ⊆+ rows /\
  Forall (fun row => match options ≫= where_ with
                     | Some p => p row = true
                     | None => True
                     end) (applyQueryOptions rows options).
Proof.
  destruct options as [options|]; [|simpl; split; [done|by apply Forall_forall]].
  change (Some options ≫= where_) with (where_ options).
  rewrite applyQueryOptions_orderedRows.
  assert (Hsub : Array_slice (orderedRows rows options) (default 0 (offset options))
                   (default 0 (offset options)
                    + default (Z.of_nat (length (orderedRows rows options)))
                        (limit options))
                 ⊆+ match where_ options with
                    | Some p => filter (fun row => p row = true) rows
                    | None => rows
                    end).
  { rewrite <- orderedRows_Permutation. apply sublist_submseteq, Array_slice_sublist. }
  split.
  - etrans; [exact Hsub|]. destruct (where_ options); [|done].
    apply sublist_submseteq, sublist_filter.
  - apply Forall_forall. intros row Hin. destruct (where_ options) as [p|]; [|done].
    eapply elem_of_submseteq in Hin; [|exact Hsub].
    by apply list_elem_of_filter in Hin as [? _].
Qed.

(** X13.  Paging.  With a non-negative offset and non-negative limits, a
    page holds at most [limit] rows, and the page after it starts where it
    stops: the two, one after the other, are the page of the summed limit. *)
Theorem pages_concatenate (rows : list Row) (options : QueryOptions) (off n m : Z) :
  0 <= off -> 0 <= n -> 0 <= m ->
  applyQueryOptions rows (Some (page options off n))
    ++ applyQueryOptions rows (Some (page options (off + n) m))
  = applyQueryOptions rows (Some (page options off (n + m))) /\
  (length (applyQueryOptions rows (Some (page options off n))) <= Z.to_nat n)%nat.
Proof.
  intros Hoff Hn Hm. rewrite !applyQueryOptions_orderedRows. simpl.
  change (orderedRows rows (page options off n)) with (orderedRows rows options).
  change (orderedRows rows (page options (off + n) m)) with (orderedRows rows options).
  change (orderedRows rows (page options off (n + m))) with (orderedRows rows options).
  rewrite !Array_slice_offset_limit by lia. split.
  - replace (Z.to_nat (off + n)) with (Z.to_nat off + Z.to_nat n)%nat by lia.
    replace (Z.to_nat (n + m)) with (Z.to_nat n + Z.to_nat m)%nat by lia.
    rewrite <- drop_drop. apply take_take_drop.
  - rewrite length_take. lia.
Qed.

Lemma pages_concatenate_witness :
  applyQueryOptions Scenario.items (Some (page Scenario.pageQuery 0 1))
    ++ applyQueryOptions Scenario.items (Some (page Scenario.pageQuery (0 + 1) 1))
  = applyQueryOptions Scenario.items (Some (page Scenario.pageQuery 0 (1 + 1))) /\
  (length (applyQueryOptions Scenario.items (Some (page Scenario.pageQuery 0 1)))
   <= Z.to_nat 1)%nat.
Proof. apply (pages_concatenate Scenario.items Scenario.pageQuery 0 1 1); lia. Defined.

(** X14.  A negative limit is not rejected: with no offset it is handed to
    [slice] as a negative end, which counts from the end of the array, so
    the query answers all ordered rows but the last [-limit]. *)
Theorem negative_limit_drops_from_the_end (rows : list Row) (options : QueryOptions)
    (lim : Z) :
  lim < 0 ->
  applyQueryOptions rows (Some (page options 0 lim))
  = take (length (orderedRows rows options) - Z.to_nat (- lim))
         (orderedRows rows options).
Proof.
  intros Hlim. rewrite applyQueryOptions_orderedRows. simpl.
  change (orderedRows rows (page options 0 lim)) with (orderedRows rows options).
  unfold Array_slice, relative_index. rewrite Z.add_0_l.
  change (0 <? 0) with false. cbv iota.
  destruct (Z.ltb_spec lim 0) as [_|?]; [|lia].
  rewrite Z.min_l by lia. change (Z.to_nat 0) with 0%nat. rewrite drop_0.
  f_equal. lia.
Qed.

Lemma negative_limit_witness :
  applyQueryOptions Scenario.items (Some (page Scenario.pageQuery 0 (-1)))
  = take (length (orderedRows Scenario.items Scenario.pageQuery) - Z.to_nat (- (-1)))
         (orderedRows Scenario.items Scenario.pageQuery).
Proof. apply (negative_limit_drops_from_the_end Scenario.items Scenario.pageQuery (-1)); lia. Defined.

(** The five rows hold two with [v = 1], ids 4 and 1 in descending order:
    limit [-1] answers the first of them only. *)
Example negative_limit_on_the_items :
  map (fun r => get r "id")
    (applyQueryOptions Scenario.items (Some (page Scenario.pageQuery 0 (-1))))
  = [VNum 4].
Proof. vm_compute. reflexivity. Qed.

(** ** The predicate combinators *)

Lemma string_ltb_irrefl (a : string) : string_ltb a a = false.
Proof.
  induction a as [|c a IH]; simpl; [done|].
  by rewrite Nat.ltb_irrefl.
Qed.

Lemma string_ltb_antisym (a b : string) :
  string_ltb a b = true -> string_ltb b a = false.
Proof.
  revert b. induction a as [|x a IH]; intros [|y b]; simpl; try done.
  destruct (Nat.ltb_spec (Ascii.nat_of_ascii x) (Ascii.nat_of_ascii y)) as [Hlt|Hge].
  - intros _. destruct (Nat.ltb_spec (Ascii.nat_of_ascii y) (Ascii.nat_of_ascii x)); [lia|].
    done.
  - destruct (Nat.ltb_spec (Ascii.nat_of_ascii y) (Ascii.nat_of_ascii x)); [done|].
    apply IH.
Qed.

Lemma string_ltb_total (a b : string) :
  string_ltb a b = false -> string_ltb b a = false -> a = b.
Proof.
  revert b. induction a as [|x a IH]; intros [|y b]; simpl; try done.
  destruct (Nat.ltb_spec (Ascii.nat_of_ascii x) (Ascii.nat_of_ascii y)) as [Hlt|Hge];
    [done|].
  destruct (Nat.ltb_spec (Ascii.nat_of_ascii y) (Ascii.nat_of_ascii x)) as [Hlt|Hge'];
    [done|].
  intros H1 H2. f_equal; [|by apply IH].
  rewrite <- (Ascii.ascii_nat_embedding x), <- (Ascii.ascii_nat_embedding y).
  f_equal. lia.
Qed.



(** X16.  Conjunction and disjunction in a query.  Selecting with
    [and(p, ...ps)] is selecting with [p] and then, among the answers, with
    [and(...ps)]; [and()] of no predicate selects every row and [or()] of
    none selects no row; and a row is selected by [or(p, ...ps)] exactly
    when it is selected by [p] or by [or(...ps)]. *)
Theorem and_or_in_where (rows : list Row) (p : Row -> bool) (ps : list (Row -> bool)) :
  applyQueryOptions rows (Some (whereOnly (Predicates.and (p :: ps))))
  = applyQueryOptions
      (applyQueryOptions rows (Some (whereOnly p)))
      (Some (whereOnly (Predicates.and ps))) /\
  applyQueryOptions rows (Some (whereOnly (Predicates.and []))) = rows /\
  applyQueryOptions rows (Some (whereOnly (Predicates.or []))) = [] /\
  (forall row,
     row ∈ applyQueryOptions rows (Some (whereOnly (Predicates.or (p :: ps)))) <->
     row ∈ applyQueryOptions rows (Some (whereOnly p)) \/
     row ∈ applyQueryOptions rows (Some (whereOnly (Predicates.or ps)))).
Proof.
  rewrite !applyQueryOptions_whereOnly. repeat split.
  - rewrite list_filter_filter. apply list_filter_iff. intros row.
    unfold Predicates.and. simpl forallb. rewrite andb_true_iff. tauto.
  - induction rows as [|r rows IH]; [done|].
    rewrite filter_cons_True by done. by rewrite IH.
  - induction rows as [|r rows IH]; [done|].
    by rewrite filter_cons_False by done.
  - rewrite list_elem_of_filter. unfold Predicates.or at 1. simpl existsb.
    intros [Hor Hin]. apply orb_true_iff in Hor as [Hp|Hps].
    + left. by apply list_elem_of_filter.
    + right. by apply list_elem_of_filter.
  - rewrite !list_elem_of_filter. unfold Predicates.or at 2. simpl existsb.
    intros [[Hp Hin]|[Hps Hin]]; (split; [|done]); apply orb_true_iff; auto.
Qed.

(** ** The schema builders *)

Lemma shape_lookup (built : list (string * ColumnDef))
    (base : gmap string ShapeProperty) (k : string) :
  NoDup (map fst built) ->
  let shape := fold_left (fun shape '(key, column) => <[key := PColumn column]> shape)
                         built base in
  (forall column, (k, column) ∈ built -> shape !! k = Some (PColumn column)) /\
  (k ∉ map fst built -> shape !! k = base !! k).
Proof.
  revert base. induction built as [|[k0 c0] built IH]; intros base Hnd; simpl.
  - split; [|done]. intros column Hin. by apply elem_of_nil in Hin.
  - apply NoDup_cons in Hnd as [Hk0 Hnd].
    destruct (IH (<[k0 := PColumn c0]> base) Hnd) as [IHin IHout].
    split.
    + intros column Hin. apply elem_of_cons in Hin as [[= -> ->]|Hin].
      * rewrite IHout by done. by rewrite lookup_insert_eq.
      * by apply IHin.
    + intros Hout. apply not_elem_of_cons in Hout as [Hne Hout].
      rewrite IHout by done. by rewrite lookup_insert_ne.
Qed.

Lemma built_keys (declared : list (string * Builders.ColumnBuilder)) :
  map fst (map (fun '(columnName, builder) =>
                  (columnName, Builders.build builder columnName)) declared)
  = map fst declared.
Proof. induction declared as [|[k b] l IH]; simpl; [done|]. by rewrite IH. Qed.

Lemma tableShape_table (name : string)
    (declared : list (string * Builders.ColumnBuilder))
    (indexesFactory : option (list (string * ColumnDef) -> list IndexDef))
    (shape : gmap string ShapeProperty) :
  tableShape name declared indexesFactory = Ok shape ->
  exists t,
    Builders.table name declared indexesFactory = Ok t /\
    tbl_name t = name /\
    columns t = map (fun '(columnName, builder) =>
                       (columnName, Builders.build builder columnName)) declared /\
    shape = fold_left (fun shape '(key, column) => <[key := PColumn column]> shape)
              (columns t)
              (<["indexes" := PIndexes (indexes t)]>
                 (<["columns" := PColumns (columns t)]>
                    (<["name" := PName name]> {["kind" := PKind]}))).
Proof.
  unfold tableShape, Builders.table.
  destruct (negb _); [done|]. intros [= <-]. eexists. split; [reflexivity|]. done.
Qed.

(** X17.  The object [table()] returns carries every built column under the
    column's key, assigned after the table's own properties.  So the runtime
    reads the declared table off it (its name, its columns, its indexes)
    exactly when no column is keyed [name], [columns] or [indexes]; a column
    keyed so takes the place of that property. *)
Theorem table_object_shadowed_by_column_keys (name : string)
    (declared : list (string * Builders.ColumnBuilder))
    (indexesFactory : option (list (string * ColumnDef) -> list IndexDef))
    (shape : gmap string ShapeProperty) :
  NoDup (map fst declared) ->
  tableShape name declared indexesFactory = Ok shape ->
  exists t,
    Builders.table name declared indexesFactory = Ok t /\
    (forall key builder, (key, builder) ∈ declared ->
       shape !! key = Some (PColumn (Builders.build builder key))) /\
    (asTableDef shape = Some t <->
     Forall (fun property => property ∉ map fst declared) tableProperties).
Proof.
  intros Hnd Hshape.
  destruct (tableShape_table _ _ _ _ Hshape) as (t & Ht & Hname & Hcols & ->).
  exists t. split; [done|].
  assert (Hnd' : NoDup (map fst (columns t))) by (by rewrite Hcols, built_keys).
  assert (Hkeys : map fst (columns t) = map fst declared)
    by (by rewrite Hcols, built_keys).
  set (base := <["indexes" := PIndexes (indexes t)]> _).
  assert (Hin : forall key builder, (key, builder) ∈ declared ->
            (key, Builders.build builder key) ∈ columns t).
  { intros key builder Hin. rewrite Hcols.
    apply (list_elem_of_fmap_2 (fun '(columnName, builder) =>
             (columnName, Builders.build builder columnName)) _ (key, builder) Hin). }
  split.
  - intros key builder Hkb.
    by apply (proj1 (shape_lookup (columns t) base key Hnd')), Hin.
  - unfold asTableDef, tableProperties. rewrite <- Hkeys. split.
    + intros Hread. repeat apply Forall_cons_2; [| | |apply Forall_nil_2].
      all: intros Hk; apply list_elem_of_fmap in Hk as ([k c] & Hkey & Hk);
        simpl in Hkey; subst k;
        rewrite (proj1 (shape_lookup (columns t) base _ Hnd') _ Hk) in Hread;
        repeat case_match; simplify_eq.
    + intros Hfree.
      apply Forall_cons in Hfree as [H1 Hfree].
      apply Forall_cons in Hfree as [H2 Hfree].
      apply Forall_cons in Hfree as [H3 _].
      rewrite !(proj2 (shape_lookup (columns t) base _ Hnd')) by done.
      subst base. rewrite <- Hname. by destruct t.
Qed.

Lemma table_object_shadowed_witness :
  exists t,
    Builders.table "pair" Scenario.pair_columns None = Ok t /\
    (forall key builder, (key, builder) ∈ Scenario.pair_columns ->
       Scenario.orElse (tableShape "pair" Scenario.pair_columns None) ∅ !! key
       = Some (PColumn (Builders.build builder key))) /\
    (asTableDef (Scenario.orElse (tableShape "pair" Scenario.pair_columns None) ∅) = Some t <->
     Forall (fun property => property ∉ map fst Scenario.pair_columns) tableProperties).
Proof.
  apply (table_object_shadowed_by_column_keys "pair" Scenario.pair_columns None).
  - by_decide.
  - reflexivity.
Defined.

(** A table with a column keyed [name]: the object answers the column where
    the runtime reads the table's name. *)
Example column_keyed_name_replaces_the_table_name :
  let declared := [("id", Builders.ColumnBuilder_primaryKey (Builders.scalar KInt));
                   ("name", Builders.scalar KText)] in
  (Scenario.orElse (tableShape "users" declared None) ∅) !! "name"
  = Some (PColumn (Builders.build (Builders.scalar KText) "name")) /\
  asTableDef (Scenario.orElse (tableShape "users" declared None) ∅) = None.
Proof. split; vm_compute; reflexivity. Qed.

(** X18.  A table read off the object [table()] returned has the name it
    was declared with, its columns under the declared keys in declaration
    order, every column named after its key and without foreign-key
    metadata; so no two of its columns share a name. *)
Theorem table_names_columns_after_their_keys (name : string)
    (declared : list (string * Builders.ColumnBuilder))
    (indexesFactory : option (list (string * ColumnDef) -> list IndexDef))
    (shape : gmap string ShapeProperty) (t : TableDef) :
  NoDup (map fst declared) ->
  tableShape name declared indexesFactory = Ok shape ->
  asTableDef shape = Some t ->
  tbl_name t = name /\
  map fst (columns t) = map fst declared /\
  Forall (fun entry => col_name (snd entry) = fst entry /\
                       foreignKey (snd entry) = None) (columns t) /\
  NoDup (map col_name (Object_values (columns t))).
Proof.
  intros Hnd Hshape Hread.
  destruct (tableShape_table _ _ _ _ Hshape) as (t' & Ht & Hname & Hcols & ->).
  assert (Hnd' : NoDup (map fst (columns t'))) by (by rewrite Hcols, built_keys).
  assert (t = t') as ->.
  { revert Hread. unfold asTableDef.
    set (base := <["indexes" := PIndexes (indexes t')]> _).
    assert (Hbase : forall k, k ∈ tableProperties ->
              fold_left (fun shape '(key, column) => <[key := PColumn column]> shape)
                        (columns t') base !! k = base !! k \/
              exists c, fold_left (fun shape '(key, column) =>
                                     <[key := PColumn column]> shape)
                                  (columns t') base !! k = Some (PColumn c)).
    { intros k _. destruct (decide (k ∈ map fst (columns t'))) as [Hk|Hk].
      - right. apply list_elem_of_fmap in Hk as ([k' c] & Hkey & Hk). exists c.
        simpl in Hkey. subst k'.
        by apply (proj1 (shape_lookup (columns t') base _ Hnd')).
      - left. by apply (proj2 (shape_lookup (columns t') base _ Hnd')). }
    destruct (Hbase "name") as [-> | [c ->]]; [by_membership| |done].
    destruct (Hbase "columns") as [-> | [c ->]]; [by_membership| |done].
    destruct (Hbase "indexes") as [-> | [c ->]]; [by_membership| |done].
    subst base. rewrite <- Hname. simpl. destruct t'. by intros [= <-]. }
  assert (Hnames : map col_name (Object_values (columns t')) = map fst declared).
  { rewrite Hcols. clear. unfold Object_values.
    induction declared as [|[k b] l IH]; simpl; [done|]. by rewrite IH. }
  repeat split.
  - done.
  - by rewrite Hcols, built_keys.
  - rewrite Hcols. apply Forall_forall. intros entry Hin.
    apply list_elem_of_fmap in Hin as ([k b] & -> & _). done.
  - by rewrite Hnames.
Qed.

Lemma table_names_columns_witness :
  let t := Scenario.orElse (Builders.table "pair" Scenario.pair_columns None) Scenario.noTable in
  tbl_name t = "pair" /\
  map fst (columns t) = map fst Scenario.pair_columns /\
  Forall (fun entry => col_name (snd entry) = fst entry /\
                       foreignKey (snd entry) = None) (columns t) /\
  NoDup (map col_name (Object_values (columns t))).
Proof.
  apply (table_names_columns_after_their_keys "pair" Scenario.pair_columns None
           (Scenario.orElse (tableShape "pair" Scenario.pair_columns None) ∅)).
  - by_decide.
  - reflexivity.
  - vm_compute. reflexivity.
Defined.

Lemma mapResult_Ok {A B : Type} (f : A -> Result B) (xs : list A) (ys : list B) :
  Builders.mapResult f xs = Ok ys -> Forall2 (fun x y => f x = Ok y) xs ys.
Proof.
  revert ys. induction xs as [|x xs IH]; intros ys; simpl.
  - intros [= <-]. constructor.
  - destruct (f x) as [y|e] eqn:Hx; [|done].
    destruct (Builders.mapResult f xs) as [ys'|e]; [|done].
    intros [= <-]. constructor; [done|by apply IH].
Qed.

Lemma mapResult_Ok_all {A B : Type} (f : A -> Result B) (xs : list A) (ys : list B) :
  Builders.mapResult f xs = Ok ys -> forall x, x ∈ xs -> exists y, f x = Ok y.
Proof.
  intros H%mapResult_Ok. induction H as [|x y xs ys Hx _ IH].
  - intros x Hin. by apply elem_of_nil in Hin.
  - intros x' [->|Hin]%elem_of_cons; [by exists y|by apply IH].
Qed.

Lemma mapResult_Err {A B : Type} (f : A -> Result B) (xs : list A) (e : Error) :
  Builders.mapResult f xs = Err e -> exists x, x ∈ xs /\ f x = Err e.
Proof.
  induction xs as [|x xs IH]; simpl; [done|].
  destruct (f x) as [y|e'] eqn:Hx.
  - destruct (Builders.mapResult f xs) as [ys'|e']; [done|].
    intros [= <-]. destruct IH as (x' & Hin & Hx'); [done|].
    exists x'. split; [by apply list_elem_of_further|done].
  - intros [= <-]. exists x. split; [apply list_elem_of_here|done].
Qed.

Lemma resolveColumn_Ok (table : TableDef) (column column' : ColumnDef) :
  Builders.resolveColumn table column = Ok column' ->
  ~ unresolvable column /\
  exists fk,
    column' = with_foreignKey fk column /\
    (reference column <> None -> fk <> None) /\
    (foreignKey column <> None -> fk = foreignKey column) /\
    (forall meta, fk = Some meta -> foreignKey column = None ->
       tableName meta <> "" /\
       exists ref, reference column = Some ref /\ onDelete meta = ref_onDelete ref).
Proof.
  unfold Builders.resolveColumn, unresolvable.
  destruct (reference column) as [ref|] eqn:Href,
           (foreignKey column) as [old|] eqn:Hfk.
  - intros [= <-]. split; [by intros [? _]|].
    exists (Some old). split; [destruct column; simpl in *; by subst|].
    split; [done|]. split; [done|]. intros meta _ Hnone. done.
  - destruct (resolver ref tt) as [[[tn|] cn]|] eqn:Hres; try done.
    case_bool_decide as Hempty; [done|]. intros [= <-]. split.
    + intros (_ & ref' & [= <-] & Hbad). rewrite Hres in Hbad. simpl in Hbad.
      destruct Hbad as [?|[= ?]]; done.
    + exists (Some {| tableName := tn; columnName := cn;
                      onDelete := ref_onDelete ref |}).
      split; [unfold with_foreignKey; by rewrite Href|].
      split; [done|]. split; [done|].
      intros meta [= <-] _. simpl. split; [done|]. by exists ref.
  - intros [= <-]. split; [by intros [? _]|].
    exists (Some old). split; [destruct column; simpl in *; by subst|].
    split; [done|]. split; [done|]. intros meta _ Hnone. done.
  - intros [= <-]. split; [by intros (_ & ? & ? & _)|].
    exists None. split; [destruct column; simpl in *; by subst|].
    split; [done|]. split; [done|]. intros meta Hmeta _. done.
Qed.

Lemma resolveColumn_Err (table : TableDef) (column : ColumnDef) (e : Error) :
  Builders.resolveColumn table column = Err e ->
  unresolvable column /\
  e = UnableToResolveForeignKey (tbl_name table) (col_name column).
Proof.
  unfold Builders.resolveColumn, unresolvable.
  destruct (reference column) as [ref|] eqn:Href,
           (foreignKey column) as [old|] eqn:Hfk; try done.
  destruct (resolver ref tt) as [[[tn|] cn]|] eqn:Hres.
  - case_bool_decide as Hempty; [|done]. intros [= <-]. split; [|done].
    split; [done|]. exists ref. split; [done|]. rewrite Hres. simpl. right. by subst.
  - intros [= <-]. split; [|done].
    split; [done|]. exists ref. split; [done|]. rewrite Hres. simpl. by left.
  - intros [= <-]. split; [|done].
    split; [done|]. exists ref. split; [done|]. by rewrite Hres.
Qed.

(** X19.  What [schema()] returns.  The version defaults to 1 and the
    namespace to the schema's name; the tables keep their aliases, names,
    indexes and column keys, in order; and a column changes in its
    foreign-key metadata only: every column declared with a reference
    carries metadata afterwards, metadata already present is kept, and
    metadata filled in names a non-empty table and takes its delete rule
    from the reference. *)
Theorem schema_resolves_every_reference (options : Builders.SchemaOptions)
    (declared : list (string * TableDef)) (s : SchemaDef) :
  Builders.schema options declared = Ok s ->
  schema_name s = Builders.opt_name options /\
  version s = default 1 (Builders.opt_version options) /\
  namespace s = default (Builders.opt_name options) (Builders.opt_namespace options) /\
  Forall2 (fun before after =>
             fst after = fst before /\
             tbl_name (snd after) = tbl_name (snd before) /\
             indexes (snd after) = indexes (snd before) /\
             Forall2 (fun c c' =>
                        fst c' = fst c /\
                        exists fk,
                          snd c' = with_foreignKey fk (snd c) /\
                          (reference (snd c) <> None -> fk <> None) /\
                          (foreignKey (snd c) <> None -> fk = foreignKey (snd c)) /\
                          (forall meta, fk = Some meta -> foreignKey (snd c) = None ->
                             tableName meta <> "" /\
                             exists ref, reference (snd c) = Some ref /\
                                         onDelete meta = ref_onDelete ref))
                     (columns (snd before)) (columns (snd after)))
          declared (tables s).
Proof.
  unfold Builders.schema, Builders.resolveForeignKeys.
  destruct (Builders.mapResult _ declared) as [resolved|e] eqn:Hres; [|done].
  intros [= <-]. simpl. repeat split.
  apply mapResult_Ok in Hres. eapply Forall2_impl; [exact Hres|].
  intros [alias table] [alias' table'] Htable. simpl in *.
  destruct (Builders.mapResult _ (columns table)) as [columns'|e] eqn:Hcols; [|done].
  injection Htable as <- <-. simpl. repeat split.
  apply mapResult_Ok in Hcols. eapply Forall2_impl; [exact Hcols|].
  intros [key column] [key' column'] Hcolumn. simpl in *.
  destruct (Builders.resolveColumn table column) as [resolved'|e] eqn:Hcol; [|done].
  injection Hcolumn as <- <-. split; [done|].
  by destruct (resolveColumn_Ok _ _ _ Hcol) as [_ ?].
Qed.

Lemma schema_resolves_witness :
  schema_name Scenario.appSchema = "app" /\
  version Scenario.appSchema = 1 /\
  namespace Scenario.appSchema = "app" /\
  Forall2 (fun before after =>
             fst after = fst before /\
             tbl_name (snd after) = tbl_name (snd before) /\
             indexes (snd after) = indexes (snd before) /\
             Forall2 (fun c c' =>
                        fst c' = fst c /\
                        exists fk,
                          snd c' = with_foreignKey fk (snd c) /\
                          (reference (snd c) <> None -> fk <> None) /\
                          (foreignKey (snd c) <> None -> fk = foreignKey (snd c)) /\
                          (forall meta, fk = Some meta -> foreignKey (snd c) = None ->
                             tableName meta <> "" /\
                             exists ref, reference (snd c) = Some ref /\
                                         onDelete meta = ref_onDelete ref))
                     (columns (snd before)) (columns (snd after)))
          [("users", Scenario.users_table); ("todos", Scenario.todos_table)]
          (tables Scenario.appSchema).
Proof.
  apply (schema_resolves_every_reference
           {| Builders.opt_name := "app"; Builders.opt_version := None;
              Builders.opt_namespace := None |}
           [("users", Scenario.users_table); ("todos", Scenario.todos_table)]
           Scenario.appSchema).
  reflexivity.
Defined.

(** X20.  [schema()] fails exactly on an unresolvable reference.  When it
    returns, no column of the declared tables is unresolvable; when it
    throws, the error names a declared table and one of its columns that
    bears a reference whose resolver yields no column with a table name. *)
Theorem schema_fails_on_unresolvable_reference (options : Builders.SchemaOptions)
    (declared : list (string * TableDef)) :
  match Builders.schema options declared with
  | Ok _ =>
      forall alias table key column,
        (alias, table) ∈ declared -> (key, column) ∈ columns table ->
        ~ unresolvable column
  | Err e =>
      exists alias table key column,
        (alias, table) ∈ declared /\ (key, column) ∈ columns table /\
        unresolvable column /\
        e = UnableToResolveForeignKey (tbl_name table) (col_name column)
  end.
Proof.
  unfold Builders.schema, Builders.resolveForeignKeys.
  destruct (Builders.mapResult _ declared) as [resolved|e] eqn:Hres.
  - intros alias table key column Htable Hcolumn.
    destruct (mapResult_Ok_all _ _ _ Hres _ Htable) as [[alias' table'] Hok].
    simpl in Hok.
    destruct (Builders.mapResult _ (columns table)) as [columns'|e] eqn:Hcols; [|done].
    destruct (mapResult_Ok_all _ _ _ Hcols _ Hcolumn) as [[key' column'] Hc].
    simpl in Hc.
    destruct (Builders.resolveColumn table column) as [resolved'|e] eqn:Hcol; [|done].
    by destruct (resolveColumn_Ok _ _ _ Hcol) as [? _].
  - destruct (mapResult_Err _ _ _ Hres) as ([alias table] & Htable & Herr).
    simpl in Herr.
    destruct (Builders.mapResult _ (columns table)) as [columns'|e'] eqn:Hcols; [done|].
    injection Herr as ->.
    destruct (mapResult_Err _ _ _ Hcols) as ([key column] & Hcolumn & Herr).
    simpl in Herr.
    destruct (Builders.resolveColumn table column) as [resolved'|e'] eqn:Hcol; [done|].
    injection Herr as ->.
    destruct (resolveColumn_Err _ _ _ Hcol) as [Hbad ->].
    by exists alias, table, key, column.
Qed.

(** A reference whose resolver yields nothing: the schema is refused and
    the error names the table and the column. *)
Example schema_refuses_dangling_reference :
  let orphans :=
    Scenario.orElse
      (Builders.table "orphans"
         [("id", Scenario.id_column);
          ("parent", Builders.ColumnBuilder_references (fun _ => None) None
                       (Builders.scalar KInt))] None) Scenario.noTable in
  Builders.schema {| Builders.opt_name := "app"; Builders.opt_version := None;
                     Builders.opt_namespace := None |} [("orphans", orphans)]
  = Err (UnableToResolveForeignKey "orphans" "parent").
Proof. reflexivity. Qed.

(** X21.  The constraint methods of a column builder only ever raise
    flags, so chaining them is order-independent: any two of [notNull],
    [primaryKey], [unique] and [identity] commute and each is idempotent;
    [primaryKey] subsumes [notNull]; and the built column of a primary key
    is not nullable, that of an identity column has a default. *)
Theorem constraint_methods_commute (b : Builders.ColumnBuilder) (columnName : string) :
  let methods := [Builders.ColumnBuilder_notNull; Builders.ColumnBuilder_primaryKey;
                  Builders.ColumnBuilder_unique; Builders.ColumnBuilder_identity] in
  Forall (fun f => f (f b) = f b /\ Forall (fun g => f (g b) = g (f b)) methods) methods /\
  Builders.ColumnBuilder_primaryKey (Builders.ColumnBuilder_notNull b)
    = Builders.ColumnBuilder_primaryKey b /\
  notNull (constraints (Builders.build (Builders.ColumnBuilder_primaryKey b) columnName))
    = true /\
  hasDefault (constraints (Builders.build (Builders.ColumnBuilder_identity b) columnName))
    = true.
Proof.
  destruct b as [k [] dv df ou r]. simpl. repeat split; repeat constructor.
Qed.

(** ** The persistent backend: the stores and the tables of a transaction *)

Lemma Set_add_spec (x : string) (s : list string) :
  NoDup s ->
  NoDup (Set_add x s) /\ forall y, y ∈ Set_add x s <-> y ∈ s \/ y = x.
Proof.
  intros Hnd. unfold Set_add. case_bool_decide as Hin.
  - split; [done|]. intros y. split; [by left|]. by intros [?| ->].
  - split.
    + apply NoDup_app. split; [done|]. split; [|apply NoDup_singleton].
      intros y Hy ->%list_elem_of_singleton. done.
    + intros y. rewrite elem_of_app, list_elem_of_singleton. done.
Qed.

Lemma fold_left_union {A : Type} (P : A -> string -> Prop)
    (step : list string -> A -> list string) :
  (forall s x, NoDup s ->
     NoDup (step s x) /\ forall y, y ∈ step s x <-> y ∈ s \/ P x y) ->
  forall xs s0, NoDup s0 ->
    NoDup (fold_left step xs s0) /\
    forall y, y ∈ fold_left step xs s0 <-> y ∈ s0 \/ exists x, x ∈ xs /\ P x y.
Proof.
  intros Hstep. induction xs as [|x xs IH]; intros s0 Hnd; simpl.
  - split; [done|]. intros y. split; [by left|].
    intros [?|(x & Hx & _)]; [done|]. by apply elem_of_nil in Hx.
  - destruct (Hstep s0 x Hnd) as [Hnd1 Hin1].
    destruct (IH _ Hnd1) as [Hnd2 Hin2]. split; [done|].
    intros y. rewrite Hin2, Hin1. split.
    + intros [[?|?]|(x' & Hx' & ?)]; [by left| |].
      * right. exists x. split; [apply list_elem_of_here|done].
      * right. exists x'. split; [by apply list_elem_of_further|done].
    + intros [?|(x' & [->|Hx']%elem_of_cons & ?)]; [by left; left| |].
      * by left; right.
      * right. by exists x'.
Qed.

(** X22.  The stores a table's foreign keys reach.  [referencedStoreNames]
    answers, without duplicates, exactly the stores of the tables that the
    schema registers under the alias a foreign key of the table names. *)
Theorem referencedStoreNames_spec (sch : SchemaDef) (table : TableDef) :
  NoDup (referencedStoreNames sch table) /\
  forall name,
    name ∈ referencedStoreNames sch table <->
    exists column fk target,
      column ∈ Object_values (columns table) /\
      foreignKey column = Some fk /\
      prop (tableName fk) (tables sch) = Some target /\
      name = storeName sch target.
Proof.
  unfold referencedStoreNames.
  destruct (fold_left_union
              (fun column name => exists fk target,
                 foreignKey column = Some fk /\
                 prop (tableName fk) (tables sch) = Some target /\
                 name = storeName sch target)
              (fun names column =>
                 match foreignKey column with
                 | None => names
                 | Some fk =>
                     match prop (tableName fk) (tables sch) with
                     | Some target => Set_add (storeName sch target) names
                     | None => names
                     end
                 end)) with (xs := Object_values (columns table)) (s0 := @nil string)
    as [Hnd Hin].
  - intros s column Hnd. destruct (foreignKey column) as [fk|] eqn:Hfk.
    + destruct (prop (tableName fk) (tables sch)) as [target|] eqn:Htarget.
      * destruct (Set_add_spec (storeName sch target) s Hnd) as [Hnd' Hin'].
        split; [done|]. intros y. rewrite Hin'. split.
        -- intros [?| ->]; [by left|]. right. by exists fk, target.
        -- intros [?|(fk' & target' & [= <-] & Ht & ->)]; [by left|].
           right. congruence.
      * split; [done|]. intros y. split; [by left|].
        intros [?|(fk' & target' & [= <-] & Ht & _)]; [done|congruence].
    + split; [done|]. intros y. split; [by left|].
      by intros [?|(fk' & target' & ? & _)].
  - apply NoDup_nil_2.
  - split; [done|]. intros name. rewrite Hin. split.
    + intros [Hnil|(column & Hc & fk & target & ?)]; [by apply elem_of_nil in Hnil|].
      by exists column, fk, target.
    + intros (column & fk & target & Hc & ?). right. exists column.
      split; [done|]. by exists fk, target.
Qed.

(** X23.  The stores a transaction of the persistent backend opens.  For a
    list of tables they are, without duplicates, exactly: the sequence
    store; the store of every listed table; every store a foreign key of a
    listed table reaches; and the store of every table the reverse
    dependency map lists under a listed table's name. *)
Theorem collectTransactionStores_spec (this : IDB.IDBAdapter)
    (tables : list AnyTable) :
  NoDup (IDB.collectTransactionStores this tables) /\
  forall name,
    name ∈ IDB.collectTransactionStores this tables <->
    name = SEQ_STORE \/
    exists table : AnyTable, table ∈ tables /\
      (name = storeName (IDB.schema this) table \/
       name ∈ referencedStoreNames (IDB.schema this) table \/
       exists dep, dep ∈ default [] (IDB.referenceMap this !! tbl_name table) /\
                   name = storeName (IDB.schema this) (ref_table dep)).
Proof.
  unfold IDB.collectTransactionStores.
  destruct (fold_left_union
              (fun (table : AnyTable) name =>
                 name = storeName (IDB.schema this) table \/
                 name ∈ referencedStoreNames (IDB.schema this) table \/
                 exists dep, dep ∈ default [] (IDB.referenceMap this !! tbl_name table) /\
                             name = storeName (IDB.schema this) (ref_table dep))
              (fun stores (table : AnyTable) =>
                 let stores := Set_add (storeName (IDB.schema this) table) stores in
                 let stores := fold_left (fun stores ref => Set_add ref stores)
                                 (referencedStoreNames (IDB.schema this) table) stores in
                 let dependents :=
                   default [] (IDB.referenceMap this !! tbl_name table) in
                 fold_left (fun stores dep =>
                              Set_add (storeName (IDB.schema this) (ref_table dep)) stores)
                           dependents stores))
    with (xs := tables) (s0 := [SEQ_STORE]) as [Hnd Hin].
  - intros s table Hnd. cbv zeta.
    destruct (Set_add_spec (storeName (IDB.schema this) table) s Hnd) as [Hnd1 Hin1].
    destruct (fold_left_union (fun (ref : string) name => name = ref)
                (fun stores ref => Set_add ref stores))
      with (xs := referencedStoreNames (IDB.schema this) table)
           (s0 := Set_add (storeName (IDB.schema this) table) s) as [Hnd2 Hin2];
      [intros ? ?; apply Set_add_spec|done|].
    destruct (fold_left_union
                (fun (dep : ForeignReference) name =>
                   name = storeName (IDB.schema this) (ref_table dep))
                (fun stores dep =>
                   Set_add (storeName (IDB.schema this) (ref_table dep)) stores))
      with (xs := default [] (IDB.referenceMap this !! tbl_name table))
           (s0 := fold_left (fun stores ref => Set_add ref stores)
                    (referencedStoreNames (IDB.schema this) table)
                    (Set_add (storeName (IDB.schema this) table) s)) as [Hnd3 Hin3];
      [intros ? ?; apply Set_add_spec|done|].
    split; [done|]. intros y. rewrite Hin3, Hin2, Hin1. split.
    + intros [[[?|?]|(ref & ? & ->)]|(dep & ? & ?)]; [by left| | |].
      * right. by left.
      * right. right. by left.
      * right. right. right. by exists dep.
    + intros [?|[?|[?|(dep & ? & ?)]]].
      * by left; left; left.
      * by left; left; right.
      * left. right. by exists y.
      * right. by exists dep.
  - apply NoDup_singleton.
  - split; [done|]. intros name. rewrite Hin, list_elem_of_singleton. done.
Qed.

(** X24.  A session of the persistent backend refuses a table that the
    transaction did not list.  Whatever the engine does for the four verbs,
    a verb on such a table does not reach it: the database is as before and
    the session function goes on with the undeclared-table error. *)
Theorem session_refuses_undeclared_table {Db Tx T : Type}
    (insertWithin : Tx -> AnyTable -> InsertValues -> M Db (list Row))
    (selectWithin : Tx -> AnyTable -> option QueryOptions -> M Db (list Row))
    (updateWithin : Tx -> AnyTable -> (Row -> bool) -> Row -> M Db Z)
    (deleteWithin : Tx -> AnyTable -> (Row -> bool) -> M Db Z)
    (tx : Tx) (tables : list AnyTable) (table : AnyTable) (db : Db) :
  let allowed := map (fun t : AnyTable => tbl_name t) tables in
  let run := @IDB.runSession Db Tx insertWithin selectWithin updateWithin deleteWithin
               T tx allowed in
  let refused {A : Type} : Result A := Err (UndeclaredTable (tbl_name table)) in
  tbl_name table ∉ allowed ->
  (forall values k, run (TrxInsert table values k) db = run (k refused) db) /\
  (forall options k, run (TrxSelect table options k) db = run (k refused) db) /\
  (forall p patch k, run (TrxUpdate table p patch k) db = run (k refused) db) /\
  (forall p k, run (TrxDelete table p k) db = run (k refused) db).
Proof.
  intros allowed run refused Hout. subst run refused. simpl.
  unfold IDB.assertAllowed, bind, throw.
  rewrite bool_decide_eq_false_2 by done. done.
Qed.

Lemma session_refuses_undeclared_witness :
  let ins : unit -> AnyTable -> InsertValues -> M unit (list Row) := fun _ _ _ => ret [] in
  let sel : unit -> AnyTable -> option QueryOptions -> M unit (list Row) :=
    fun _ _ _ => ret [] in
  let upd : unit -> AnyTable -> (Row -> bool) -> Row -> M unit Z := fun _ _ _ _ => ret 0 in
  let del : unit -> AnyTable -> (Row -> bool) -> M unit Z := fun _ _ _ => ret 0 in
  let run := @IDB.runSession unit unit ins sel upd del unit tt
               (map (fun t : AnyTable => tbl_name t) [Scenario.users]) in
  let refused {A : Type} : Result A := Err (UndeclaredTable (tbl_name Scenario.todos)) in
  (forall values k, run (TrxInsert Scenario.todos values k) tt = run (k refused) tt) /\
  (forall options k, run (TrxSelect Scenario.todos options k) tt = run (k refused) tt) /\
  (forall p patch k, run (TrxUpdate Scenario.todos p patch k) tt = run (k refused) tt) /\
  (forall p k, run (TrxDelete Scenario.todos p k) tt = run (k refused) tt).
Proof.
  intros ins sel upd del.
  apply (session_refuses_undeclared_table ins sel upd del tt [Scenario.users]
           Scenario.todos tt).
  by_decide.
Defined.

(** ** Computed index fields *)

(** X25.  The field of a computed index is written onto the row: after
    [applyComputedFields] the row holds, under the field of a computed index
    that no later index writes again, the index's expression evaluated on the
    row as the indexes before it left it. *)
Theorem computed_index_field_is_materialised (table : TableDef)
    (before after : list IndexDef) (idx : IndexDef) (cfg : IndexComputedConfig)
    (row : Row) :
  indexes table = before ++ idx :: after ->
  computed idx = Some cfg ->
  not_computed (with_indexes after table) (field cfg) ->
  hasOwnProperty (applyComputedFields table row) (field cfg) = true /\
  get (applyComputedFields table row) (field cfg)
  = expression cfg (applyComputedFields (with_indexes before table) row).
Proof.
  intros Hidx Hcfg Hafter.
  assert (Hlookup : applyComputedFields table row !! field cfg
                    = Some (expression cfg
                              (applyComputedFields (with_indexes before table) row))).
  { pose proof (applyComputedFields_other (with_indexes after table)
                  (<[field cfg := expression cfg
                       (applyComputedFields (with_indexes before table) row)]>
                     (applyComputedFields (with_indexes before table) row))
                  (field cfg) Hafter) as H.
    rewrite lookup_insert_eq in H. rewrite <- H.
    unfold applyComputedFields. rewrite Hidx, fold_left_app. simpl.
    by rewrite Hcfg. }
  unfold hasOwnProperty, get. rewrite Hlookup. split; [|done].
  by apply bool_decide_eq_true_2.
Qed.

Lemma computed_index_field_witness :
  let byOwner := {| idx_name := "byOwner"; idx_unique := false; sourceColumns := [];
                    computed := Some {| field := "__idx_byOwner";
                                        expression := fun r => get r "id" |} |} in
  let table := with_indexes [byOwner] Scenario.users_table in
  let row := Scenario.item 4 in
  hasOwnProperty (applyComputedFields table row) "__idx_byOwner" = true /\
  get (applyComputedFields table row) "__idx_byOwner"
  = get (applyComputedFields (with_indexes [] table) row) "id".
Proof.
  intros byOwner table row.
  apply (computed_index_field_is_materialised table [] [] byOwner
           {| field := "__idx_byOwner"; expression := fun r => get r "id" |} row).
  - reflexivity.
  - reflexivity.
  - intros idx cfg Hin. by apply elem_of_nil in Hin.
Defined.

(** ** An update that throws *)

Lemma updateRow_err (table : AnyTable) where_ patch updated k row b e b' :
  Memory.updateRow table where_ patch Memory.makeContext updated (k, row) b = (Err e, b') ->
  where_ row = true /\ b' = b /\
  fst (normalizeUpdateRow table row patch Memory.makeContext b) = Err e.
Proof.
  unfold Memory.updateRow. destruct (where_ row); [|discriminate].
  unfold negb, bind.
  destruct (normalizeUpdateRow _ _ _ _ b) as [[next|e'] b1] eqn:E; [discriminate|].
  pose proof (normalizeUpdateRow_readonly _ _ _ _ _ _ E) as <-.
  by intros [= <- <-].
Qed.

Lemma updateRows_err_loop a (table : AnyTable) where_ patch :
  forall todo kept updated e a',
    NoDup (map fst (kept ++ todo)) ->
    foldM (Memory.updateRow table where_ patch Memory.makeContext) todo updated
          (set_store (storeName (schema a) table) (kept ++ todo) a) = (Err e, a') ->
    exists earlier earlier' k row rest,
      todo = earlier ++ (k, row) :: rest /\
      where_ row = true /\
      a' = set_store (storeName (schema a) table) (kept ++ earlier' ++ (k, row) :: rest) a /\
      Forall2 (fun e e' => fst e' = fst e /\ (where_ (snd e) = false -> e' = e))
              earlier earlier' /\
      fst (normalizeUpdateRow table row patch Memory.makeContext a') = Err e.
Proof.
  induction todo as [|[k row] rest IH]; intros kept updated e a' Hnd.
  - discriminate.
  - rewrite foldM_cons.
    destruct (Memory.updateRow _ _ _ _ _ _ _) as [[u|e'] b'] eqn:E.
    + apply updateRow_ok in E as [(Hw & -> & ->)|(Hw & -> & next & ->)].
      * replace (kept ++ (k, row) :: rest) with ((kept ++ [(k, row)]) ++ rest) in *
          by (by rewrite <- app_assoc).
        intros Hrest.
        destruct (IH _ _ _ _ Hnd Hrest)
          as (earlier & earlier' & k' & row' & rest' & -> & Hw' & -> & Hall & Herr).
        exists ((k, row) :: earlier), ((k, row) :: earlier'), k', row', rest'.
        split; [done|]. split; [done|]. split; [by rewrite <- app_assoc|].
        split; [|exact Herr]. constructor; [by split|done].
      * change (schema (set_store _ _ a)) with (schema a).
        rewrite alter_set_store, Map_set_middle.
        2:{ rewrite map_app in Hnd. apply NoDup_app in Hnd as (_ & Hdisj & _).
            intros Hin. apply (Hdisj _ Hin). simpl. apply list_elem_of_here. }
        replace (kept ++ (k, next) :: rest) with ((kept ++ [(k, next)]) ++ rest)
          by (by rewrite <- app_assoc).
        intros Hrest.
        assert (NoDup (map fst ((kept ++ [(k, next)]) ++ rest))) as Hnd'.
        { rewrite <- app_assoc. simpl. rewrite map_app in *. exact Hnd. }
        destruct (IH _ _ _ _ Hnd' Hrest)
          as (earlier & earlier' & k' & row' & rest' & -> & Hw' & -> & Hall & Herr).
        exists ((k, row) :: earlier), ((k, next) :: earlier'), k', row', rest'.
        split; [done|]. split; [done|]. split; [by rewrite <- app_assoc|].
        split; [|exact Herr].
        constructor; [|done]. split; [done|]. simpl. congruence.
    + apply updateRow_err in E as (Hw & -> & Herr). intros [= <- <-].
      exists [], [], k, row, rest. split; [done|]. split; [done|]. split; [done|].
      split; [constructor|done].
Qed.

(** X26.  An update that throws is not undone.  On the memory backend (a
    store's keys being distinct), when [update] rejects, the store has been
    walked up to a row that the predicate accepts and whose normalization
    threw that error: the rows before it stay as the update left them (those
    the predicate refuses unchanged, the keys and their order kept), that
    row and the rows after it are untouched, and so are the other stores and
    the counters. *)
Theorem update_rejected_keeps_earlier_rows (table : AnyTable) (where_ : Row -> bool)
    (patch : Row) (store : Store) (e : Error) (a a' : MemoryAdapter) :
  Memory.getStore a table = Some store ->
  NoDup (map fst store) ->
  Memory.update table where_ patch a = (Err e, a') ->
  exists earlier earlier' k row rest,
    store = earlier ++ (k, row) :: rest /\
    where_ row = true /\
    a' = set_store (storeName (schema a) table) (earlier' ++ (k, row) :: rest) a /\
    Forall2 (fun e e' => fst e' = fst e /\ (where_ (snd e) = false -> e' = e))
            earlier earlier' /\
    fst (normalizeUpdateRow table row patch Memory.makeContext a') = Err e.
Proof.
  intros Hstore Hnd Hrun.
  assert (Hloop : foldM (Memory.updateRow table where_ patch Memory.makeContext) store 0
                        (set_store (storeName (schema a) table) ([] ++ store) a)
                  = (Err e, a')).
  { simpl. rewrite (set_store_id _ _ _ Hstore). rewrite <- Hrun.
    unfold Memory.update, Memory.updateRows, bind, Memory.theStore. by rewrite Hstore. }
  exact (updateRows_err_loop a table where_ patch store [] 0 e a' Hnd Hloop).
Qed.

(** Two users; the update accepts the second only and sets its [name],
    which is not nullable, to [undefined]: it throws at the second row and
    the first is as it was. *)
Lemma update_rejected_witness :
  let a := Fixture.afterM
             (Memory.insert Scenario.users (One (Scenario.row [("name", VStr "y")])))
             Fixture.oneUser in
  let where_ := Scenario.pkEquals "id" 2 in
  let patch := Scenario.row [("name", VUndefined)] in
  let store := [(VNum 1, Scenario.row [("id", VNum 1); ("name", VStr "x")]);
                (VNum 2, Scenario.row [("id", VNum 2); ("name", VStr "y")])] in
  let a' := snd (Memory.update Scenario.users where_ patch a) in
  exists earlier earlier' k row rest,
    store = earlier ++ (k, row) :: rest /\
    where_ row = true /\
    a' = set_store (storeName (schema a) Scenario.users)
                   (earlier' ++ (k, row) :: rest) a /\
    Forall2 (fun e e' => fst e' = fst e /\ (where_ (snd e) = false -> e' = e))
            earlier earlier' /\
    fst (normalizeUpdateRow Scenario.users row patch Memory.makeContext a')
    = Err (NotNullable "users" "name").
Proof.
  intros a where_ patch store a'.
  apply (update_rejected_keeps_earlier_rows Scenario.users where_ patch store
           (NotNullable "users" "name") a a').
  - vm_compute. reflexivity.
  - by_decide.
  - vm_compute. reflexivity.
Defined.
